(** * Assembly generation from releases: a model of
      [doozerlib/cli/release_gen_assembly.py]

    The development embeds the reconciliation core of [GenAssemblyCli]:
    the payload pass ([_process_release]), the basis event estimate
    ([_determine_basis_brew_event]), the image and RPM outlier passes
    ([_collect_outliers], [_select_rpms]), the RHCOS completion
    ([_get_rhcos_container]) and the override lists
    ([_get_member_overrides]).  It goes on with the command line side of
    the class ([_validate_params], [_get_release_pullspecs],
    [_calculate_previous_list], [_get_advisories_release_jira] and the
    [group] block of [_generate_assembly_definition]) and with the helpers
    of [ocp_cd_tools/common.py].

    Modelling conventions.
    - Python dicts are finite maps ([gmap]), Python sets are [gset].  Where
      the code goes through a dict or a set and the order can show in the
      result, the order is a collaborator of the run ([Enumeration]): any
      arrangement of the content.
    - [completion_ts] and event times are seconds since the epoch, taken as
      exact integers ([Z]); the source holds them as floats and adds the
      margin [60.0 * 5] in floating point.
    - [asyncio.gather] runs the coroutines of [_process_release] on one
      event loop.  Each has a single [await], on the [oc] subprocess, at its
      start; what follows runs to the end without interleaving.  A run is
      therefore determined by the order in which the subprocesses complete,
      which is an argument of the model.
    - [_exit_with_error] prints and calls [exit(1)]; an uncaught [KeyError]
      ends the process as well.  Both are the [Exit] outcome of [result].
    - Log lines are kept as structured records in the [logger] field, most
      recent first.
    - Collaborators outside this file of the source (the [oc] client, the
      Brew inspector, the metadata queries, the RHCOS helpers) are fields
      of [Runtime]. *)

From stdpp Require Import gmap strings list fin_maps pretty sorting.
From Stdlib Require Import ZArith Lia Ascii.

Local Open Scope Z_scope.

(** ** Outcomes *)

(** The reasons for which a run ends without a result. *)
Inductive Fatal : Type :=
| NoImagestreamTags (pullspec : string)
| NoMachineOsVersion (pullspec : string)
| DisparateNvrs (existing_nvr build_nvr pullspec : string)
| NoLastEvent (before : Z)
| NoImageFound (dgk : string) (event : Z)
| NoRhcosForArch (tag arch : string)
| UnableToIsolateEl (rpm_build_nvr : string)
| NoRpmFound (dgk : string) (event : Z)
| KeyError (key : string).

Inductive result (A : Type) : Type :=
| Ok (a : A)
| Exit (e : Fatal).
Arguments Ok {A} a.
Arguments Exit {A} e.

Global Instance result_ret : MRet result := λ A a, Ok a.
Global Instance result_bind : MBind result := λ A B f r,
  match r with
  | Ok a => f a
  | Exit e => Exit e
  end.

Definition is_Exit {A} (r : result A) : Prop :=
  match r with Ok _ => False | Exit _ => True end.

(** A [for] loop whose body may end the run. *)
Fixpoint for_each {S B} (body : S → B → result S) (st : S) (l : list B) : result S :=
  match l with
  | [] => Ok st
  | x :: l' => st' ← body st x; for_each body st' l'
  end.

(** ** Data *)

Module ImageMetadata.
Record t : Type := Build {
  distgit_key : string;
  get_component_name : string;
  base_only : bool;
  for_release : bool;
  is_payload : bool;
  (* (payload_name, explicit) *)
  get_payload_tag_info : string * bool;
}.
End ImageMetadata.

Module BrewBuildImageInspector.
Record t : Type := Build {
  get_package_name : string;
  get_nvr : string;
  get_brew_build_id : Z;
  (* get_brew_build_dict()['completion_ts'] *)
  completion_ts : Z;
  get_image_meta : ImageMetadata.t;
}.
End BrewBuildImageInspector.

Module RPMMetadata.
Record t : Type := Build {
  distgit_key : string;
  get_package_name : string;
}.
End RPMMetadata.

(** A Brew build dict of an RPM build: the keys the code reads. *)
Module RpmBuild.
Record t : Type := Build {
  package_name : string;
  nvr : string;
  release : string;
}.
End RpmBuild.

(** One entry of [release_info.references.spec.tags]. *)
Record ComponentTag : Type := {
  tag_name : string;        (* component_tag.name *)
  tag_from_name : string;   (* component_tag['from'].name *)
}.

(** What [oc adm release info -o=json] gives for a pullspec.  A missing
    field reads as the empty list or the empty string, both falsy. *)
Record ReleaseInfo : Type := {
  references_spec_tags : list ComponentTag;
  machine_os_version : string;
}.

Record KojiEvent : Type := {
  event_id : Z;
  event_ts : Z;
}.

(** An RHCOS container config of the group. *)
Record RhcosContainerConfig : Type := {
  rhcos_name : string;
  build_metadata_key : string;
}.

Inductive LogLevel : Type := INFO | WARNING | ERROR.

Inductive LogMessage : Type :=
| ProcessingRelease (pullspec : string)
| IgnoringPayloadTag (payload_tag_name payload_name : string)
| SelectingPayloadTag (payload_tag_name payload_name : string)
| EstimatedBasisEvent (event : Z)
| DetectedPackages (package_names : gset string)
| NonPayloadSwept (dgk nvr : string)
| UnableToFindInReleasesCustom (dgk nvr : string)
| UnableToFindInReleases (dgk nvr : string)
| ImageWillBePinned (dgk nvr : string)
| RhcosIgnoredForCustom (tag arch : string)
| FoundRhcosImage (tag arch pullspec : string)
| QueryingRpmBuilds (count : nat)
| RpmSelectedByScan (dgk nvr : string)
| RpmWillBePinned (dgk nvr : string).

(** ** Collaborators *)

(** An order in which Python goes through a container.  For a set of
    strings it follows the hash seed of the process and the history of the
    set; for a dict it is the order in which the keys were inserted, which
    the finite maps of the model do not keep.  The model takes the order
    from the runtime: some arrangement of the content, one per content,
    which is all a run sees since it goes through each container once.
    What is proved for every runtime holds for every order. *)
Record Enumeration {C B : Type} (content : C → list B) : Type := {
  enumerate : C → list B;
  enumerate_content : ∀ c, enumerate c ≡ₚ content c;
}.
Arguments enumerate {C B content} _ _.
Arguments enumerate_content {C B content} _ _.

(** The order of the finite map or set itself. *)
Definition canonical {C B : Type} (content : C → list B) : Enumeration content :=
  {| enumerate := content; enumerate_content := λ c, reflexivity (content c) |}.

Record Runtime : Type := {
  (* oc adm release info {pullspec} -o=json *)
  release_info_of : string → ReleaseInfo;
  (* BrewBuildImageInspector(runtime, pullspec) *)
  inspect_pullspec : string → BrewBuildImageInspector.t;
  (* rhcos.get_container_names(runtime) *)
  rhcos_get_container_names : list string;
  (* rhcos.get_primary_container_name(runtime) *)
  rhcos_get_primary_container_name : string;
  (* rhcos.get_container_configs(runtime) *)
  rhcos_get_container_configs : list RhcosContainerConfig;
  (* runtime.group_config.arches *)
  group_arches : list string;
  (* requests.get(rhcos_build_url).json(): the URL is fixed by the group's
     constants, the RHCOS version and the arch; values are (image, digest) *)
  rhcos_meta_json : string → string → gmap string (string * string);
  (* the event log behind koji_api.getLastEvent *)
  koji_events : list KojiEvent;
  (* runtime.image_metas() *)
  image_metas : list ImageMetadata.t;
  (* image_meta.get_latest_brew_build(default=None, complete_before_event=e),
     wrapped in the inspector built from its id *)
  image_latest_brew_build : ImageMetadata.t → Z → option BrewBuildImageInspector.t;
  (* package_name -> RPMMetadata, from runtime.rpm_metas() *)
  package_rpm_meta : gmap string RPMMetadata.t;
  (* rpm_meta.get_latest_brew_build(el_target=el, complete_before_event=e) *)
  rpm_latest_brew_build : RPMMetadata.t → Z → Z → option RpmBuild.t;
  (* artcommonlib.release_util.isolate_el_version_in_release *)
  isolate_el_version_in_release : string → option Z;
  (* brew.list_archives_by_builds on the image build ids, then
     brew.get_build_objects on the RPM build ids found in the archives *)
  rpm_builds_in_images : list Z → list RpmBuild.t;
  (* self.component_image_builds.values() *)
  image_builds_order :
    Enumeration (λ builds : gmap string BrewBuildImageInspector.t, (map_to_list builds).*2);
  (* for package_name in self.force_is *)
  force_is_order : Enumeration (elements : gset string → list string);
  (* self.rhcos_by_tag[self.primary_rhcos_tag].keys() *)
  rhcos_arches_order : Enumeration (λ by_arch : gmap string string, (map_to_list by_arch).*1);
}.

(** The command-line side of [GenAssemblyCli] that the core reads. *)
Record Params : Type := {
  custom : bool;
  (* brew arch -> pullspec, as filled by _get_release_pullspecs *)
  release_pullspecs : list (string * string);
  reference_releases_by_arch : gmap string string;
}.

(** ** The mutable fields of [GenAssemblyCli] *)

Record State : Type := {
  rhcos_by_tag : gmap string (gmap string string);
  component_image_builds : gmap string BrewBuildImageInspector.t;
  component_rpm_builds : gmap string (gmap Z RpmBuild.t);
  basis_event : Z;
  basis_event_ts : Z;
  force_is : gset string;
  rhcos_version : string;
  logger : list (LogLevel * LogMessage);
}.

Definition initial_state : State :=
  {| rhcos_by_tag := ∅; component_image_builds := ∅; component_rpm_builds := ∅;
     basis_event := 0; basis_event_ts := 0; force_is := ∅; rhcos_version := "";
     logger := [] |}.

Definition set_rhcos_by_tag (v : gmap string (gmap string string)) (st : State) : State :=
  {| rhcos_by_tag := v; component_image_builds := component_image_builds st;
     component_rpm_builds := component_rpm_builds st; basis_event := basis_event st;
     basis_event_ts := basis_event_ts st; force_is := force_is st;
     rhcos_version := rhcos_version st; logger := logger st |}.

Definition set_component_image_builds (v : gmap string BrewBuildImageInspector.t) (st : State) : State :=
  {| rhcos_by_tag := rhcos_by_tag st; component_image_builds := v;
     component_rpm_builds := component_rpm_builds st; basis_event := basis_event st;
     basis_event_ts := basis_event_ts st; force_is := force_is st;
     rhcos_version := rhcos_version st; logger := logger st |}.

Definition set_component_rpm_builds (v : gmap string (gmap Z RpmBuild.t)) (st : State) : State :=
  {| rhcos_by_tag := rhcos_by_tag st; component_image_builds := component_image_builds st;
     component_rpm_builds := v; basis_event := basis_event st;
     basis_event_ts := basis_event_ts st; force_is := force_is st;
     rhcos_version := rhcos_version st; logger := logger st |}.

Definition set_basis_event (v : Z) (st : State) : State :=
  {| rhcos_by_tag := rhcos_by_tag st; component_image_builds := component_image_builds st;
     component_rpm_builds := component_rpm_builds st; basis_event := v;
     basis_event_ts := basis_event_ts st; force_is := force_is st;
     rhcos_version := rhcos_version st; logger := logger st |}.

Definition set_basis_event_ts (v : Z) (st : State) : State :=
  {| rhcos_by_tag := rhcos_by_tag st; component_image_builds := component_image_builds st;
     component_rpm_builds := component_rpm_builds st; basis_event := basis_event st;
     basis_event_ts := v; force_is := force_is st;
     rhcos_version := rhcos_version st; logger := logger st |}.

Definition set_force_is (v : gset string) (st : State) : State :=
  {| rhcos_by_tag := rhcos_by_tag st; component_image_builds := component_image_builds st;
     component_rpm_builds := component_rpm_builds st; basis_event := basis_event st;
     basis_event_ts := basis_event_ts st; force_is := v;
     rhcos_version := rhcos_version st; logger := logger st |}.

Definition set_rhcos_version (v : string) (st : State) : State :=
  {| rhcos_by_tag := rhcos_by_tag st; component_image_builds := component_image_builds st;
     component_rpm_builds := component_rpm_builds st; basis_event := basis_event st;
     basis_event_ts := basis_event_ts st; force_is := force_is st;
     rhcos_version := v; logger := logger st |}.

Definition log (lvl : LogLevel) (msg : LogMessage) (st : State) : State :=
  {| rhcos_by_tag := rhcos_by_tag st; component_image_builds := component_image_builds st;
     component_rpm_builds := component_rpm_builds st; basis_event := basis_event st;
     basis_event_ts := basis_event_ts st; force_is := force_is st;
     rhcos_version := rhcos_version st; logger := (lvl, msg) :: logger st |}.

(** ** The payload pass *)

(** The tail of the loop body of [_process_release]:
    [self.basis_event_ts = max(self.basis_event_ts, completion_ts + (60.0 * 5))]. *)
Definition raise_basis_event_ts (brew_build_inspector : BrewBuildImageInspector.t)
    (st : State) : State :=
  let completion_ts := BrewBuildImageInspector.completion_ts brew_build_inspector in
  set_basis_event_ts (Z.max (basis_event_ts st) (completion_ts + 60 * 5)) st.

(** One iteration of [for component_tag in release_info.references.spec.tags].
    A branch that ends in [continue] returns without [raise_basis_event_ts]. *)
Definition process_component_tag (rt : Runtime) (brew_cpu_arch pullspec : string)
    (st : State) (component_tag : ComponentTag) : result State :=
  let payload_tag_name := tag_name component_tag in
  let payload_tag_pullspec := tag_from_name component_tag in
  if bool_decide (payload_tag_name ∈ rhcos_get_container_names rt) then
    Ok (set_rhcos_by_tag
          (<[payload_tag_name :=
               <[brew_cpu_arch := payload_tag_pullspec]>
                 (default ∅ (rhcos_by_tag st !! payload_tag_name))]>
             (rhcos_by_tag st)) st)
  else
    let brew_build_inspector := inspect_pullspec rt payload_tag_pullspec in
    let package_name := BrewBuildImageInspector.get_package_name brew_build_inspector in
    let build_nvr := BrewBuildImageInspector.get_nvr brew_build_inspector in
    match component_image_builds st !! package_name with
    | Some existing =>
        let existing_nvr := BrewBuildImageInspector.get_nvr existing in
        if bool_decide (build_nvr ≠ existing_nvr) then
          let image_meta := BrewBuildImageInspector.get_image_meta brew_build_inspector in
          let '(payload_name, explicit) := ImageMetadata.get_payload_tag_info image_meta in
          if explicit then
            if bool_decide (payload_name ≠ payload_tag_name) then
              Ok (log WARNING (IgnoringPayloadTag payload_tag_name payload_name) st)
            else
              Ok (raise_basis_event_ts brew_build_inspector
                    (set_component_image_builds
                       (<[package_name := brew_build_inspector]> (component_image_builds st))
                       (log WARNING (SelectingPayloadTag payload_tag_name payload_name) st)))
          else
            Exit (DisparateNvrs existing_nvr build_nvr pullspec)
        else
          Ok (raise_basis_event_ts brew_build_inspector st)
    | None =>
        Ok (raise_basis_event_ts brew_build_inspector
              (set_component_image_builds
                 (<[package_name := brew_build_inspector]> (component_image_builds st)) st))
    end.

(** [_process_release] from the point where [oc adm release info] has
    answered.  No [await] follows that point, so the rest of the coroutine
    runs without interleaving. *)
Definition _process_release (rt : Runtime) (st : State)
    (release : string * string) : result State :=
  let '(brew_cpu_arch, pullspec) := release in
  let release_info := release_info_of rt pullspec in
  if bool_decide (references_spec_tags release_info = []) then
    Exit (NoImagestreamTags pullspec)
  else if bool_decide (machine_os_version release_info = "") then
    Exit (NoMachineOsVersion pullspec)
  else
    for_each (process_component_tag rt brew_cpu_arch pullspec)
      (set_rhcos_version (machine_os_version release_info) st)
      (references_spec_tags release_info).

(** Modelled from the spec: the build-system client's lookup
    [eventIdAtOrBefore(timestamp)], which the code reaches through
    [koji_api.getLastEvent(before=...)] and whose implementation is not part
    of the source: the most recent event (greatest id) among those whose
    time is at or before the instant, if there is one. *)
Definition getLastEvent (events : list KojiEvent) (before : Z) : option KojiEvent :=
  foldr (λ e best,
           if bool_decide (event_ts e ≤ before) then
             match best with
             | Some b => if bool_decide (event_id b < event_id e) then Some e else Some b
             | None => Some e
             end
           else best)
        None events.

(** The log lines written when the coroutines start. *)
Definition started (params : Params) (st : State) : State :=
  foldl (λ s release, log INFO (ProcessingRelease release.2) s) st (release_pullspecs params).

(** [_determine_basis_brew_event].  [asyncio.gather] starts one coroutine
    per entry of [release_pullspecs]; each logs and then waits for [oc].
    [completion_order] is the order in which those waits end: a permutation
    of [release_pullspecs] that the event loop chooses. *)
Definition _determine_basis_brew_event (rt : Runtime) (params : Params)
    (completion_order : list (string * string)) (st : State) : result State :=
  st ← for_each (_process_release rt) (started params st) completion_order;
  match getLastEvent (koji_events rt) (basis_event_ts st) with
  | None => Exit (NoLastEvent (basis_event_ts st))
  | Some e =>
      let st := set_basis_event (event_id e) st in
      let st := log INFO (EstimatedBasisEvent (basis_event st)) st in
      Ok (log INFO (DetectedPackages (dom (component_image_builds st))) st)
  end.

(** ** The image outlier pass *)

(** One iteration of [for image_meta in self.runtime.image_metas()]. *)
Definition collect_outlier (rt : Runtime) (params : Params)
    (st : State) (image_meta : ImageMetadata.t) : result State :=
  if ImageMetadata.base_only image_meta || negb (ImageMetadata.for_release image_meta) then
    Ok st
  else
    let dgk := ImageMetadata.distgit_key image_meta in
    let package_name := ImageMetadata.get_component_name image_meta in
    match image_latest_brew_build rt image_meta (basis_event st) with
    | None => Exit (NoImageFound dgk (basis_event st))
    | Some basis_event_build_dict =>
        let basis_event_build_nvr := BrewBuildImageInspector.get_nvr basis_event_build_dict in
        if negb (ImageMetadata.is_payload image_meta) then
          Ok (set_component_image_builds
                (<[package_name := basis_event_build_dict]> (component_image_builds st))
                (log INFO (NonPayloadSwept dgk basis_event_build_nvr) st))
        else
          match component_image_builds st !! package_name with
          | None =>
              let st :=
                if custom params then
                  log WARNING (UnableToFindInReleasesCustom dgk basis_event_build_nvr) st
                else
                  log ERROR (UnableToFindInReleases dgk basis_event_build_nvr) st in
              Ok (set_component_image_builds
                    (<[package_name := basis_event_build_dict]> (component_image_builds st)) st)
          | Some ref_releases_component_build =>
              let ref_nightlies_component_build_nvr :=
                BrewBuildImageInspector.get_nvr ref_releases_component_build in
              if bool_decide (basis_event_build_nvr ≠ ref_nightlies_component_build_nvr) then
                Ok (set_force_is ({[package_name]} ∪ force_is st)
                      (log INFO (ImageWillBePinned dgk basis_event_build_nvr) st))
              else
                Ok st
          end
    end.

Definition _collect_outliers (rt : Runtime) (params : Params) (st : State) : result State :=
  for_each (collect_outlier rt params) st (image_metas rt).

(** [_select_images]. *)
Definition _select_images (rt : Runtime) (params : Params)
    (completion_order : list (string * string)) (st : State) : result State :=
  st ← _determine_basis_brew_event rt params completion_order st;
  _collect_outliers rt params st.

(** ** RHCOS containers *)

(** One iteration of the inner loop [for tag in rhcos.get_container_configs]. *)
Definition rhcos_container_for_tag (arch : string)
    (rhcos_meta : gmap string (string * string))
    (st : State) (tag : RhcosContainerConfig) : result State :=
  match rhcos_meta !! build_metadata_key tag with
  | None => Exit (NoRhcosForArch (rhcos_name tag) arch)
  | Some (image, digest) =>
      match rhcos_by_tag st !! rhcos_name tag with
      | None => Exit (KeyError (rhcos_name tag))
      | Some by_arch =>
          let pullspec := image +:+ "@" +:+ digest in
          Ok (log INFO (FoundRhcosImage (rhcos_name tag) arch pullspec)
                (set_rhcos_by_tag
                   (<[rhcos_name tag := <[arch := pullspec]> by_arch]> (rhcos_by_tag st)) st))
      end
  end.

(** One iteration of [for arch in self.runtime.group_config.arches]. *)
Definition rhcos_container_for_arch (rt : Runtime) (params : Params)
    (st : State) (arch : string) : result State :=
  let primary_rhcos_tag := rhcos_get_primary_container_name rt in
  match rhcos_by_tag st !! primary_rhcos_tag with
  | None => Exit (KeyError primary_rhcos_tag)
  | Some by_arch =>
      if bool_decide (is_Some (by_arch !! arch)) then Ok st
      else if custom params then
        Ok (log INFO (RhcosIgnoredForCustom primary_rhcos_tag arch) st)
      else if bool_decide (rhcos_version st = "") then
        Exit (NoRhcosForArch primary_rhcos_tag arch)
      else
        for_each (rhcos_container_for_tag arch (rhcos_meta_json rt (rhcos_version st) arch))
          st (rhcos_get_container_configs rt)
  end.

Definition _get_rhcos_container (rt : Runtime) (params : Params) (st : State) : result State :=
  for_each (rhcos_container_for_arch rt params) st (group_arches rt).

(** ** The RPM outlier pass *)

(** Python's [if not el_ver] on an [Optional[int]]: [None] and [0] are falsy. *)
Definition truthy_el_ver (el_ver : option Z) : option Z :=
  match el_ver with
  | Some el => if bool_decide (el = 0) then None else Some el
  | None => None
  end.

Definition rpm_builds_of (st : State) (package_name : string) : gmap Z RpmBuild.t :=
  default ∅ (component_rpm_builds st !! package_name).

(** One iteration of [for ref_releases_rpm_build in ref_releases_rpm_builds]. *)
Definition select_rpm (rt : Runtime) (st : State)
    (ref_releases_rpm_build : RpmBuild.t) : result State :=
  let package_name := RpmBuild.package_name ref_releases_rpm_build in
  match package_rpm_meta rt !! package_name with
  | None => Ok st
  | Some rpm_meta =>
      let dgk := RPMMetadata.distgit_key rpm_meta in
      let rpm_build_nvr := RpmBuild.nvr ref_releases_rpm_build in
      match truthy_el_ver
              (isolate_el_version_in_release rt (RpmBuild.release ref_releases_rpm_build)) with
      | None => Exit (UnableToIsolateEl rpm_build_nvr)
      | Some el_ver =>
          let st :=
            match component_rpm_builds st !! package_name with
            | None => set_component_rpm_builds (<[package_name := ∅]> (component_rpm_builds st)) st
            | Some _ => st
            end in
          if bool_decide (is_Some (rpm_builds_of st package_name !! el_ver)) then Ok st
          else
            match rpm_latest_brew_build rt rpm_meta el_ver (basis_event st) with
            | None => Exit (NoRpmFound dgk (basis_event st))
            | Some basis_event_build_dict =>
                if bool_decide (is_Some (rpm_builds_of st package_name !! el_ver)) then Ok st
                else
                  let st :=
                    set_component_rpm_builds
                      (<[package_name :=
                           <[el_ver := ref_releases_rpm_build]> (rpm_builds_of st package_name)]>
                         (component_rpm_builds st)) st in
                  let basis_event_build_nvr := RpmBuild.nvr basis_event_build_dict in
                  let st := log INFO (RpmSelectedByScan dgk basis_event_build_nvr) st in
                  if bool_decide (basis_event_build_nvr ≠ RpmBuild.nvr ref_releases_rpm_build) then
                    Ok (set_force_is ({[package_name]} ∪ force_is st)
                          (log INFO (RpmWillBePinned dgk basis_event_build_nvr) st))
                  else
                    Ok st
            end
      end
  end.

(** The builds handed to the loop of [_select_rpms]: what Brew gives for
    the ids of the image builds, asked in the order of
    [self.component_image_builds.values()]. *)
Definition ref_releases_rpm_builds (rt : Runtime) (st : State) : list RpmBuild.t :=
  rpm_builds_in_images rt
    (BrewBuildImageInspector.get_brew_build_id <$>
       enumerate (image_builds_order rt) (component_image_builds st)).

Definition _select_rpms (rt : Runtime) (st : State) : result State :=
  let builds := ref_releases_rpm_builds rt st in
  for_each (select_rpm rt) (log INFO (QueryingRpmBuilds (length builds)) st) builds.

(** ** The override lists *)

Module ImageOverride.
Record t : Type := Build {
  distgit_key : string;
  why : string;
  (* metadata.is.nvr *)
  is_nvr : string;
}.
End ImageOverride.

Module RpmOverride.
Record t : Type := Build {
  distgit_key : string;
  why : string;
  (* metadata.is: 'el8' -> nvr, ... *)
  is_ : gmap string string;
}.
End RpmOverride.

Definition why_pinned : string :=
  "Query from assembly basis event failed to replicate referenced nightly content exactly. Pinning to replicate.".

(** The key [f'el{el_ver}']. *)
Definition el_key (el_ver : Z) : string := "el" +:+ pretty el_ver.

(** One iteration of [for package_name in self.force_is]. *)
Definition member_override (rt : Runtime) (st : State)
    (acc : list ImageOverride.t * list RpmOverride.t) (package_name : string)
    : result (list ImageOverride.t * list RpmOverride.t) :=
  let '(image_member_overrides, rpm_member_overrides) := acc in
  match component_image_builds st !! package_name with
  | Some build_inspector =>
      let dgk := ImageMetadata.distgit_key
                   (BrewBuildImageInspector.get_image_meta build_inspector) in
      Ok (image_member_overrides ++
            [ImageOverride.Build dgk why_pinned
               (BrewBuildImageInspector.get_nvr build_inspector)],
          rpm_member_overrides)
  | None =>
      match component_rpm_builds st !! package_name with
      | Some by_el =>
          match package_rpm_meta rt !! package_name with
          | None => Exit (KeyError package_name)
          | Some rpm_meta =>
              let dgk := RPMMetadata.distgit_key rpm_meta in
              Ok (image_member_overrides,
                  rpm_member_overrides ++
                    [RpmOverride.Build dgk why_pinned (kmap el_key (RpmBuild.nvr <$> by_el))])
          end
      | None => Ok acc
      end
  end.

Definition _get_member_overrides (rt : Runtime) (st : State)
    : result (list ImageOverride.t * list RpmOverride.t) :=
  for_each (member_override rt st) ([], []) (enumerate (force_is_order rt) (force_is st)).

(** ** The assembly definition *)

(** The part of the generated document that the reconciliation decides:
    [basis.brew_event], [basis.reference_releases], [rhcos] and [members]. *)
Record AssemblyDefinition : Type := {
  brew_event : Z;
  reference_releases : gmap string string;
  rhcos : gmap string (gmap string string);
  members_rpms : list RpmOverride.t;
  members_images : list ImageOverride.t;
}.

Definition _generate_assembly_definition (rt : Runtime) (params : Params) (st : State)
    : result AssemblyDefinition :=
  overrides ← _get_member_overrides rt st;
  Ok {| brew_event := basis_event st;
        reference_releases := reference_releases_by_arch params;
        rhcos := rhcos_by_tag st;
        members_rpms := overrides.2;
        members_images := overrides.1 |}.

(** [run], after [_validate_params] and [_get_release_pullspecs] have filled
    [params]; [_calculate_previous_list] only feeds the [group] block. *)
Definition run_state (rt : Runtime) (params : Params)
    (completion_order : list (string * string)) : result State :=
  st ← _select_images rt params completion_order initial_state;
  st ← _get_rhcos_container rt params st;
  _select_rpms rt st.

Definition run (rt : Runtime) (params : Params)
    (completion_order : list (string * string)) : result AssemblyDefinition :=
  st ← run_state rt params completion_order;
  _generate_assembly_definition rt params st.

(** ** The command line side of [GenAssemblyCli]

    [_validate_params], [_get_release_pullspecs], [_calculate_previous_list],
    [_get_advisories_release_jira] and the [group] block of
    [_generate_assembly_definition].  What stops them is an [exit(1)]
    through [_exit_with_error] or an exception that nothing catches; both
    are the [Raise] outcome.

    - Strings are strings of bytes; a digit is one of the ten ASCII digits.
    - The helpers of [util] and [artcommonlib], the upgrade graph and the
      releases config are fields of [Group]; they answer every question
      they are asked.
    - The lines these methods log are not kept. *)

(** The members of [AssemblyTypes] that the code names, and [STREAM] for
    the one it does not. *)
Inductive AssemblyTypes : Type := STREAM | STANDARD | CANDIDATE | CUSTOM | PREVIEW.

Global Instance AssemblyTypes_eq_dec : EqDecision AssemblyTypes.
Proof. solve_decision. Defined.

Inductive Stop : Type :=
| ExitAssemblyMustBeStream
| ExitNoReleaseSpecified
| ExitPreviousAndAutoPrevious
| ExitCustomHasNoPreviousList
| ExitPrereleaseNotAllowed
| ExitInvalidAssemblyName (gen_assembly_name : string)
| ExitNightlyMajorMinor (nightly_name : string)
| ExitReleaseMajorMinor (standard_release_name : string)
| ValueErrorAlreadyIncluded (release_name existing_pullspec : string)
| ValueErrorUnpack (standard_release_name : string)
| ValueErrorParse (version : string)
| IndexError (gen_assembly_name : string)
| KeyErrorTag (primary_rhcos_tag : string).

Inductive outcome (A : Type) : Type :=
| Return (a : A)
| Raise (e : Stop).
Arguments Return {A} a.
Arguments Raise {A} e.

Global Instance outcome_ret : MRet outcome := λ A a, Return a.
Global Instance outcome_bind : MBind outcome := λ A B f r,
  match r with
  | Return a => f a
  | Raise e => Raise e
  end.

(** A [for] loop whose body may raise. *)
Fixpoint for_all {S B} (body : S → B → outcome S) (st : S) (l : list B) : outcome S :=
  match l with
  | [] => Return st
  | x :: l' => st' ← body st x; for_all body st' l'
  end.

(** *** Strings *)

(** [s.split(sep)] for a separator of one character. *)
Fixpoint split_on (sep : ascii) (s : string) : list string :=
  match s with
  | EmptyString => [""]
  | String c s' =>
      if bool_decide (c = sep) then "" :: split_on sep s'
      else
        match split_on sep s' with
        | [] => [String c ""]
        | part :: parts => String c part :: parts
        end
  end.

(** [c in s] for one character. *)
Definition contains_char (c : ascii) (s : string) : bool :=
  bool_decide (c ∈ String.list_ascii_of_string s).

Definition is_digit (c : ascii) : bool := bool_decide (is_Some (Ascii.is_nat c)).

(** [int(s)] on a string of ASCII digits. *)
Fixpoint int_of_digits (acc : N) (s : string) : N :=
  match s with
  | EmptyString => acc
  | String c s' => int_of_digits (acc * 10 + N.of_nat (default 0%nat (Ascii.is_nat c))) s'
  end.

(** The longest prefix of a string that is made of digits, and the rest. *)
Fixpoint span_digits (s : string) : string * string :=
  match s with
  | EmptyString => ("", "")
  | String c s' =>
      if is_digit c then let '(digits, rest) := span_digits s' in (String c digits, rest)
      else ("", s)
  end.

(** The first two items of [re.split(r'(\d+)', s)]: the text before the
    first run of digits and that run; the second is missing when the string
    has no digit. *)
Fixpoint re_split_digits (s : string) : string * option string :=
  match s with
  | EmptyString => ("", None)
  | String c s' =>
      if is_digit c then ("", Some (span_digits s).1)
      else let '(before, digits) := re_split_digits s' in (String c before, digits)
  end.

(** *** Inputs *)

Module Cli.
Record t : Type := Build {
  (* self.runtime.assembly *)
  runtime_assembly : string;
  gen_assembly_name : string;
  nightlies : list string;
  standards : list string;
  custom : bool;
  (* as given on the command line *)
  pre_ga_mode : string;
  in_flight : option string;
  (* None and the empty tuple are both [] *)
  previous_list : list string;
  auto_previous : bool;
  gen_microshift : bool;
}.
End Cli.

(** [releases_config.releases[name].assembly.group]: the fields the code reads. *)
Record AssemblyGroup : Type := {
  group_advisories : gmap string Z;
  group_release_jira : string;
}.

(** The group and the helpers outside this file of the source. *)
Record Group : Type := {
  (* runtime.get_minor_version() *)
  get_minor_version : string;
  (* runtime.get_major_minor_fields() *)
  get_major_minor_fields : Z * Z;
  (* runtime.arches *)
  runtime_arches : list string;
  (* group_config.new_payload_versioning_scheme: True, or False when it is
     False or not there *)
  new_payload_versioning_scheme : bool;
  (* util.infer_assembly_type(custom, gen_assembly_name) *)
  infer_assembly_type : bool → string → AssemblyTypes;
  (* util.isolate_nightly_name_components: (major_minor, brew_cpu_arch, priv) *)
  isolate_nightly_name_components : string → string * string * bool;
  (* artcommonlib.arch_util.go_suffix_for_arch *)
  go_suffix_for_arch : string → bool → string;
  (* util.get_release_calc_previous(version, arch, ...) *)
  get_release_calc_previous : string → string → list string;
  (* runtime.get_releases_config().releases *)
  releases_config : gmap string AssemblyGroup;
}.

(** The same group with other architectures. *)
Definition with_arches (group : Group) (arches : list string) : Group :=
  {| get_minor_version := get_minor_version group;
     get_major_minor_fields := get_major_minor_fields group;
     runtime_arches := arches;
     new_payload_versioning_scheme := new_payload_versioning_scheme group;
     infer_assembly_type := infer_assembly_type group;
     isolate_nightly_name_components := isolate_nightly_name_components group;
     go_suffix_for_arch := go_suffix_for_arch group;
     get_release_calc_previous := get_release_calc_previous group;
     releases_config := releases_config group |}.

(** [self.assembly_type], set in [__init__]. *)
Definition assembly_type (group : Group) (args : Cli.t) : AssemblyTypes :=
  infer_assembly_type group (Cli.custom args) (Cli.gen_assembly_name args).

(** [self.pre_ga_mode] after [__init__]: "ECs are always prerelease". *)
Definition pre_ga_mode (group : Group) (args : Cli.t) : string :=
  if bool_decide (assembly_type group args = PREVIEW) then "prerelease"
  else Cli.pre_ga_mode args.

(** Python's truth value of an [Optional[str]]. *)
Definition truthy_str (s : option string) : bool :=
  match s with
  | Some s => bool_decide (s ≠ "")
  | None => false
  end.

(** *** [_validate_params] *)

Definition _validate_params (group : Group) (args : Cli.t) : outcome unit :=
  if bool_decide (Cli.runtime_assembly args ≠ "stream") then Raise ExitAssemblyMustBeStream
  else if bool_decide (Cli.nightlies args = [] ∧ Cli.standards args = []) then
    Raise ExitNoReleaseSpecified
  else if Cli.auto_previous args && bool_decide (Cli.previous_list args ≠ []) then
    Raise ExitPreviousAndAutoPrevious
  else if bool_decide (assembly_type group args ∈ [CUSTOM]) &&
          (Cli.auto_previous args || bool_decide (Cli.previous_list args ≠ []) ||
           truthy_str (Cli.in_flight args)) then
    Raise ExitCustomHasNoPreviousList
  else if bool_decide (pre_ga_mode group args = "prerelease") &&
          bool_decide (assembly_type group args ∉ [PREVIEW; CANDIDATE]) then
    Raise ExitPrereleaseNotAllowed
  else if bool_decide (assembly_type group args = STANDARD) &&
          new_payload_versioning_scheme group &&
          negb (contains_char "-" (Cli.gen_assembly_name args)) then
    Raise (ExitInvalidAssemblyName (Cli.gen_assembly_name args))
  else Return ().

(** *** [_get_release_pullspecs] *)

(** [self.release_pullspecs] is a dict that is only appended to: the list
    of its items in insertion order.  [d.get(key)]. *)
Fixpoint dict_get (key : string) (items : list (string * string)) : option string :=
  match items with
  | [] => None
  | (k, v) :: items' => if bool_decide (k = key) then Some v else dict_get key items'
  end.

(** [self.release_pullspecs] and [self.reference_releases_by_arch] as
    [__init__] leaves them. *)
Definition no_releases (custom : bool) : Params :=
  {| custom := custom; release_pullspecs := []; reference_releases_by_arch := ∅ |}.

(** One iteration of [for nightly_name in self.nightlies]. *)
Definition add_nightly (group : Group) (acc : Params) (nightly_name : string)
    : outcome Params :=
  let '(major_minor, brew_cpu_arch, priv) := isolate_nightly_name_components group nightly_name in
  if bool_decide (major_minor ≠ get_minor_version group) then
    Raise (ExitNightlyMajorMinor nightly_name)
  else
    let reference_releases := <[brew_cpu_arch := nightly_name]> (reference_releases_by_arch acc) in
    let rc_suffix := go_suffix_for_arch group brew_cpu_arch priv in
    let nightly_pullspec :=
      "registry.ci.openshift.org/ocp" +:+ rc_suffix +:+ "/release" +:+ rc_suffix +:+
      ":" +:+ nightly_name in
    match dict_get brew_cpu_arch (release_pullspecs acc) with
    | Some existing => Raise (ValueErrorAlreadyIncluded nightly_name existing)
    | None =>
        Return {| custom := custom acc;
                  release_pullspecs := release_pullspecs acc ++ [(brew_cpu_arch, nightly_pullspec)];
                  reference_releases_by_arch := reference_releases |}
    end.

(** One iteration of [for standard_release_name in self.standards]. *)
Definition add_standard (group : Group) (acc : Params) (standard_release_name : string)
    : outcome Params :=
  match split_on "-" standard_release_name with
  | [version; brew_cpu_arch] =>
      let major_minor := String.concat "." (take 2 (split_on "." version)) in
      if bool_decide (major_minor ≠ get_minor_version group) then
        Raise (ExitReleaseMajorMinor standard_release_name)
      else
        let standard_pullspec :=
          "quay.io/openshift-release-dev/ocp-release:" +:+ standard_release_name in
        match dict_get brew_cpu_arch (release_pullspecs acc) with
        | Some existing => Raise (ValueErrorAlreadyIncluded standard_release_name existing)
        | None =>
            Return {| custom := custom acc;
                      release_pullspecs :=
                        release_pullspecs acc ++ [(brew_cpu_arch, standard_pullspec)];
                      reference_releases_by_arch := reference_releases_by_arch acc |}
        end
  | _ => Raise (ValueErrorUnpack standard_release_name)
  end.

Definition _get_release_pullspecs (group : Group) (args : Cli.t) : outcome Params :=
  acc ← for_all (add_nightly group) (no_releases (Cli.custom args)) (Cli.nightlies args);
  for_all (add_standard group) acc (Cli.standards args).

(** What the statements say about [_get_release_pullspecs]. *)

Definition nightly_arch (group : Group) (nightly_name : string) : string :=
  (isolate_nightly_name_components group nightly_name).1.2.

Definition nightly_pullspec (group : Group) (nightly_name : string) : string :=
  let '(_, brew_cpu_arch, priv) := isolate_nightly_name_components group nightly_name in
  let rc_suffix := go_suffix_for_arch group brew_cpu_arch priv in
  "registry.ci.openshift.org/ocp" +:+ rc_suffix +:+ "/release" +:+ rc_suffix +:+
  ":" +:+ nightly_name.

(** The text after the dash of a standard release name. *)
Definition standard_arch (standard_release_name : string) : string :=
  default "" (split_on "-" standard_release_name !! 1%nat).

Definition standard_pullspec (standard_release_name : string) : string :=
  "quay.io/openshift-release-dev/ocp-release:" +:+ standard_release_name.

(** How often a character occurs in a string. *)
Definition count_char (c : ascii) (s : string) : nat :=
  length (filter (λ c', c' = c) (String.list_ascii_of_string s)).

(** *** [_calculate_previous_list] *)

Section PreviousList.
(** [semver.VersionInfo]: its values up to [==], [VersionInfo.parse] with
    [None] where it raises [ValueError], [<] and [str]. *)
Context {VersionInfo : Type} `{EqDecision VersionInfo}.
Variable parse : string → option VersionInfo.
Variable version_lt : relation VersionInfo.
Context `{∀ x y, Decision (version_lt x y)}.
Variable str : VersionInfo → string.

Definition parse_version (version : string) : outcome VersionInfo :=
  match parse version with
  | Some v => Return v
  | None => Raise (ValueErrorParse version)
  end.

(** [map(VersionInfo.parse, versions)], consumed from left to right. *)
Fixpoint parse_versions (versions : list string) : outcome (list VersionInfo) :=
  match versions with
  | [] => Return []
  | version :: versions' =>
      v ← parse_version version;
      vs ← parse_versions versions';
      Return (v :: vs)
  end.

(** [sorted] compares with [<] and leaves [x] before [y] unless [y < x]. *)
Definition precedes (x y : VersionInfo) : Prop := ¬ version_lt y x.

Global Instance precedes_dec : RelDecision precedes.
Proof. intros x y. unfold precedes. apply _. Defined.

(** The version that [--auto-previous] asks the upgrade graph about. *)
Definition auto_previous_version (group : Group) (args : Cli.t) : string :=
  if bool_decide (assembly_type group args = CANDIDATE) ||
     bool_decide (assembly_type group args = PREVIEW) then
    if new_payload_versioning_scheme group then
      get_minor_version group +:+ ".0-0." +:+ Cli.gen_assembly_name args
    else
      get_minor_version group +:+ ".0-" +:+ Cli.gen_assembly_name args
  else Cli.gen_assembly_name args.

(** The set is the list of what was added to it; [sorted] of a set does not
    look at repetitions or at the order of insertion. *)
Definition _calculate_previous_list (group : Group) (args : Cli.t)
    : outcome (list VersionInfo) :=
  final_previous_list ←
    (if truthy_str (Cli.in_flight args) then
       v ← parse_version (default "" (Cli.in_flight args)); Return [v]
     else Return []);
  final_previous_list ←
    (if bool_decide (Cli.previous_list args ≠ []) then
       vs ← parse_versions (Cli.previous_list args); Return (final_previous_list ++ vs)
     else if Cli.auto_previous args then
       let version := auto_previous_version group args in
       for_all (λ final_previous_list arch,
                  vs ← parse_versions (get_release_calc_previous group version arch);
                  Return (final_previous_list ++ vs))
         final_previous_list (runtime_arches group)
     else Return final_previous_list);
  Return (merge_sort precedes (remove_dups final_previous_list)).

(** What the statements say about [_calculate_previous_list]. *)

(** What the upgrade graph gives for the architectures, parsed. *)
Definition calculated (group : Group) (args : Cli.t) (arches : list string)
    : list VersionInfo :=
  arches ≫= λ arch,
    omap parse (get_release_calc_previous group (auto_previous_version group args) arch).

(** The versions that go into the set. *)
Definition previous_versions (group : Group) (args : Cli.t) : list VersionInfo :=
  (if truthy_str (Cli.in_flight args)
   then omap parse [default "" (Cli.in_flight args)] else []) ++
  (if bool_decide (Cli.previous_list args ≠ []) then omap parse (Cli.previous_list args)
   else if Cli.auto_previous args then calculated group args (runtime_arches group)
   else []).

(** *** The [group] block of [_generate_assembly_definition] *)

(** The keys ['arches!'], ['advisories'], ['release_jira'],
    ['operator_index_mode'] and ['upgrades'] of [group_info], each [None]
    when the key is not set. *)
Record GroupInfo : Type := {
  arches_override : option (list string);
  advisories : option (gmap string Z);
  release_jira : option string;
  operator_index_mode : option string;
  upgrades : option string;
}.

(** The placeholders [_get_advisories_release_jira] starts from. *)
Definition placeholder_advisories (group : Group) (args : Cli.t) : gmap string Z :=
  let advisories : gmap string Z :=
    {[ "image" := -1; "rpm" := -1; "extras" := -1; "metadata" := -1 ]} in
  let advisories :=
    if bool_decide (pre_ga_mode group args = "prerelease")
    then <["prerelease" := -1]> advisories else advisories in
  let '(major, minor) := get_major_minor_fields group in
  if (bool_decide (4 < major) || bool_decide (major = 4 ∧ 14 ≤ minor)) &&
     Cli.gen_microshift args
  then <["microshift" := -1]> advisories else advisories.

(** [sorted([a for a in releases_config.releases if a.startswith("ec.")])]. *)
Definition ec_assemblies (group : Group) : list string :=
  merge_sort String.le
    (filter (λ a, String.prefix "ec." a = true) (map_to_list (releases_config group)).*1).

Definition _get_advisories_release_jira (group : Group) (args : Cli.t)
    : outcome (gmap string Z * string) :=
  let advisories := placeholder_advisories group args in
  let release_jira := "ART-0" in
  if bool_decide (assembly_type group args ∉ [PREVIEW; CANDIDATE]) then
    match releases_config group !! Cli.gen_assembly_name args with
    | Some existing => Return (group_advisories existing, group_release_jira existing)
    | None => Return (advisories, release_jira)
    end
  else
    let split := re_split_digits (Cli.gen_assembly_name args) in
    match split.2 with
    | None => Raise (IndexError (Cli.gen_assembly_name args))
    | Some digits =>
        let current_v := Z.of_N (int_of_digits 0 digits) in
        if bool_decide (assembly_type group args = PREVIEW) && bool_decide (current_v = 0) then
          Return (advisories, release_jira)
        else
          let previous_assembly :=
            if bool_decide (current_v = 0) && bool_decide (assembly_type group args = CANDIDATE)
            then last (ec_assemblies group)
            else
              let previous_assembly := split.1 +:+ pretty (current_v - 1) in
              if bool_decide (is_Some (releases_config group !! previous_assembly))
              then Some previous_assembly else None in
          match previous_assembly ≫= λ a, releases_config group !! a with
          | None => Return (advisories, release_jira)
          | Some previous_group =>
              let previous_advisories := delete "prerelease" (group_advisories previous_group) in
              Return (previous_advisories ∪ advisories, group_release_jira previous_group)
          end
    end.

Definition group_info (rt : Runtime) (group : Group) (args : Cli.t) (st : State)
    (final_previous_list : list VersionInfo) : outcome GroupInfo :=
  arches ←
    (if Cli.custom args then
       match rhcos_by_tag st !! rhcos_get_primary_container_name rt with
       | Some by_arch => Return (Some (enumerate (rhcos_arches_order rt) by_arch))
       | None => Raise (KeyErrorTag (rhcos_get_primary_container_name rt))
       end
     else Return None);
  '(advisories, release_jira, operator_index_mode) ←
    (if bool_decide (assembly_type group args ≠ CUSTOM) then
       '(advisories, release_jira) ← _get_advisories_release_jira group args;
       Return (Some advisories, Some release_jira,
               if bool_decide (pre_ga_mode group args = "prerelease")
               then Some "pre-release" else None)
     else Return (None, None, None));
  Return {| arches_override := arches;
            advisories := advisories;
            release_jira := release_jira;
            operator_index_mode := operator_index_mode;
            upgrades :=
              if bool_decide (final_previous_list ≠ [])
              then Some (String.concat "," (str <$> final_previous_list)) else None |}.

End PreviousList.

(** ** [ocp_cd_tools/common.py]

    The helpers act on the world outside the program: they run commands,
    sleep and change directory.  The model keeps what they do as a list of
    actions in the order in which they happen, and takes what the world
    answers, the value of a call or the exit code of a command, from an
    oracle that is asked with the number of the attempt. *)

Module Common.

(** *** [retry] *)

Inductive RetryAction : Type :=
| Called (c : nat)
| Waited (c : nat).

Global Instance RetryAction_eq_dec : EqDecision RetryAction.
Proof. solve_decision. Defined.

Section Retry.
Context {R : Type}.
(** The value of the call of [f] in iteration [c], [check_f], and whether a
    [wait_f] is given. *)
Variable f : nat → R.
Variable check_f : R → bool.
Variable wait_f : bool.

(** The iterations of [for c in xrange(n)] from [c] on, [fuel] of them;
    [None] is [RetryException]. *)
Fixpoint retry_from (n : Z) (c fuel : nat) (so_far : list RetryAction)
    : option R * list RetryAction :=
  match fuel with
  | O => (None, so_far)
  | S fuel' =>
      let ret := f c in
      let so_far := so_far ++ [Called c] in
      if check_f ret then (Some ret, so_far)
      else
        let so_far :=
          if bool_decide (Z.of_nat c < n - 1) && wait_f then so_far ++ [Waited c] else so_far in
        retry_from n (S c) fuel' so_far
  end.

Definition retry (n : Z) : option R * list RetryAction :=
  retry_from n 0 (Z.to_nat n) [].

(** The actions of [k] failed attempts that are each followed by a wait. *)
Definition failed_attempts (k : nat) : list RetryAction :=
  seq 0 k ≫= λ c, if wait_f then [Called c; Waited c] else [Called c].

End Retry.

(** *** [assert_rc0] and [assert_exec] *)

Inductive ExecAction : Type :=
| LogRetrying
| Sleep (seconds : Z)
| ExecCmd (t : nat).

Global Instance ExecAction_eq_dec : EqDecision ExecAction.
Proof. solve_decision. Defined.

(** [runtime.remove_tmp_working_dir] and what has been done so far. *)
Record World : Type := {
  remove_tmp_working_dir : bool;
  actions : list ExecAction;
}.

Inductive Raised : Type := IOError.

(** [rc is not 0] on the exit code of a process. *)
Definition assert_rc0 (w : World) (rc : Z) : option Raised * World :=
  if bool_decide (rc ≠ 0) then
    (Some IOError, {| remove_tmp_working_dir := false; actions := actions w |})
  else (None, w).

Section AssertExec.
(** The exit code of the run of the command in iteration [t]. *)
Variable exec_cmd : nat → Z.

Definition act (a : ExecAction) (w : World) : World :=
  {| remove_tmp_working_dir := remove_tmp_working_dir w; actions := actions w ++ [a] |}.

(** The iterations of [for t in range(0, retries)] from [t] on; the result
    is [rc] when the loop is left. *)
Fixpoint assert_exec_from (t fuel : nat) (rc : Z) (w : World) : Z * World :=
  match fuel with
  | O => (rc, w)
  | S fuel' =>
      let w := if bool_decide (0 < t)%nat then act (Sleep 60) (act LogRetrying w) else w in
      let rc := exec_cmd t in
      let w := act (ExecCmd t) w in
      if bool_decide (rc = 0) then (rc, w)
      else assert_exec_from (S t) fuel' rc w
  end.

Definition assert_exec (retries : Z) (w : World) : option Raised * World :=
  let '(rc, w) := assert_exec_from 0 (Z.to_nat retries) 0 w in
  assert_rc0 w rc.

(** The actions of [k] runs that are each followed by the wait for the next. *)
Definition failed_runs (k : nat) : list ExecAction :=
  seq 0 k ≫= λ t, [ExecCmd t; LogRetrying; Sleep 60].

End AssertExec.

(** *** [exec_cmd], [gather_exec] and [recursive_overwrite] *)

(** The argument list of a command given as one string: [cmd.split(' ')]. *)
Definition cmd_list (cmd : string) : list string := split_on " " cmd.

(** [exclude] after the loop over [ignore], taken in the order of the list. *)
Fixpoint exclude_of (ignore : list string) : string :=
  match ignore with
  | [] => ""
  | i :: ignore' => " --exclude=" +:+ String "034" i +:+ String "034" " " +:+ exclude_of ignore'
  end.

(** The argument list [recursive_overwrite] hands to [assert_exec]. *)
Definition recursive_overwrite_cmd (src dest : string) (ignore : list string) : list string :=
  split_on " " ("rsync -av " +:+ exclude_of ignore +:+ " " +:+ src +:+ "/ " +:+ dest +:+ "/").

(** *** [Dir] *)

(** The working directory of the process and the [cwd] attribute of the
    thread-local storage, [None] while it is not set. *)
Record Cwd : Type := {
  os_cwd : string;
  tl_cwd : option string;
}.

(** [Dir.getcwd]: the directory in effect, and the storage once it is set. *)
Definition getcwd (w : Cwd) : string * Cwd :=
  match tl_cwd w with
  | Some dir => (dir, w)
  | None => (os_cwd w, {| os_cwd := os_cwd w; tl_cwd := Some (os_cwd w) |})
  end.

(** [__enter__]: the result is [self.previousDir]; [os.chdir] succeeds. *)
Definition enter (dir : string) (w : Cwd) : string * Cwd :=
  let '(previousDir, w) := getcwd w in
  (previousDir, {| os_cwd := dir; tl_cwd := Some dir |}).

Definition exit (previousDir : string) (w : Cwd) : Cwd :=
  {| os_cwd := previousDir; tl_cwd := Some previousDir |}.

(** [with Dir(dir): body]. *)
Definition with_Dir (dir : string) (body : Cwd → Cwd) (w : Cwd) : Cwd :=
  let '(previousDir, w) := enter dir w in
  exit previousDir (body w).

(** [with Dir(d1): with Dir(d2): ... body]. *)
Fixpoint with_Dirs (dirs : list string) (body : Cwd → Cwd) : Cwd → Cwd :=
  match dirs with
  | [] => body
  | dir :: dirs' => with_Dir dir (with_Dirs dirs' body)
  end.

End Common.

(** ** Notions used in the statements *)

(** The builds on record in [component_image_builds]. *)
Definition resolved_builds (st : State) : list BrewBuildImageInspector.t :=
  (map_to_list (component_image_builds st)).*2.

(** The latest completion time among some builds, if there is any build. *)
Definition max_completion_ts (builds : list BrewBuildImageInspector.t) : option Z :=
  match builds with
  | [] => None
  | b :: builds' =>
      Some (foldr (λ b' m, Z.max (BrewBuildImageInspector.completion_ts b') m)
              (BrewBuildImageInspector.completion_ts b) builds')
  end.

(** Every build on record is covered by the basis event instant. *)
Definition covers_resolved_builds (st : State) : Prop :=
  ∀ package_name b,
    component_image_builds st !! package_name = Some b →
    BrewBuildImageInspector.completion_ts b + 60 * 5 ≤ basis_event_ts st.

(** The document a run produces, if it produces one. *)
Definition definition_of {A} (r : result A) : option A :=
  match r with
  | Ok a => Some a
  | Exit _ => None
  end.

(** A component that the image pass looks at: neither base-only nor
    excluded from the release. *)
Definition release_eligible (image_meta : ImageMetadata.t) : bool :=
  negb (ImageMetadata.base_only image_meta || negb (ImageMetadata.for_release image_meta)).

(** [image_meta] is a payload component named [package_name] whose build at
    [event] has another NVR than the build [observed] holds for it. *)
Definition image_mismatch (rt : Runtime) (observed : gmap string BrewBuildImageInspector.t)
    (event : Z) (image_meta : ImageMetadata.t) (package_name : string) : Prop :=
  ImageMetadata.get_component_name image_meta = package_name ∧
  release_eligible image_meta = true ∧
  ImageMetadata.is_payload image_meta = true ∧
  ∃ basis_event_build ref_releases_build,
    image_latest_brew_build rt image_meta event = Some basis_event_build ∧
    observed !! package_name = Some ref_releases_build ∧
    BrewBuildImageInspector.get_nvr basis_event_build ≠
      BrewBuildImageInspector.get_nvr ref_releases_build.

(** The build retained for a package and an el target. *)
Definition retained_rpm (st : State) (package_name : string) (el_ver : Z) : option RpmBuild.t :=
  component_rpm_builds st !! package_name ≫= λ by_el, by_el !! el_ver.

(** The (package, el target) pair under which the RPM pass files a build:
    none for a package outside the roster. *)
Definition rpm_target (rt : Runtime) (b : RpmBuild.t) : option (string * Z) :=
  match package_rpm_meta rt !! RpmBuild.package_name b with
  | None => None
  | Some _ =>
      match truthy_el_ver (isolate_el_version_in_release rt (RpmBuild.release b)) with
      | None => None
      | Some el_ver => Some (RpmBuild.package_name b, el_ver)
      end
  end.

(** The first build of a list filed under a pair. *)
Fixpoint first_observed (rt : Runtime) (builds : list RpmBuild.t)
    (package_name : string) (el_ver : Z) : option RpmBuild.t :=
  match builds with
  | [] => None
  | b :: builds' =>
      if bool_decide (rpm_target rt b = Some (package_name, el_ver)) then Some b
      else first_observed rt builds' package_name el_ver
  end.

(** The build the basis event selects for a pair differs from [b]. *)
Definition rpm_mismatch (rt : Runtime) (event : Z)
    (package_name : string) (el_ver : Z) (b : RpmBuild.t) : Prop :=
  ∃ rpm_meta basis_event_build,
    package_rpm_meta rt !! package_name = Some rpm_meta ∧
    rpm_latest_brew_build rt rpm_meta el_ver event = Some basis_event_build ∧
    RpmBuild.nvr basis_event_build ≠ RpmBuild.nvr b.

(** Every retained pair has a build before the basis event. *)
Definition retained_have_basis (rt : Runtime) (event : Z) (st : State) : Prop :=
  ∀ package_name el_ver kept rpm_meta,
    retained_rpm st package_name el_ver = Some kept →
    package_rpm_meta rt !! package_name = Some rpm_meta →
    is_Some (rpm_latest_brew_build rt rpm_meta el_ver event).

(** Equality of the records is decidable. *)
Global Instance ImageMetadata_eq_dec : EqDecision ImageMetadata.t.
Proof. solve_decision. Defined.

Global Instance BrewBuildImageInspector_eq_dec : EqDecision BrewBuildImageInspector.t.
Proof. solve_decision. Defined.

Global Instance RPMMetadata_eq_dec : EqDecision RPMMetadata.t.
Proof. solve_decision. Defined.

Global Instance RpmBuild_eq_dec : EqDecision RpmBuild.t.
Proof. solve_decision. Defined.

Global Instance ComponentTag_eq_dec : EqDecision ComponentTag.
Proof. solve_decision. Defined.

(** The image override a pinned package gives rise to. *)
Definition image_override_of (st : State) (package_name : string) : option ImageOverride.t :=
  build_inspector ← component_image_builds st !! package_name;
  Some (ImageOverride.Build
          (ImageMetadata.distgit_key (BrewBuildImageInspector.get_image_meta build_inspector))
          why_pinned (BrewBuildImageInspector.get_nvr build_inspector)).

(** The RPM override a pinned package gives rise to: none when the name is
    also the name of an image build. *)
Definition rpm_override_of (rt : Runtime) (st : State) (package_name : string)
    : option RpmOverride.t :=
  match component_image_builds st !! package_name with
  | Some _ => None
  | None =>
      by_el ← component_rpm_builds st !! package_name;
      rpm_meta ← package_rpm_meta rt !! package_name;
      Some (RpmOverride.Build (RPMMetadata.distgit_key rpm_meta) why_pinned
              (kmap el_key (RpmBuild.nvr <$> by_el)))
  end.

(** A tag of one of the payloads of the run. *)
Definition payload_tag (rt : Runtime) (params : Params) (component_tag : ComponentTag) : Prop :=
  ∃ release, release ∈ release_pullspecs params ∧
             component_tag ∈ references_spec_tags (release_info_of rt release.2).

(** The payloads agree: two component tags of the same package, in the same
    payload or in two, resolve to the same build. *)
Definition payloads_agree (rt : Runtime) (params : Params) : Prop :=
  ∀ tag1 tag2,
    payload_tag rt params tag1 → payload_tag rt params tag2 →
    tag_name tag1 ∉ rhcos_get_container_names rt →
    tag_name tag2 ∉ rhcos_get_container_names rt →
    BrewBuildImageInspector.get_package_name (inspect_pullspec rt (tag_from_name tag1)) =
      BrewBuildImageInspector.get_package_name (inspect_pullspec rt (tag_from_name tag2)) →
    inspect_pullspec rt (tag_from_name tag1) = inspect_pullspec rt (tag_from_name tag2).


(** What the loop body of [_process_release] does to the state when no tag
    conflicts with the build on record. *)
Definition absorb_tag (rt : Runtime) (brew_cpu_arch : string)
    (st : State) (component_tag : ComponentTag) : State :=
  if bool_decide (tag_name component_tag ∈ rhcos_get_container_names rt) then
    set_rhcos_by_tag
      (<[tag_name component_tag :=
           <[brew_cpu_arch := tag_from_name component_tag]>
             (default ∅ (rhcos_by_tag st !! tag_name component_tag))]>
         (rhcos_by_tag st)) st
  else
    let brew_build_inspector := inspect_pullspec rt (tag_from_name component_tag) in
    raise_basis_event_ts brew_build_inspector
      (set_component_image_builds
         (<[BrewBuildImageInspector.get_package_name brew_build_inspector :=
              brew_build_inspector]> (component_image_builds st)) st).


(** A payload that [_process_release] accepts. *)
Definition well_formed_release (rt : Runtime) (release : string * string) : Prop :=
  references_spec_tags (release_info_of rt release.2) ≠ [] ∧
  machine_os_version (release_info_of rt release.2) ≠ "".

(** The builds on record are those the payloads resolve their packages to. *)
Definition records_agree (rt : Runtime) (params : Params) (st : State) : Prop :=
  ∀ component_tag b,
    payload_tag rt params component_tag →
    tag_name component_tag ∉ rhcos_get_container_names rt →
    component_image_builds st
      !! BrewBuildImageInspector.get_package_name
           (inspect_pullspec rt (tag_from_name component_tag)) = Some b →
    b = inspect_pullspec rt (tag_from_name component_tag).


(** All component tags of the payloads of a run. *)
Definition all_payload_tags (rt : Runtime) (params : Params) : list ComponentTag :=
  release ← release_pullspecs params;
  references_spec_tags (release_info_of rt release.2).

Global Instance well_formed_release_dec rt release : Decision (well_formed_release rt release).
Proof. unfold well_formed_release. apply _. Defined.

(** ** Further notions used in the statements *)

(** [self.rhcos_by_tag[tag][arch]], when both keys are there. *)
Definition rhcos_pullspec (st : State) (tag arch : string) : option string :=
  rhcos_by_tag st !! tag ≫= λ by_arch, by_arch !! arch.

(** The pullspec of the last tag of a payload that carries a name. *)
Fixpoint last_tag_from (name : string) (tags : list ComponentTag) : option string :=
  match tags with
  | [] => None
  | component_tag :: tags' =>
      match last_tag_from name tags' with
      | Some pullspec => Some pullspec
      | None =>
          if bool_decide (tag_name component_tag = name)
          then Some (tag_from_name component_tag) else None
      end
  end.

(** A component tag of one of the payloads [releases] that is not an RHCOS
    tag and resolves to a build of [package_name]. *)
Definition component_tag_of (rt : Runtime) (releases : list (string * string))
    (package_name : string) (component_tag : ComponentTag) : Prop :=
  ∃ release,
    release ∈ releases ∧
    component_tag ∈ references_spec_tags (release_info_of rt release.2) ∧
    (tag_name component_tag ∉ rhcos_get_container_names rt) ∧
    BrewBuildImageInspector.get_package_name
      (inspect_pullspec rt (tag_from_name component_tag)) = package_name.

(** The basis event instant is 0 or the margin after the completion of a
    build on record. *)
Definition basis_event_ts_is_tight (st : State) : Prop :=
  basis_event_ts st = 0 ∨
  ∃ package_name b,
    component_image_builds st !! package_name = Some b ∧
    basis_event_ts st = BrewBuildImageInspector.completion_ts b + 60 * 5.

(** ** Scenarios

    Concrete collaborators on which the passes can be run. *)

Module Scenario.

(** A table with a default, for collaborators that are functions. *)
Fixpoint table {A} (dflt : A) (rows : list (string * A)) (key : string) : A :=
  match rows with
  | [] => dflt
  | (k, v) :: rows' => if bool_decide (k = key) then v else table dflt rows' key
  end.

Definition meta (dgk component : string) (is_payload : bool)
    (payload_tag_info : string * bool) : ImageMetadata.t :=
  ImageMetadata.Build dgk component false true is_payload payload_tag_info.

Definition foo_meta : ImageMetadata.t := meta "foo" "foo-container" true ("foo", false).
Definition bar_meta : ImageMetadata.t := meta "bar" "bar-container" true ("bar", false).
Definition baz_meta : ImageMetadata.t := meta "baz" "baz-container" true ("baz", false).
Definition qux_meta : ImageMetadata.t := meta "qux" "qux-container" false ("qux", false).
Definition base_meta : ImageMetadata.t :=
  ImageMetadata.Build "base" "base-container" true true false ("base", false).

Definition foo_1 : BrewBuildImageInspector.t :=
  BrewBuildImageInspector.Build "foo-container" "foo-container-v4.16.0-1" 101 1000 foo_meta.
Definition bar_1 : BrewBuildImageInspector.t :=
  BrewBuildImageInspector.Build "bar-container" "bar-container-v4.16.0-1" 201 2000 bar_meta.
Definition bar_2 : BrewBuildImageInspector.t :=
  BrewBuildImageInspector.Build "bar-container" "bar-container-v4.16.0-2" 202 2500 bar_meta.
Definition baz_1 : BrewBuildImageInspector.t :=
  BrewBuildImageInspector.Build "baz-container" "baz-container-v4.16.0-1" 301 1500 baz_meta.
Definition qux_1 : BrewBuildImageInspector.t :=
  BrewBuildImageInspector.Build "qux-container" "qux-container-v4.16.0-1" 401 1200 qux_meta.

Definition openshift_meta : RPMMetadata.t := RPMMetadata.Build "openshift" "openshift".

Definition openshift_el8 : RpmBuild.t :=
  RpmBuild.Build "openshift" "openshift-4.16.0-1.el8" "1.el8".
Definition openshift_el8_later : RpmBuild.t :=
  RpmBuild.Build "openshift" "openshift-4.16.0-2.el8" "2.el8".
Definition openshift_el9 : RpmBuild.t :=
  RpmBuild.Build "openshift" "openshift-4.16.0-1.el9" "1.el9".
Definition openshift_el9_later : RpmBuild.t :=
  RpmBuild.Build "openshift" "openshift-4.16.0-3.el9" "3.el9".
Definition openshift_noel : RpmBuild.t :=
  RpmBuild.Build "openshift" "openshift-4.16.0-1" "1".
Definition glibc_el9 : RpmBuild.t :=
  RpmBuild.Build "glibc" "glibc-2.34-100.el9" "100.el9".

(** A stand-in for the release parser on the release strings used here. *)
Definition isolate_el (release : string) : option Z :=
  table None [("1.el8", Some 8); ("2.el8", Some 8); ("1.el9", Some 9);
              ("3.el9", Some 9); ("100.el9", Some 9); ("1.el0", Some 0)] release.

Definition tag (name from_name : string) : ComponentTag :=
  {| tag_name := name; tag_from_name := from_name |}.

Definition no_release : ReleaseInfo :=
  {| references_spec_tags := []; machine_os_version := "" |}.

Definition events : list KojiEvent :=
  [ {| event_id := 10; event_ts := 900 |};
    {| event_id := 20; event_ts := 2300 |};
    {| event_id := 30; event_ts := 2700 |};
    {| event_id := 40; event_ts := 9000 |} ].

(** Two architectures that agree on every component.  The collaborators
    that the outlier passes question are left open: the latest image build
    per distgit key, the latest el9 build of the [openshift] RPM, and the
    RPM builds found in the images. *)
Definition two_arches_with
    (image_builds : list (string * option BrewBuildImageInspector.t))
    (el9_build : option RpmBuild.t) (embedded : list RpmBuild.t) : Runtime :=
  {| release_info_of :=
       table no_release
         [("release:x86_64",
           {| references_spec_tags :=
                [tag "machine-os-content" "rhcos@x86_64";
                 tag "foo" "foo@x86_64"; tag "bar" "bar@x86_64"];
              machine_os_version := "416.94.1" |});
          ("release:aarch64",
           {| references_spec_tags :=
                [tag "machine-os-content" "rhcos@aarch64";
                 tag "bar" "bar@aarch64"; tag "foo" "foo@aarch64"];
              machine_os_version := "416.94.1" |})];
     inspect_pullspec :=
       table foo_1 [("foo@x86_64", foo_1); ("foo@aarch64", foo_1);
                    ("bar@x86_64", bar_1); ("bar@aarch64", bar_1)];
     rhcos_get_container_names := ["machine-os-content"];
     rhcos_get_primary_container_name := "machine-os-content";
     rhcos_get_container_configs :=
       [{| rhcos_name := "machine-os-content"; build_metadata_key := "oscontainer" |}];
     group_arches := ["x86_64"; "aarch64"; "s390x"];
     rhcos_meta_json := λ version arch,
       {[ "oscontainer" := ("quay.io/rhcos/" +:+ arch, "sha256:" +:+ version) ]};
     koji_events := events;
     image_metas := [base_meta; foo_meta; bar_meta; baz_meta; qux_meta];
     image_latest_brew_build := λ image_meta event,
       table None image_builds (ImageMetadata.distgit_key image_meta);
     package_rpm_meta := {[ "openshift" := openshift_meta ]};
     rpm_latest_brew_build := λ rpm_meta el_target event,
       if bool_decide (el_target = 8) then Some openshift_el8 else el9_build;
     isolate_el_version_in_release := isolate_el;
     rpm_builds_in_images := λ build_ids, embedded;
     image_builds_order := canonical _;
     force_is_order := canonical _;
     rhcos_arches_order := canonical _ |}.

Definition latest_images : list (string * option BrewBuildImageInspector.t) :=
  [("foo", Some foo_1); ("bar", Some bar_2); ("baz", Some baz_1); ("qux", Some qux_1)].

(** [bar] is found at a later build by the basis event, [baz] is not in the
    payloads, [qux] is not for the payload, and the [openshift] RPM is found
    at a later build for el9. *)
Definition two_arches : Runtime :=
  two_arches_with latest_images (Some openshift_el9_later)
    [glibc_el9; openshift_el8; openshift_el9; openshift_el8_later].

(** The same, but [qux] has no build before the basis event. *)
Definition two_arches_no_qux : Runtime :=
  two_arches_with [("foo", Some foo_1); ("bar", Some bar_2); ("baz", Some baz_1)]
    (Some openshift_el9_later) [glibc_el9; openshift_el8; openshift_el9].

(** The same, but the [openshift] RPM has no el9 build before the basis event. *)
Definition two_arches_no_el9 : Runtime :=
  two_arches_with latest_images None [glibc_el9; openshift_el8; openshift_el9].

(** The same, but one embedded [openshift] build carries no el version. *)
Definition two_arches_noel : Runtime :=
  two_arches_with latest_images (Some openshift_el9_later)
    [glibc_el9; openshift_el8; openshift_noel; openshift_el9].

Definition two_arches_params (custom : bool) : Params :=
  {| custom := custom;
     release_pullspecs := [("x86_64", "release:x86_64"); ("aarch64", "release:aarch64")];
     reference_releases_by_arch :=
       {[ "x86_64" := "4.16.0-0.nightly-2024-05-01-000000";
          "aarch64" := "4.16.0-0.nightly-arm64-2024-05-01-000000" ]} |}.

(** Two architectures that carry different builds of [foo] under the tag
    [foo]; [info] is what the image config of [foo] says about its payload
    tag. *)
Definition foo_a (info : string * bool) : BrewBuildImageInspector.t :=
  BrewBuildImageInspector.Build "foo-container" "foo-container-v4.16.0-1" 101 1000
    (meta "foo" "foo-container" true info).
Definition foo_b (info : string * bool) : BrewBuildImageInspector.t :=
  BrewBuildImageInspector.Build "foo-container" "foo-container-v4.16.0-2" 102 5000
    (meta "foo" "foo-container" true info).

Definition disparate (info : string * bool) : Runtime :=
  {| release_info_of :=
       table no_release
         [("release:x86_64",
           {| references_spec_tags :=
                [tag "machine-os-content" "rhcos@x86_64"; tag "foo" "foo@x86_64"];
              machine_os_version := "416.94.1" |});
          ("release:aarch64",
           {| references_spec_tags :=
                [tag "machine-os-content" "rhcos@aarch64"; tag "foo" "foo@aarch64"];
              machine_os_version := "416.94.1" |})];
     inspect_pullspec :=
       table (foo_a info) [("foo@x86_64", foo_a info); ("foo@aarch64", foo_b info)];
     rhcos_get_container_names := ["machine-os-content"];
     rhcos_get_primary_container_name := "machine-os-content";
     rhcos_get_container_configs :=
       [{| rhcos_name := "machine-os-content"; build_metadata_key := "oscontainer" |}];
     group_arches := ["x86_64"; "aarch64"];
     rhcos_meta_json := λ version arch, ∅;
     koji_events := events;
     image_metas := [meta "foo" "foo-container" true info];
     image_latest_brew_build := λ image_meta event, Some (foo_a info);
     package_rpm_meta := ∅;
     rpm_latest_brew_build := λ rpm_meta el_target event, None;
     isolate_el_version_in_release := isolate_el;
     rpm_builds_in_images := λ build_ids, [];
     image_builds_order := canonical _;
     force_is_order := canonical _;
     rhcos_arches_order := canonical _ |}.

Definition x86_64_first : list (string * string) :=
  [("x86_64", "release:x86_64"); ("aarch64", "release:aarch64")].
Definition aarch64_first : list (string * string) :=
  [("aarch64", "release:aarch64"); ("x86_64", "release:x86_64")].

(** The state a pass ends in, for use as the start of the next one. *)
Definition state_of (r : result State) : State :=
  match r with
  | Ok st => st
  | Exit _ => initial_state
  end.

(** [disparate info] once the x86_64 payload has been processed. *)
Definition after_x86_64 (info : string * bool) : State :=
  state_of (_process_release (disparate info) initial_state ("x86_64", "release:x86_64")).

(** The state of a run on [two_arches_with ...] before each pass. *)
Definition fetched (rt : Runtime) (custom : bool) : State :=
  state_of (_determine_basis_brew_event rt (two_arches_params custom)
              x86_64_first initial_state).
Definition completed (rt : Runtime) (custom : bool) : State :=
  state_of (_select_images rt (two_arches_params custom) x86_64_first initial_state
              ≫= _get_rhcos_container rt (two_arches_params custom)).

End Scenario.
(** ** Scenarios for the command line side *)

Module CliScenario.

(** A stand-in for [util.infer_assembly_type]. *)
Definition assembly_type_of (custom : bool) (assembly_name : string) : AssemblyTypes :=
  if custom then CUSTOM
  else if String.prefix "ec." assembly_name then PREVIEW
  else if String.prefix "rc." assembly_name then CANDIDATE
  else STANDARD.

Definition nightly_x86_64 : string := "4.16.0-0.nightly-2024-05-01-000000".
Definition nightly_arm64 : string := "4.16.0-0.nightly-arm64-2024-05-01-000000".

(** The 4.16 group, open in the assemblies that are already defined. *)
Definition group_with (releases : gmap string AssemblyGroup) : Group :=
  {| get_minor_version := "4.16";
     get_major_minor_fields := (4, 16);
     runtime_arches := ["x86_64"; "aarch64"];
     new_payload_versioning_scheme := false;
     infer_assembly_type := assembly_type_of;
     isolate_nightly_name_components :=
       Scenario.table ("", "", false)
         [(nightly_x86_64, ("4.16", "x86_64", false));
          (nightly_arm64, ("4.16", "aarch64", false))];
     go_suffix_for_arch := λ arch priv,
       Scenario.table "" [("aarch64", "-arm64")] arch +:+ (if priv then "-priv" else "");
     get_release_calc_previous := λ version arch,
       Scenario.table [] [("x86_64", ["4.15.3"; "4.15.4"]);
                          ("aarch64", ["4.15.4"; "4.15.2"])] arch;
     releases_config := releases |}.

Definition defined (advisories : list (string * Z)) (release_jira : string) : AssemblyGroup :=
  {| group_advisories := list_to_map advisories; group_release_jira := release_jira |}.

(** [rc.2] is defined, with a prerelease advisory, and so are the previews
    up to [ec.10]. *)
Definition releases : gmap string AssemblyGroup :=
  list_to_map
    [("rc.2", defined [("image", 1002); ("rpm", 1003); ("prerelease", 1004)] "ART-1002");
     ("ec.9", defined [("image", 909); ("prerelease", 910)] "ART-909");
     ("ec.10", defined [("image", 1010)] "ART-1010");
     ("4.16.1", defined [("image", 1601)] "ART-1601")].

Definition group : Group := group_with releases.

(** The command line for an assembly built from the two nightlies. *)
Definition args (gen_assembly_name : string) (custom : bool) (pre_ga_mode : string)
    (in_flight : option string) (auto_previous : bool) : Cli.t :=
  {| Cli.runtime_assembly := "stream";
     Cli.gen_assembly_name := gen_assembly_name;
     Cli.nightlies := [nightly_x86_64; nightly_arm64];
     Cli.standards := [];
     Cli.custom := custom;
     Cli.pre_ga_mode := pre_ga_mode;
     Cli.in_flight := in_flight;
     Cli.previous_list := [];
     Cli.auto_previous := auto_previous;
     Cli.gen_microshift := true |}.

(** The command line for an assembly built from standard releases. *)
Definition from_standards (standards : list string) : Cli.t :=
  {| Cli.runtime_assembly := "stream";
     Cli.gen_assembly_name := "4.16.2";
     Cli.nightlies := [nightly_x86_64];
     Cli.standards := standards;
     Cli.custom := false;
     Cli.pre_ga_mode := "";
     Cli.in_flight := None;
     Cli.previous_list := [];
     Cli.auto_previous := false;
     Cli.gen_microshift := false |}.

(** A stand-in for [VersionInfo] on the versions used here: the number
    [10000 * major + 100 * minor + patch]. *)
Definition parse (version : string) : option N :=
  Scenario.table None
    [("4.15.2", Some 41502%N); ("4.15.3", Some 41503%N); ("4.15.4", Some 41504%N);
     ("4.16.0", Some 41600%N)] version.

Definition str (v : N) : string :=
  pretty (v `div` 10000)%N +:+ "." +:+ pretty ((v `div` 100) `mod` 100)%N +:+ "." +:+
  pretty (v `mod` 100)%N.

End CliScenario.


(** * Properties *)

(** ** The [result] monad and [for_each] *)

Lemma bind_Ok {A B} (f : A → result B) (r : result A) (b : B) :
  r ≫= f = Ok b ↔ ∃ a, r = Ok a ∧ f a = Ok b.
Proof.
  destruct r as [a|e]; simpl.
  - split; [eauto | by intros (? & [= ->] & ?)].
  - split; [done | by intros (? & ? & ?)].
Qed.

Section for_each.
Context {S B : Type} (body : S → B → result S).

Lemma for_each_cons (st : S) (x : B) (l : list B) :
  for_each body st (x :: l) = body st x ≫= λ st', for_each body st' l.
Proof. done. Qed.

Lemma for_each_app (st : S) (l1 l2 : list B) :
  for_each body st (l1 ++ l2) = for_each body st l1 ≫= λ st', for_each body st' l2.
Proof.
  revert st. induction l1 as [|x l1 IH]; intros st; simpl; [done|].
  destruct (body st x) as [st'|e]; simpl; [apply IH | done].
Qed.

(** A property kept by every iteration is kept by the loop. *)
Lemma for_each_invariant (P : S → Prop) (l : list B) (st st' : S) :
  (∀ s x s', x ∈ l → P s → body s x = Ok s' → P s') →
  P st → for_each body st l = Ok st' → P st'.
Proof.
  revert st. induction l as [|x l IH]; intros st Hstep HP Hrun; simpl in Hrun.
  - by injection Hrun as <-.
  - apply bind_Ok in Hrun as (s1 & Hx & Hrest).
    apply (IH s1); [| |done].
    + intros s y s' Hy. apply Hstep. by right.
    + eapply Hstep; [by left | done | done].
Qed.

(** An element on which the body ends the run, in every state the loop can
    be in, ends the loop. *)
Lemma for_each_exit (P : S → Prop) (l : list B) (x : B) (st : S) :
  x ∈ l →
  (∀ s y s', y ∈ l → P s → body s y = Ok s' → P s') →
  (∀ s, P s → is_Exit (body s x)) →
  P st → is_Exit (for_each body st l).
Proof.
  revert st. induction l as [|y l IH]; intros st Hx Hstep Hexit HP.
  - by apply elem_of_nil in Hx.
  - simpl. destruct (body st y) as [s1|e] eqn:Hy; simpl; [|done].
    apply elem_of_cons in Hx as [->|Hx].
    + specialize (Hexit st HP). by rewrite Hy in Hexit.
    + apply IH; [done | | done |].
      * intros s z s' Hz. apply Hstep. by right.
      * eapply Hstep; [by left | done | done].
Qed.

(** The loop stops at the first iteration that ends the run. *)
Lemma for_each_exit_at (l1 l2 : list B) (x : B) (st s : S) (e : Fatal) :
  for_each body st l1 = Ok s → body s x = Exit e →
  for_each body st (l1 ++ x :: l2) = Exit e.
Proof. intros H1 Hx. rewrite for_each_app, H1. simpl. by rewrite Hx. Qed.
End for_each.

(** ** Field updates *)


(** ** The event lookup *)


Lemma getLastEvent_is_Some (events : list KojiEvent) (before : Z) (e : KojiEvent) :
  e ∈ events → event_ts e ≤ before → is_Some (getLastEvent events before).
Proof.
  induction events as [|x events IH]; intros He Hle; [by apply elem_of_nil in He|].
  simpl. apply elem_of_cons in He as [<-|He].
  - rewrite bool_decide_eq_true_2 by done.
    destruct (getLastEvent events before); [case_bool_decide|]; eauto.
  - specialize (IH He Hle). case_bool_decide; [|done].
    destruct (getLastEvent events before); [case_bool_decide|]; eauto.
Qed.

(** ** The payload pass and the basis event *)

Lemma max_completion_ts_elem (builds : list BrewBuildImageInspector.t) (m : Z) :
  max_completion_ts builds = Some m →
  ∃ b, b ∈ builds ∧ BrewBuildImageInspector.completion_ts b = m.
Proof.
  destruct builds as [|b builds]; simpl; [done|]. intros [= <-].
  induction builds as [|b' builds IH]; simpl.
  - exists b. split; [by left | done].
  - destruct IH as (x & Hx & Hm).
    destruct (Z.max_spec (BrewBuildImageInspector.completion_ts b')
                (foldr (λ b'0 m, Z.max (BrewBuildImageInspector.completion_ts b'0) m)
                   (BrewBuildImageInspector.completion_ts b) builds)) as [[_ ->]|[_ ->]].
    + exists x. split; [|done].
      apply elem_of_cons in Hx as [->|Hx]; [by left | by do 2 right].
    + exists b'. split; [by right; left | done].
Qed.

Lemma max_completion_ts_upper (builds : list BrewBuildImageInspector.t) (m : Z) :
  max_completion_ts builds = Some m →
  ∀ b, b ∈ builds → BrewBuildImageInspector.completion_ts b ≤ m.
Proof.
  destruct builds as [|b0 builds]; simpl; [done|]. intros [= <-] b Hb.
  induction builds as [|b' builds IH]; simpl.
  - apply elem_of_cons in Hb as [->|Hb]; [done | by apply elem_of_nil in Hb].
  - apply elem_of_cons in Hb as [->|[->|Hb]%elem_of_cons].
    + etrans; [apply IH; by left | apply Z.le_max_r].
    + apply Z.le_max_l.
    + etrans; [apply IH; by right | apply Z.le_max_r].
Qed.

Lemma elem_of_resolved_builds (st : State) (b : BrewBuildImageInspector.t) :
  b ∈ resolved_builds st ↔ ∃ package_name, component_image_builds st !! package_name = Some b.
Proof.
  unfold resolved_builds. rewrite list_elem_of_fmap. split.
  - intros ([k v] & -> & H%elem_of_map_to_list). by exists k.
  - intros (k & H). exists (k, b). split; [done|]. by apply elem_of_map_to_list.
Qed.

(** The three ways an iteration of the payload loop can go on a tag that
    is not an RHCOS tag. *)
Ltac tag_cases H :=
  unfold process_component_tag in H;
  repeat (case_match || case_bool_decide);
  simplify_eq; simpl in *.


Lemma process_component_tag_covers rt brew_cpu_arch pullspec st component_tag st' :
  covers_resolved_builds st →
  process_component_tag rt brew_cpu_arch pullspec st component_tag = Ok st' →
  covers_resolved_builds st'.
Proof.
  unfold covers_resolved_builds. intros Hcov H package_name b.
  tag_cases H; try (by apply Hcov).
  - intros [[<- <-]|[_ Hb]]%lookup_insert_Some; [lia|].
    specialize (Hcov _ _ Hb). lia.
  - intros Hb. specialize (Hcov _ _ Hb). lia.
  - intros [[<- <-]|[_ Hb]]%lookup_insert_Some; [lia|].
    specialize (Hcov _ _ Hb). lia.
Qed.


(** The payload pass leaves the reconciliation fields alone. *)
Lemma process_component_tag_frame rt brew_cpu_arch pullspec st component_tag st' :
  process_component_tag rt brew_cpu_arch pullspec st component_tag = Ok st' →
  force_is st' = force_is st ∧ component_rpm_builds st' = component_rpm_builds st ∧
  basis_event st' = basis_event st ∧ rhcos_version st' = rhcos_version st.
Proof. intros H. by tag_cases H. Qed.

Lemma _process_release_Ok rt st release st' :
  _process_release rt st release = Ok st' ↔
  references_spec_tags (release_info_of rt release.2) ≠ [] ∧
  machine_os_version (release_info_of rt release.2) ≠ "" ∧
  for_each (process_component_tag rt release.1 release.2)
    (set_rhcos_version (machine_os_version (release_info_of rt release.2)) st)
    (references_spec_tags (release_info_of rt release.2)) = Ok st'.
Proof.
  destruct release as [brew_cpu_arch pullspec]. unfold _process_release. simpl.
  repeat case_bool_decide; split; try done; try (by intros (? & ? & ?)).
Qed.


Lemma _process_release_covers rt st release st' :
  covers_resolved_builds st → _process_release rt st release = Ok st' →
  covers_resolved_builds st'.
Proof.
  intros Hcov H. apply _process_release_Ok in H as (_ & _ & H).
  apply (for_each_invariant _ covers_resolved_builds) in H; [done| |done].
  intros s x s' _. apply process_component_tag_covers.
Qed.

Lemma _process_release_frame rt st release st' :
  _process_release rt st release = Ok st' →
  force_is st' = force_is st ∧ component_rpm_builds st' = component_rpm_builds st ∧
  basis_event st' = basis_event st.
Proof.
  intros H. apply _process_release_Ok in H as (_ & _ & H).
  apply (for_each_invariant _ (λ s, force_is s = force_is st ∧
           component_rpm_builds s = component_rpm_builds st ∧
           basis_event s = basis_event st)) in H; [done| |done].
  intros s x s' _ (? & ? & ?) (? & ? & ? & _)%process_component_tag_frame.
  repeat split; congruence.
Qed.


Lemma releases_covers rt st releases st' :
  covers_resolved_builds st →
  for_each (_process_release rt) st releases = Ok st' →
  covers_resolved_builds st'.
Proof.
  intros Hcov. apply (for_each_invariant _ covers_resolved_builds); [|done].
  intros s x s' _. apply _process_release_covers.
Qed.

Lemma releases_frame rt st releases st' :
  for_each (_process_release rt) st releases = Ok st' →
  force_is st' = force_is st ∧ component_rpm_builds st' = component_rpm_builds st ∧
  basis_event st' = basis_event st.
Proof.
  apply (for_each_invariant _ (λ s, force_is s = force_is st ∧
           component_rpm_builds s = component_rpm_builds st ∧
           basis_event s = basis_event st)); [|done].
  intros s x s' _ (? & ? & ?) Hx. apply _process_release_frame in Hx as (? & ? & ?).
  repeat split; congruence.
Qed.

Lemma started_fields params st :
  rhcos_by_tag (started params st) = rhcos_by_tag st ∧
  component_image_builds (started params st) = component_image_builds st ∧
  component_rpm_builds (started params st) = component_rpm_builds st ∧
  basis_event (started params st) = basis_event st ∧
  basis_event_ts (started params st) = basis_event_ts st ∧
  force_is (started params st) = force_is st ∧
  rhcos_version (started params st) = rhcos_version st.
Proof.
  unfold started. revert st.
  induction (release_pullspecs params) as [|r l IH]; intros st; simpl; [done|].
  destruct (IH (log INFO (ProcessingRelease r.2) st)) as (-> & -> & -> & -> & -> & -> & ->).
  done.
Qed.

(** What [_determine_basis_brew_event] returns, step by step. *)
Lemma _determine_basis_brew_event_Ok rt params completion_order st st' :
  _determine_basis_brew_event rt params completion_order st = Ok st' ↔
  ∃ fetched e,
    for_each (_process_release rt) (started params st) completion_order = Ok fetched ∧
    getLastEvent (koji_events rt) (basis_event_ts fetched) = Some e ∧
    st' = log INFO (DetectedPackages (dom (component_image_builds fetched)))
            (log INFO (EstimatedBasisEvent (event_id e)) (set_basis_event (event_id e) fetched)).
Proof.
  unfold _determine_basis_brew_event.
  rewrite bind_Ok. split.
  - intros (fetched & Hf & H). exists fetched.
    destruct (getLastEvent _ _) as [e|]; [|done]. exists e.
    injection H as <-. done.
  - intros (fetched & e & Hf & He & ->). exists fetched. split; [done|].
    by rewrite He.
Qed.

(** ** The image outlier pass *)

Ltac outlier_cases H :=
  unfold collect_outlier in H;
  repeat (case_match || case_bool_decide);
  simplify_eq; simpl in *.

Lemma collect_outlier_frame rt params st image_meta st' :
  collect_outlier rt params st image_meta = Ok st' →
  basis_event st' = basis_event st ∧ basis_event_ts st' = basis_event_ts st ∧
  component_rpm_builds st' = component_rpm_builds st ∧
  rhcos_by_tag st' = rhcos_by_tag st ∧ rhcos_version st' = rhcos_version st.
Proof. intros H. by outlier_cases H. Qed.

Lemma collect_outlier_builds_ne rt params st image_meta st' package_name :
  collect_outlier rt params st image_meta = Ok st' →
  package_name ≠ ImageMetadata.get_component_name image_meta →
  component_image_builds st' !! package_name = component_image_builds st !! package_name.
Proof. intros H Hne. outlier_cases H; by rewrite ?lookup_insert_ne. Qed.

(** An iteration pins the component of its [image_meta], and only on a
    mismatch with the build on record. *)
Lemma collect_outlier_force_is rt params st image_meta st' package_name :
  collect_outlier rt params st image_meta = Ok st' →
  package_name ∈ force_is st' ↔
    package_name ∈ force_is st ∨
    image_mismatch rt (component_image_builds st) (basis_event st) image_meta package_name.
Proof.
  intros H. unfold image_mismatch, release_eligible, collect_outlier in *.
  destruct (ImageMetadata.base_only image_meta) eqn:Hb,
    (ImageMetadata.for_release image_meta) eqn:Hf,
    (ImageMetadata.is_payload image_meta) eqn:Hp; simpl in *;
    repeat (case_match || case_bool_decide); simplify_eq; simpl.
  all: try (split; [by left|];
            intros [?|(? & ? & ? & ? & ? & ? & ? & ?)]; [done|]; simplify_eq; done).
  rewrite elem_of_union, elem_of_singleton. split.
  - intros [->|?]; [right|by left]. repeat split; eauto.
  - intros [?|(<- & _)]; [by right | by left].
Qed.

Lemma _collect_outliers_frame rt params (metas : list ImageMetadata.t) st st' :
  for_each (collect_outlier rt params) st metas = Ok st' →
  basis_event st' = basis_event st ∧ basis_event_ts st' = basis_event_ts st ∧
  component_rpm_builds st' = component_rpm_builds st ∧
  rhcos_by_tag st' = rhcos_by_tag st ∧ rhcos_version st' = rhcos_version st.
Proof.
  apply (for_each_invariant _ (λ s,
    basis_event s = basis_event st ∧ basis_event_ts s = basis_event_ts st ∧
    component_rpm_builds s = component_rpm_builds st ∧
    rhcos_by_tag s = rhcos_by_tag st ∧ rhcos_version s = rhcos_version st)); [|done].
  intros s x s' _ (? & ? & ? & ? & ?) (? & ? & ? & ? & ?)%collect_outlier_frame.
  repeat split; congruence.
Qed.

Lemma _collect_outliers_builds_ne rt params (metas : list ImageMetadata.t) st st' package_name :
  for_each (collect_outlier rt params) st metas = Ok st' →
  package_name ∉ ImageMetadata.get_component_name <$> metas →
  component_image_builds st' !! package_name = component_image_builds st !! package_name.
Proof.
  intros H Hnotin.
  apply (for_each_invariant _ (λ s,
    component_image_builds s !! package_name = component_image_builds st !! package_name))
    in H; [done| |done].
  intros s x s' Hx Hs Hstep. rewrite <- Hs.
  eapply collect_outlier_builds_ne; [done|].
  intros ->. apply Hnotin. apply list_elem_of_fmap. by exists x.
Qed.

(** Over a list of components with distinct names, a package is pinned by
    the pass exactly when one of the components of that name mismatches the
    build that was on record before the pass. *)
Lemma _collect_outliers_force_is rt params (metas : list ImageMetadata.t) st st' package_name :
  NoDup (ImageMetadata.get_component_name <$> metas) →
  for_each (collect_outlier rt params) st metas = Ok st' →
  package_name ∈ force_is st' ↔
    package_name ∈ force_is st ∨
    ∃ image_meta, image_meta ∈ metas ∧
      image_mismatch rt (component_image_builds st) (basis_event st) image_meta package_name.
Proof.
  revert st. induction metas as [|m metas IH]; intros st Hnodup Hrun; simpl in *.
  - injection Hrun as <-. split; [by left|]. intros [?|(? & []%elem_of_nil & _)]; done.
  - apply NoDup_cons in Hnodup as [Hm Hnodup].
    apply bind_Ok in Hrun as (s1 & Hstep & Hrest).
    rewrite (IH s1 Hnodup Hrest).
    rewrite (collect_outlier_force_is _ _ _ _ _ _ Hstep).
    destruct (collect_outlier_frame _ _ _ _ _ Hstep) as (Hev & _).
    split.
    + intros [[?|Hmis]|(m' & Hm' & Hmis)]; [by left | right; exists m; split; [by left|done] |].
      right. exists m'. split; [by right|].
      destruct Hmis as (Hname & ? & ? & b1 & b2 & ? & Hobs & ?).
      repeat split; try done. exists b1, b2. rewrite <- Hev. split; [done|]. split; [|done].
      rewrite <- Hobs. symmetry. eapply collect_outlier_builds_ne; [done|].
      intros ->. apply Hm. rewrite <- Hname. apply list_elem_of_fmap. by exists m'.
    + intros [?|(m' & [->|Hm']%elem_of_cons & Hmis)]; [by left; left | by left; right |].
      right. exists m'. split; [done|].
      destruct Hmis as (Hname & ? & ? & b1 & b2 & ? & Hobs & ?).
      repeat split; try done. exists b1, b2. rewrite Hev. split; [done|]. split; [|done].
      rewrite <- Hobs. eapply collect_outlier_builds_ne; [done|].
      intros ->. apply Hm. rewrite <- Hname. apply list_elem_of_fmap. by exists m'.
Qed.

(** A release-eligible component without a build before the basis event
    ends the pass. *)
Lemma _collect_outliers_exit rt params (metas : list ImageMetadata.t) st image_meta :
  image_meta ∈ metas →
  release_eligible image_meta = true →
  image_latest_brew_build rt image_meta (basis_event st) = None →
  is_Exit (for_each (collect_outlier rt params) st metas).
Proof.
  intros Hin Hel Hnone.
  apply (for_each_exit _ (λ s, basis_event s = basis_event st) metas image_meta); [done| | |done].
  - intros s y s' _ Hs (? & _)%collect_outlier_frame. congruence.
  - intros s Hs. unfold collect_outlier. unfold release_eligible in Hel.
    apply negb_true_iff in Hel. rewrite Hel, Hs, Hnone. done.
Qed.

(** ** The RPM outlier pass *)

Lemma rpm_builds_of_lookup st package_name el_ver :
  rpm_builds_of st package_name !! el_ver = retained_rpm st package_name el_ver.
Proof.
  unfold rpm_builds_of, retained_rpm.
  destruct (component_rpm_builds st !! package_name); simpl; [done | apply lookup_empty].
Qed.

Lemma retained_rpm_insert st package_name by_el package_name' el_ver :
  retained_rpm
    (set_component_rpm_builds (<[package_name := by_el]> (component_rpm_builds st)) st)
    package_name' el_ver =
  if decide (package_name = package_name') then by_el !! el_ver
  else retained_rpm st package_name' el_ver.
Proof.
  unfold retained_rpm. simpl. case_decide as Heq.
  - subst. by rewrite lookup_insert_eq.
  - by rewrite lookup_insert_ne.
Qed.

(** The state after the bootstrap of the per-package dict. *)
Lemma retained_rpm_bootstrap st package_name package_name' el_ver :
  retained_rpm
    match component_rpm_builds st !! package_name with
    | None => set_component_rpm_builds (<[package_name := ∅]> (component_rpm_builds st)) st
    | Some _ => st
    end package_name' el_ver = retained_rpm st package_name' el_ver.
Proof.
  destruct (component_rpm_builds st !! package_name) eqn:H; [done|].
  rewrite retained_rpm_insert. case_decide; [|done]. subst.
  unfold retained_rpm. rewrite H. simpl. apply lookup_empty.
Qed.

Lemma select_rpm_frame rt st b st' :
  select_rpm rt st b = Ok st' →
  component_image_builds st' = component_image_builds st ∧
  basis_event st' = basis_event st ∧ basis_event_ts st' = basis_event_ts st ∧
  rhcos_by_tag st' = rhcos_by_tag st.
Proof.
  unfold select_rpm. intros H.
  repeat (case_match || case_bool_decide); by simplify_eq.
Qed.

(** A build outside the roster leaves the state as it is. *)
Lemma select_rpm_outside rt st b :
  package_rpm_meta rt !! RpmBuild.package_name b = None → select_rpm rt st b = Ok st.
Proof. intros H. unfold select_rpm. by rewrite H. Qed.

(** A roster build without a usable el version ends the pass. *)
Lemma select_rpm_unparsed rt st b rpm_meta :
  package_rpm_meta rt !! RpmBuild.package_name b = Some rpm_meta →
  truthy_el_ver (isolate_el_version_in_release rt (RpmBuild.release b)) = None →
  select_rpm rt st b = Exit (UnableToIsolateEl (RpmBuild.nvr b)).
Proof. intros H1 H2. unfold select_rpm. by rewrite H1, H2. Qed.

(** A build whose pair is already filled is skipped: nothing changes. *)
Lemma select_rpm_duplicate rt st b package_name el_ver kept :
  rpm_target rt b = Some (package_name, el_ver) →
  retained_rpm st package_name el_ver = Some kept →
  select_rpm rt st b = Ok st.
Proof.
  unfold rpm_target, select_rpm. intros Htarget Hkept.
  destruct (package_rpm_meta rt !! RpmBuild.package_name b) as [rpm_meta|]; [|done].
  destruct (truthy_el_ver _) as [el|]; [|done]. injection Htarget as <- <-.
  assert (is_Some (component_rpm_builds st !! RpmBuild.package_name b)) as [by_el Hby].
  { unfold retained_rpm in Hkept. by destruct (component_rpm_builds st !! _). }
  rewrite Hby. rewrite rpm_builds_of_lookup, Hkept.
  by rewrite bool_decide_eq_true_2.
Qed.

(** A build whose pair is free and has no build before the basis event
    ends the pass. *)
Lemma select_rpm_absent rt st b package_name el_ver rpm_meta :
  rpm_target rt b = Some (package_name, el_ver) →
  retained_rpm st package_name el_ver = None →
  package_rpm_meta rt !! package_name = Some rpm_meta →
  rpm_latest_brew_build rt rpm_meta el_ver (basis_event st) = None →
  select_rpm rt st b = Exit (NoRpmFound (RPMMetadata.distgit_key rpm_meta) (basis_event st)).
Proof.
  unfold rpm_target, select_rpm. intros Htarget Hfree Hmeta Hnone.
  destruct (package_rpm_meta rt !! RpmBuild.package_name b) as [rpm_meta'|] eqn:Hm; [|done].
  destruct (truthy_el_ver _) as [el|]; [|done]. injection Htarget as <- <-.
  rewrite Hm in Hmeta. injection Hmeta as ->.
  rewrite <- (retained_rpm_bootstrap st (RpmBuild.package_name b)) in Hfree.
  rewrite rpm_builds_of_lookup, Hfree.
  rewrite bool_decide_eq_false_2 by (by intros [? ?]).
  assert (∀ s, basis_event
            match component_rpm_builds s !! RpmBuild.package_name b with
            | None => set_component_rpm_builds
                        (<[RpmBuild.package_name b := ∅]> (component_rpm_builds s)) s
            | Some _ => s
            end = basis_event s) as Hev.
  { intros s. by destruct (component_rpm_builds s !! _). }
  by rewrite Hev, Hnone.
Qed.

(** What an iteration does to the retained builds. *)
Lemma select_rpm_retained rt st b st' package_name el_ver :
  select_rpm rt st b = Ok st' →
  retained_rpm st' package_name el_ver =
    match retained_rpm st package_name el_ver with
    | Some kept => Some kept
    | None => if bool_decide (rpm_target rt b = Some (package_name, el_ver)) then Some b else None
    end.
Proof.
  unfold select_rpm, rpm_target.
  destruct (package_rpm_meta rt !! RpmBuild.package_name b) as [rpm_meta|] eqn:Hm.
  2: { intros [= <-]. rewrite bool_decide_eq_false_2 by done.
       by destruct (retained_rpm st package_name el_ver). }
  destruct (truthy_el_ver _) as [el|]; [|done].
  set (st1 := match component_rpm_builds st !! RpmBuild.package_name b with
              | None => _ | Some _ => st end).
  assert (∀ p e, retained_rpm st1 p e = retained_rpm st p e) as Hst1.
  { intros p e. apply retained_rpm_bootstrap. }
  rewrite rpm_builds_of_lookup.
  destruct (retained_rpm st1 (RpmBuild.package_name b) el) as [kept|] eqn:Hkept.
  - rewrite bool_decide_eq_true_2 by done. intros [= <-]. rewrite Hst1.
    destruct (retained_rpm st package_name el_ver) eqn:Hr; [done|].
    rewrite bool_decide_eq_false_2; [done|]. intros [= <- <-]. rewrite Hst1 in Hkept. congruence.
  - rewrite bool_decide_eq_false_2 by (by intros [? ?]).
    destruct (rpm_latest_brew_build _ _ _ _) as [basis|]; [|done].
    rewrite <- Hst1.
    assert (retained_rpm
              (set_component_rpm_builds
                 (<[RpmBuild.package_name b :=
                      <[el := b]> (rpm_builds_of st1 (RpmBuild.package_name b))]>
                    (component_rpm_builds st1)) st1) package_name el_ver =
            match retained_rpm st1 package_name el_ver with
            | Some kept => Some kept
            | None =>
                if bool_decide (Some (RpmBuild.package_name b, el) = Some (package_name, el_ver))
                then Some b else None
            end) as Hins.
    { rewrite retained_rpm_insert. case_decide as Hp.
      - subst package_name. destruct (decide (el = el_ver)) as [->|Hne].
        + rewrite lookup_insert_eq, Hkept. by rewrite bool_decide_eq_true_2.
        + rewrite lookup_insert_ne by done. rewrite rpm_builds_of_lookup.
          destruct (retained_rpm st1 _ el_ver); [done|].
          rewrite bool_decide_eq_false_2; [done | congruence].
      - destruct (retained_rpm st1 package_name el_ver); [done|].
        rewrite bool_decide_eq_false_2; [done | congruence]. }
    destruct (bool_decide (RpmBuild.nvr basis ≠ RpmBuild.nvr b)); intros [= <-]; exact Hins.
Qed.

(** An iteration pins the package of a build that it retains and that the
    basis event does not select. *)
Lemma select_rpm_force_is rt st b st' package_name :
  select_rpm rt st b = Ok st' →
  package_name ∈ force_is st' ↔
    package_name ∈ force_is st ∨
    ∃ el_ver, rpm_target rt b = Some (package_name, el_ver) ∧
              retained_rpm st package_name el_ver = None ∧
              rpm_mismatch rt (basis_event st) package_name el_ver b.
Proof.
  unfold select_rpm, rpm_target, rpm_mismatch.
  destruct (package_rpm_meta rt !! RpmBuild.package_name b) as [rpm_meta|] eqn:Hm.
  2: { intros [= <-]. split; [by left|]. by intros [?|(? & ? & _)]. }
  destruct (truthy_el_ver _) as [el|]; [|done].
  set (st1 := match component_rpm_builds st !! RpmBuild.package_name b with
              | None => _ | Some _ => st end).
  assert (∀ p e, retained_rpm st1 p e = retained_rpm st p e) as Hst1.
  { intros p e. apply retained_rpm_bootstrap. }
  assert (force_is st1 = force_is st ∧ basis_event st1 = basis_event st) as [Hf1 He1].
  { subst st1. by destruct (component_rpm_builds st !! _). }
  rewrite rpm_builds_of_lookup, Hst1.
  destruct (retained_rpm st (RpmBuild.package_name b) el) as [kept|] eqn:Hkept.
  - rewrite bool_decide_eq_true_2 by done. intros [= <-]. rewrite Hf1.
    split; [by left|]. intros [?|(e & [= <- <-] & Hfree & _)]; [done | congruence].
  - rewrite bool_decide_eq_false_2 by (by intros [? ?]). rewrite He1.
    destruct (rpm_latest_brew_build _ _ _ _) as [basis|] eqn:Hq; [|done].
    case_bool_decide as Hnvr; intros [= <-]; simpl; rewrite Hf1.
    + rewrite elem_of_union, elem_of_singleton. split.
      * intros [->|?]; [right | by left]. exists el. split; [done|]. split; [done|].
        by exists rpm_meta, basis.
      * intros [?|(e & [= <- <-] & _)]; [by right | by left].
    + split; [by left|]. intros [?|(e & [= <- <-] & _ & m & bs & Hm' & Hq' & Hne)]; [done|].
      by simplify_eq.
Qed.

Lemma select_rpms_frame rt (builds : list RpmBuild.t) st st' :
  for_each (select_rpm rt) st builds = Ok st' →
  component_image_builds st' = component_image_builds st ∧
  basis_event st' = basis_event st ∧ basis_event_ts st' = basis_event_ts st ∧
  rhcos_by_tag st' = rhcos_by_tag st.
Proof.
  apply (for_each_invariant _ (λ s,
    component_image_builds s = component_image_builds st ∧
    basis_event s = basis_event st ∧ basis_event_ts s = basis_event_ts st ∧
    rhcos_by_tag s = rhcos_by_tag st)); [|done].
  intros s x s' _ (? & ? & ? & ?) (? & ? & ? & ?)%select_rpm_frame.
  repeat split; congruence.
Qed.

(** After the loop a pair holds what it held before, or else the first
    build of the list that is filed under it. *)
Lemma select_rpms_retained rt (builds : list RpmBuild.t) st st' package_name el_ver :
  for_each (select_rpm rt) st builds = Ok st' →
  retained_rpm st' package_name el_ver =
    match retained_rpm st package_name el_ver with
    | Some kept => Some kept
    | None => first_observed rt builds package_name el_ver
    end.
Proof.
  revert st. induction builds as [|b builds IH]; intros st Hrun; simpl in *.
  - injection Hrun as <-. by destruct (retained_rpm st package_name el_ver).
  - apply bind_Ok in Hrun as (s1 & Hstep & Hrest).
    rewrite (IH s1 Hrest), (select_rpm_retained _ _ _ _ package_name el_ver Hstep).
    destruct (retained_rpm st package_name el_ver); [done|].
    by case_bool_decide.
Qed.

Lemma select_rpms_force_is rt (builds : list RpmBuild.t) st st' package_name :
  for_each (select_rpm rt) st builds = Ok st' →
  package_name ∈ force_is st' ↔
    package_name ∈ force_is st ∨
    ∃ el_ver b, retained_rpm st package_name el_ver = None ∧
                retained_rpm st' package_name el_ver = Some b ∧
                rpm_mismatch rt (basis_event st) package_name el_ver b.
Proof.
  revert st. induction builds as [|b builds IH]; intros st Hrun; simpl in *.
  - injection Hrun as <-. split; [by left|].
    intros [?|(e & x & Hnone & Hsome & _)]; [done | congruence].
  - apply bind_Ok in Hrun as (s1 & Hstep & Hrest).
    rewrite (IH s1 Hrest), (select_rpm_force_is _ _ _ _ package_name Hstep).
    destruct (select_rpm_frame _ _ _ _ Hstep) as (_ & Hev & _).
    pose proof (λ e, select_rpm_retained _ _ _ _ package_name e Hstep) as Hs1.
    pose proof (λ e, select_rpms_retained _ _ _ _ package_name e Hrest) as Hst'.
    split.
    + intros [[?|(e & Htarget & Hfree & Hmis)]|(e & x & Hfree & Hkept & Hmis)].
      * by left.
      * right. exists e, b. split; [done|]. split; [|done].
        rewrite Hst', Hs1, Hfree. by rewrite bool_decide_eq_true_2.
      * right. exists e, x. rewrite <- Hev. split; [|done].
        rewrite Hs1 in Hfree. by destruct (retained_rpm st package_name e).
    + intros [?|(e & x & Hfree & Hkept & Hmis)]; [by left; left|].
      destruct (retained_rpm s1 package_name e) as [y|] eqn:Hy.
      * left. right. exists e. rewrite Hs1, Hfree in Hy.
        case_bool_decide as Htarget; [|done]. injection Hy as <-.
        split; [done|]. split; [done|].
        rewrite Hst', Hs1, Hfree in Hkept. rewrite bool_decide_eq_true_2 in Hkept by done.
        by injection Hkept as <-.
      * right. exists e, x. by rewrite Hev.
Qed.

(** The pass only retains builds of roster packages. *)
Lemma select_rpms_roster rt (builds : list RpmBuild.t) st st' :
  for_each (select_rpm rt) st builds = Ok st' →
  dom (component_rpm_builds st) ⊆ dom (package_rpm_meta rt) →
  dom (component_rpm_builds st') ⊆ dom (package_rpm_meta rt).
Proof.
  intros H Hdom. revert H.
  apply (for_each_invariant _ (λ s, dom (component_rpm_builds s) ⊆ dom (package_rpm_meta rt)));
    [|done].
  intros s b s' _ Hs. unfold select_rpm.
  destruct (package_rpm_meta rt !! RpmBuild.package_name b) as [rpm_meta|] eqn:Hm;
    [|by intros [= <-]].
  assert (RpmBuild.package_name b ∈ dom (package_rpm_meta rt)) as Hin.
  { apply elem_of_dom. by exists rpm_meta. }
  assert (∀ (by_el : gmap Z RpmBuild.t) (m : gmap string (gmap Z RpmBuild.t)),
            dom m ⊆ dom (package_rpm_meta rt) →
            dom (<[RpmBuild.package_name b := by_el]> m) ⊆ dom (package_rpm_meta rt)) as Hins.
  { intros by_el m Hsub. rewrite dom_insert_L. apply union_least; [|done].
    by apply singleton_subseteq_l. }
  repeat (case_match || case_bool_decide); intros ?; simplify_eq; simpl;
    repeat apply Hins; done.
Qed.

(** A roster build without a usable el version ends the pass, whatever
    comes before it. *)
Lemma select_rpms_exit_unparsed rt (builds : list RpmBuild.t) st b :
  b ∈ builds →
  is_Some (package_rpm_meta rt !! RpmBuild.package_name b) →
  truthy_el_ver (isolate_el_version_in_release rt (RpmBuild.release b)) = None →
  is_Exit (for_each (select_rpm rt) st builds).
Proof.
  intros Hin [rpm_meta Hmeta] Hnone.
  apply (for_each_exit _ (λ _, True) builds b); [done|done| |done].
  intros s _. by rewrite (select_rpm_unparsed _ _ _ _ Hmeta Hnone).
Qed.

Lemma select_rpm_have_basis rt st b st' :
  retained_have_basis rt (basis_event st) st →
  select_rpm rt st b = Ok st' →
  retained_have_basis rt (basis_event st) st'.
Proof.
  intros Hinv Hstep package_name el_ver kept rpm_meta Hkept Hmeta.
  rewrite (select_rpm_retained _ _ _ _ package_name el_ver Hstep) in Hkept.
  destruct (retained_rpm st package_name el_ver) as [k|] eqn:Hk; [by eapply Hinv|].
  case_bool_decide as Htarget; [|done].
  destruct (rpm_latest_brew_build rt rpm_meta el_ver (basis_event st)) eqn:Hq; [done|].
  by rewrite (select_rpm_absent _ _ _ _ _ _ Htarget Hk Hmeta Hq) in Hstep.
Qed.

(** A build filed under a pair without a build before the basis event
    ends the pass. *)
Lemma select_rpms_exit_absent rt (builds : list RpmBuild.t) st b package_name el_ver rpm_meta :
  retained_have_basis rt (basis_event st) st →
  b ∈ builds →
  rpm_target rt b = Some (package_name, el_ver) →
  package_rpm_meta rt !! package_name = Some rpm_meta →
  rpm_latest_brew_build rt rpm_meta el_ver (basis_event st) = None →
  is_Exit (for_each (select_rpm rt) st builds).
Proof.
  intros Hinv Hin Htarget Hmeta Hnone.
  apply (for_each_exit _ (λ s, basis_event s = basis_event st ∧
           retained_have_basis rt (basis_event st) s) builds b); [done| | |done].
  - intros s y s' _ [Hev Hs] Hstep. split.
    + apply select_rpm_frame in Hstep as (_ & -> & _). done.
    + rewrite <- Hev in *. by eapply select_rpm_have_basis.
  - intros s [Hev Hs].
    destruct (retained_rpm s package_name el_ver) as [kept|] eqn:Hkept.
    + destruct (Hs _ _ _ _ Hkept Hmeta) as [? Hq]. congruence.
    + rewrite <- Hev in Hnone.
      by rewrite (select_rpm_absent _ _ _ _ _ _ Htarget Hkept Hmeta Hnone).
Qed.

(** ** RHCOS containers *)

(** The RHCOS completion only writes [rhcos_by_tag] and the log. *)
Lemma rhcos_container_for_tag_frame arch rhcos_meta st tag st' :
  rhcos_container_for_tag arch rhcos_meta st tag = Ok st' →
  component_image_builds st' = component_image_builds st ∧
  component_rpm_builds st' = component_rpm_builds st ∧
  basis_event st' = basis_event st ∧ basis_event_ts st' = basis_event_ts st ∧
  force_is st' = force_is st ∧ rhcos_version st' = rhcos_version st.
Proof.
  unfold rhcos_container_for_tag. intros H.
  repeat case_match; by simplify_eq.
Qed.

Lemma rhcos_container_for_arch_frame rt params st arch st' :
  rhcos_container_for_arch rt params st arch = Ok st' →
  component_image_builds st' = component_image_builds st ∧
  component_rpm_builds st' = component_rpm_builds st ∧
  basis_event st' = basis_event st ∧ basis_event_ts st' = basis_event_ts st ∧
  force_is st' = force_is st ∧ rhcos_version st' = rhcos_version st.
Proof.
  unfold rhcos_container_for_arch. intros H.
  repeat (case_match || case_bool_decide); simplify_eq; try done.
  revert H. apply (for_each_invariant _ (λ s,
    component_image_builds s = component_image_builds st ∧
    component_rpm_builds s = component_rpm_builds st ∧
    basis_event s = basis_event st ∧ basis_event_ts s = basis_event_ts st ∧
    force_is s = force_is st ∧ rhcos_version s = rhcos_version st)); [|done].
  intros s x s' _ (? & ? & ? & ? & ? & ?) (? & ? & ? & ? & ? & ?)%rhcos_container_for_tag_frame.
  repeat split; congruence.
Qed.

Lemma _get_rhcos_container_frame rt params st st' :
  _get_rhcos_container rt params st = Ok st' →
  component_image_builds st' = component_image_builds st ∧
  component_rpm_builds st' = component_rpm_builds st ∧
  basis_event st' = basis_event st ∧ basis_event_ts st' = basis_event_ts st ∧
  force_is st' = force_is st ∧ rhcos_version st' = rhcos_version st.
Proof.
  apply (for_each_invariant _ (λ s,
    component_image_builds s = component_image_builds st ∧
    component_rpm_builds s = component_rpm_builds st ∧
    basis_event s = basis_event st ∧ basis_event_ts s = basis_event_ts st ∧
    force_is s = force_is st ∧ rhcos_version s = rhcos_version st)); [|done].
  intros s x s' _ (? & ? & ? & ? & ? & ?) (? & ? & ? & ? & ? & ?)%rhcos_container_for_arch_frame.
  repeat split; congruence.
Qed.

(** ** The run, pass by pass *)

Lemma run_state_Ok rt params completion_order st :
  run_state rt params completion_order = Ok st ↔
  ∃ fetched collected completed,
    _determine_basis_brew_event rt params completion_order initial_state = Ok fetched ∧
    _collect_outliers rt params fetched = Ok collected ∧
    _get_rhcos_container rt params collected = Ok completed ∧
    _select_rpms rt completed = Ok st.
Proof.
  unfold run_state, _select_images. rewrite !bind_Ok. split.
  - intros (collected & (fetched & ? & ?)%bind_Ok & (completed & ? & ?)%bind_Ok).
    by exists fetched, collected, completed.
  - intros (fetched & collected & completed & ? & ? & ? & ?).
    exists collected. split; apply bind_Ok; [by exists fetched | by exists completed].
Qed.

(** The payload pass pins nothing and retains no RPM. *)
Lemma _determine_basis_brew_event_frame rt params completion_order st :
  _determine_basis_brew_event rt params completion_order initial_state = Ok st →
  force_is st = ∅ ∧ component_rpm_builds st = ∅.
Proof.
  intros H. apply _determine_basis_brew_event_Ok in H as (fetched & e & Hf & _ & ->). simpl.
  apply releases_frame in Hf as (-> & -> & _).
  by destruct (started_fields params initial_state) as (_ & _ & -> & _ & _ & -> & _).
Qed.

(** The states between the passes of a run. *)
Lemma run_state_passes rt params completion_order fetched collected completed st :
  _determine_basis_brew_event rt params completion_order initial_state = Ok fetched →
  _collect_outliers rt params fetched = Ok collected →
  _get_rhcos_container rt params collected = Ok completed →
  _select_rpms rt completed = Ok st →
  basis_event collected = basis_event fetched ∧
  basis_event completed = basis_event fetched ∧
  basis_event st = basis_event fetched ∧
  component_rpm_builds completed = ∅ ∧
  force_is completed = force_is collected ∧
  component_image_builds completed = component_image_builds collected ∧
  component_image_builds st = component_image_builds collected.
Proof.
  intros Hf Hc Hr Hs.
  apply _determine_basis_brew_event_frame in Hf as (_ & Hrpm).
  apply _collect_outliers_frame in Hc as (Hev1 & _ & Hrpm1 & _).
  apply _get_rhcos_container_frame in Hr as (Hb2 & Hrpm2 & Hev2 & _ & Hf2 & _).
  apply select_rpms_frame in Hs as (Hb3 & Hev3 & _). simpl in *.
  repeat split; congruence.
Qed.

(** A run only retains RPM builds of roster packages. *)
Lemma run_state_roster rt params completion_order st :
  run_state rt params completion_order = Ok st →
  dom (component_rpm_builds st) ⊆ dom (package_rpm_meta rt).
Proof.
  intros (fetched & collected & completed & Hf & Hc & Hr & Hs)%run_state_Ok.
  destruct (run_state_passes _ _ _ _ _ _ _ Hf Hc Hr Hs) as (_ & _ & _ & Hrpm & _).
  unfold _select_rpms in Hs. apply select_rpms_roster in Hs; [done|].
  simpl. rewrite Hrpm, dom_empty_L. apply empty_subseteq.
Qed.

(** ** Independence of the completion order *)



Lemma set_component_image_builds_id st :
  set_component_image_builds (component_image_builds st) st = st.
Proof. by destruct st. Qed.

(** Without a conflict the loop body is [absorb_tag]. *)
Lemma process_component_tag_agree rt params brew_cpu_arch pullspec st component_tag :
  records_agree rt params st →
  payload_tag rt params component_tag →
  process_component_tag rt brew_cpu_arch pullspec st component_tag =
    Ok (absorb_tag rt brew_cpu_arch st component_tag).
Proof.
  intros Hrec Htag. unfold process_component_tag, absorb_tag.
  case_bool_decide as Hrhcos; [done|].
  destruct (component_image_builds st !! _) as [existing|] eqn:Hexisting; [|done].
  pose proof (Hrec _ _ Htag Hrhcos Hexisting) as ->.
  rewrite bool_decide_eq_false_2 by (by intros ?).
  rewrite insert_id by done. by rewrite set_component_image_builds_id.
Qed.

Lemma absorb_tag_records_agree rt params brew_cpu_arch st component_tag :
  payloads_agree rt params →
  records_agree rt params st →
  payload_tag rt params component_tag →
  records_agree rt params (absorb_tag rt brew_cpu_arch st component_tag).
Proof.
  intros Hagree Hrec Htag t b Ht Hrhcos. unfold absorb_tag.
  case_bool_decide as Hr; simpl; [by apply Hrec|].
  intros [[Hpkg <-]|[_ Hb]]%lookup_insert_Some; [|by apply Hrec].
  by apply Hagree.
Qed.














(** The loop body on a tag whose package is on record with another NVR. *)
Lemma process_component_tag_disparate rt brew_cpu_arch pullspec st component_tag existing :
  let brew_build_inspector := inspect_pullspec rt (tag_from_name component_tag) in
  let package_name := BrewBuildImageInspector.get_package_name brew_build_inspector in
  let payload_tag_info :=
    ImageMetadata.get_payload_tag_info
      (BrewBuildImageInspector.get_image_meta brew_build_inspector) in
  tag_name component_tag ∉ rhcos_get_container_names rt →
  component_image_builds st !! package_name = Some existing →
  BrewBuildImageInspector.get_nvr brew_build_inspector ≠ BrewBuildImageInspector.get_nvr existing →
  process_component_tag rt brew_cpu_arch pullspec st component_tag =
    if payload_tag_info.2 then
      if bool_decide (payload_tag_info.1 ≠ tag_name component_tag) then
        Ok (log WARNING (IgnoringPayloadTag (tag_name component_tag) payload_tag_info.1) st)
      else
        Ok (raise_basis_event_ts brew_build_inspector
              (set_component_image_builds
                 (<[package_name := brew_build_inspector]> (component_image_builds st))
                 (log WARNING
                    (SelectingPayloadTag (tag_name component_tag) payload_tag_info.1) st)))
    else
      Exit (DisparateNvrs (BrewBuildImageInspector.get_nvr existing)
              (BrewBuildImageInspector.get_nvr brew_build_inspector) pullspec).
Proof.
  intros bbi package_name info Hrhcos Hexisting Hnvr. unfold process_component_tag.
  rewrite bool_decide_eq_false_2 by done. fold bbi. fold package_name. rewrite Hexisting.
  rewrite bool_decide_eq_true_2 by done. subst info. fold bbi.
  by destruct (ImageMetadata.get_payload_tag_info _) as [n ex].
Qed.

(** C2.  A tag that resolves a package already on record to another NVR:
    without an explicit payload name in the image config the run ends with
    the "disparate nvrs" error and no further tag is processed; with an
    explicit name equal to the tag the new build replaces the recorded one
    and a warning is logged; with an explicit name different from the tag
    the tag is dropped with a warning and the recorded build stays. *)
Theorem disparate_nvrs_policy rt brew_cpu_arch pullspec st component_tag existing :
  let brew_build_inspector := inspect_pullspec rt (tag_from_name component_tag) in
  let package_name := BrewBuildImageInspector.get_package_name brew_build_inspector in
  let build_nvr := BrewBuildImageInspector.get_nvr brew_build_inspector in
  let existing_nvr := BrewBuildImageInspector.get_nvr existing in
  let image_meta := BrewBuildImageInspector.get_image_meta brew_build_inspector in
  let payload_name := (ImageMetadata.get_payload_tag_info image_meta).1 in
  let explicit := (ImageMetadata.get_payload_tag_info image_meta).2 in
  tag_name component_tag ∉ rhcos_get_container_names rt →
  component_image_builds st !! package_name = Some existing →
  build_nvr ≠ existing_nvr →
  (explicit = false →
   ∀ later_tags,
     for_each (process_component_tag rt brew_cpu_arch pullspec) st
       (component_tag :: later_tags) = Exit (DisparateNvrs existing_nvr build_nvr pullspec)) ∧
  (explicit = true → payload_name = tag_name component_tag →
   ∃ st',
     process_component_tag rt brew_cpu_arch pullspec st component_tag = Ok st' ∧
     component_image_builds st' =
       <[package_name := brew_build_inspector]> (component_image_builds st) ∧
     logger st' =
       (WARNING, SelectingPayloadTag (tag_name component_tag) payload_name) :: logger st) ∧
  (explicit = true → payload_name ≠ tag_name component_tag →
   ∃ st',
     process_component_tag rt brew_cpu_arch pullspec st component_tag = Ok st' ∧
     component_image_builds st' = component_image_builds st ∧
     component_image_builds st' !! package_name = Some existing ∧
     logger st' =
       (WARNING, IgnoringPayloadTag (tag_name component_tag) payload_name) :: logger st).
Proof.
  intros bbi package_name build_nvr existing_nvr image_meta payload_name explicit
    Hrhcos Hexisting Hnvr.
  pose proof (process_component_tag_disparate rt brew_cpu_arch pullspec st component_tag
                existing Hrhcos Hexisting Hnvr) as Hstep.
  subst explicit payload_name image_meta build_nvr existing_nvr package_name bbi.
  cbv zeta in Hstep.
  split; [|split].
  - intros Hexplicit later_tags. simpl. by rewrite Hstep, Hexplicit.
  - intros Hexplicit Hname. rewrite Hstep, Hexplicit.
    rewrite (bool_decide_eq_false_2 (_ ≠ _)) by (by intros ?).
    eexists. split; [reflexivity|]. split; reflexivity.
  - intros Hexplicit Hname. rewrite Hstep, Hexplicit.
    rewrite bool_decide_eq_true_2 by done.
    eexists. split; [reflexivity|]. split; [reflexivity|].
    split; [exact Hexisting | reflexivity].
Qed.

Lemma disparate_nvrs_policy_witness :
  let component_tag := Scenario.tag "foo" "foo@aarch64" in
  let outcome (info : string * bool) :=
    process_component_tag (Scenario.disparate info) "aarch64" "release:aarch64"
      (Scenario.after_x86_64 info) component_tag in
  run (Scenario.disparate ("foo", false)) (Scenario.two_arches_params false)
    Scenario.x86_64_first =
    Exit (DisparateNvrs "foo-container-v4.16.0-1" "foo-container-v4.16.0-2" "release:aarch64") ∧
  for_each (process_component_tag (Scenario.disparate ("foo", false))
              "aarch64" "release:aarch64")
    (Scenario.after_x86_64 ("foo", false)) [component_tag] =
    Exit (DisparateNvrs "foo-container-v4.16.0-1" "foo-container-v4.16.0-2" "release:aarch64") ∧
  (∃ st', outcome ("foo", true) = Ok st' ∧
          component_image_builds st' !! "foo-container" = Some (Scenario.foo_b ("foo", true))) ∧
  (∃ st', outcome ("foo-rhel9", true) = Ok st' ∧
          component_image_builds st' !! "foo-container" =
            Some (Scenario.foo_a ("foo-rhel9", true))).
Proof.
  intros component_tag outcome.
  assert (∀ info,
            tag_name component_tag ∉ rhcos_get_container_names (Scenario.disparate info))
    as Hrhcos.
  { intros info. apply (bool_decide_unpack _). vm_compute. exact I. }
  split; [vm_compute; reflexivity|].
  split; [|split].
  - destruct (disparate_nvrs_policy (Scenario.disparate ("foo", false))
                "aarch64" "release:aarch64" (Scenario.after_x86_64 ("foo", false))
                component_tag (Scenario.foo_a ("foo", false))) as (Hexit & _ & _).
    + apply Hrhcos.
    + vm_compute. reflexivity.
    + vm_compute. discriminate.
    + apply (Hexit eq_refl []).
  - destruct (disparate_nvrs_policy (Scenario.disparate ("foo", true))
                "aarch64" "release:aarch64" (Scenario.after_x86_64 ("foo", true))
                component_tag (Scenario.foo_a ("foo", true))) as (_ & Hsel & _).
    + apply Hrhcos.
    + vm_compute. reflexivity.
    + vm_compute. discriminate.
    + destruct (Hsel eq_refl eq_refl) as (st' & Hst' & Hbuilds & _).
      exists st'. split; [exact Hst'|]. rewrite Hbuilds. apply lookup_insert_eq.
  - destruct (disparate_nvrs_policy (Scenario.disparate ("foo-rhel9", true))
                "aarch64" "release:aarch64" (Scenario.after_x86_64 ("foo-rhel9", true))
                component_tag (Scenario.foo_a ("foo-rhel9", true))) as (_ & _ & Hign).
    + apply Hrhcos.
    + vm_compute. reflexivity.
    + vm_compute. discriminate.
    + destruct Hign as (st' & Hst' & _ & Hkept & _); [reflexivity | vm_compute; discriminate |].
      exists st'. split; [exact Hst' | exact Hkept].
Defined.

(** C9.  On a tag that conflicts with the build on record and whose image
    config names a payload tag explicitly: when the name differs from the
    tag, the tag is dropped and [basis_event_ts] stays as it was, so the
    completion time of the dropped build is not counted; when the name is
    the tag, the new build goes on record and [basis_event_ts] is raised to
    cover it, but it still covers the build that was replaced, whose
    completion time had been counted when it went on record.  The instant
    can therefore be that of a build that is no longer on record. *)
Theorem discarded_tag_not_counted_superseded_kept
    rt brew_cpu_arch pullspec st component_tag existing :
  let brew_build_inspector := inspect_pullspec rt (tag_from_name component_tag) in
  let package_name := BrewBuildImageInspector.get_package_name brew_build_inspector in
  let image_meta := BrewBuildImageInspector.get_image_meta brew_build_inspector in
  let payload_name := (ImageMetadata.get_payload_tag_info image_meta).1 in
  let explicit := (ImageMetadata.get_payload_tag_info image_meta).2 in
  tag_name component_tag ∉ rhcos_get_container_names rt →
  component_image_builds st !! package_name = Some existing →
  BrewBuildImageInspector.get_nvr brew_build_inspector ≠ BrewBuildImageInspector.get_nvr existing →
  explicit = true →
  covers_resolved_builds st →
  (payload_name ≠ tag_name component_tag →
   ∃ st',
     process_component_tag rt brew_cpu_arch pullspec st component_tag = Ok st' ∧
     basis_event_ts st' = basis_event_ts st ∧
     component_image_builds st' = component_image_builds st) ∧
  (payload_name = tag_name component_tag →
   ∃ st',
     process_component_tag rt brew_cpu_arch pullspec st component_tag = Ok st' ∧
     component_image_builds st' !! package_name = Some brew_build_inspector ∧
     basis_event_ts st' =
       Z.max (basis_event_ts st)
         (BrewBuildImageInspector.completion_ts brew_build_inspector + 60 * 5) ∧
     BrewBuildImageInspector.completion_ts existing + 60 * 5 ≤ basis_event_ts st' ∧
     (BrewBuildImageInspector.completion_ts brew_build_inspector + 60 * 5 < basis_event_ts st →
      BrewBuildImageInspector.completion_ts brew_build_inspector + 60 * 5 < basis_event_ts st')) ∧
  (∃ final,
     _determine_basis_brew_event (Scenario.disparate ("foo", true))
       (Scenario.two_arches_params false) Scenario.aarch64_first initial_state = Ok final ∧
     resolved_builds final = [Scenario.foo_a ("foo", true)] ∧
     BrewBuildImageInspector.completion_ts (Scenario.foo_a ("foo", true)) = 1000 ∧
     basis_event_ts final = 5000 + 60 * 5).
Proof.
  intros bbi package_name image_meta payload_name explicit
    Hrhcos Hexisting Hnvr Hexplicit Hcov.
  pose proof (process_component_tag_disparate rt brew_cpu_arch pullspec st component_tag
                existing Hrhcos Hexisting Hnvr) as Hstep.
  subst explicit payload_name image_meta package_name bbi.
  cbv zeta in Hstep. rewrite Hexplicit in Hstep.
  split; [|split].
  - intros Hname. rewrite Hstep. rewrite bool_decide_eq_true_2 by done.
    eexists. split; [reflexivity|]. split; reflexivity.
  - intros Hname. rewrite Hstep.
    rewrite (bool_decide_eq_false_2 (_ ≠ _)) by (by intros ?).
    eexists. split; [reflexivity|]. split; [apply lookup_insert_eq|].
    split; [reflexivity|]. simpl. specialize (Hcov _ _ Hexisting). lia.
  - eexists. split; [vm_compute; reflexivity|]. split; [vm_compute; reflexivity|].
    split; reflexivity.
Qed.

Lemma discarded_tag_not_counted_superseded_kept_witness :
  let component_tag := Scenario.tag "foo" "foo@aarch64" in
  (∃ st',
     process_component_tag (Scenario.disparate ("foo-rhel9", true)) "aarch64" "release:aarch64"
       (Scenario.after_x86_64 ("foo-rhel9", true)) component_tag = Ok st' ∧
     basis_event_ts st' = 1000 + 60 * 5) ∧
  (∃ st',
     process_component_tag (Scenario.disparate ("foo", true)) "aarch64" "release:aarch64"
       (Scenario.after_x86_64 ("foo", true)) component_tag = Ok st' ∧
     basis_event_ts st' = 5000 + 60 * 5).
Proof.
  intros component_tag.
  assert (∀ info,
            tag_name component_tag ∉ rhcos_get_container_names (Scenario.disparate info))
    as Hrhcos.
  { intros info. apply (bool_decide_unpack _). vm_compute. exact I. }
  assert (∀ info, covers_resolved_builds (Scenario.after_x86_64 info)) as Hcov.
  { intros info package_name b.
    change (component_image_builds (Scenario.after_x86_64 info))
      with (<[ "foo-container" := Scenario.foo_a info ]>
              (∅ : gmap string BrewBuildImageInspector.t)).
    intros [[<- <-]|[_ Hb]]%lookup_insert_Some; [vm_compute; discriminate|].
    by rewrite lookup_empty in Hb. }
  split.
  - destruct (discarded_tag_not_counted_superseded_kept
                (Scenario.disparate ("foo-rhel9", true)) "aarch64" "release:aarch64"
                (Scenario.after_x86_64 ("foo-rhel9", true)) component_tag
                (Scenario.foo_a ("foo-rhel9", true))) as (Hdrop & _ & _).
    + apply Hrhcos.
    + vm_compute. reflexivity.
    + vm_compute. discriminate.
    + reflexivity.
    + apply Hcov.
    + destruct Hdrop as (st' & Hst' & Hts & _); [vm_compute; discriminate|].
      exists st'. split; [exact Hst'|]. rewrite Hts. reflexivity.
  - destruct (discarded_tag_not_counted_superseded_kept
                (Scenario.disparate ("foo", true)) "aarch64" "release:aarch64"
                (Scenario.after_x86_64 ("foo", true)) component_tag
                (Scenario.foo_a ("foo", true))) as (_ & Hsel & _).
    + apply Hrhcos.
    + vm_compute. reflexivity.
    + vm_compute. discriminate.
    + reflexivity.
    + apply Hcov.
    + destruct (Hsel eq_refl) as (st' & Hst' & _ & Hts & _).
      exists st'. split; [exact Hst'|]. rewrite Hts. reflexivity.
Defined.

(** C3.  In a run that reaches the end of the RPM pass, over image
    components with distinct names, a package is in [force_is] if and only
    if the build selected at the basis event differs in NVR from the
    observed build: for an image, the build found in the payloads under the
    component's name; for an RPM, the build retained for the package and an
    el target.  On equal NVRs nothing is recorded. *)
Theorem pinned_iff_basis_event_mismatch rt params completion_order fetched st package_name :
  NoDup (ImageMetadata.get_component_name <$> image_metas rt) →
  _determine_basis_brew_event rt params completion_order initial_state = Ok fetched →
  run_state rt params completion_order = Ok st →
  package_name ∈ force_is st ↔
    (∃ image_meta, image_meta ∈ image_metas rt ∧
       image_mismatch rt (component_image_builds fetched) (basis_event st)
         image_meta package_name) ∨
    (∃ el_ver b, retained_rpm st package_name el_ver = Some b ∧
       rpm_mismatch rt (basis_event st) package_name el_ver b).
Proof.
  intros Hnodup Hfetched (f & collected & completed & Hf & Hc & Hr & Hs)%run_state_Ok.
  rewrite Hfetched in Hf. injection Hf as <-.
  destruct (run_state_passes _ _ _ _ _ _ _ Hfetched Hc Hr Hs)
    as (Hev1 & Hev2 & Hev3 & Hrpm & Hforce & _).
  destruct (_determine_basis_brew_event_frame _ _ _ _ Hfetched) as (Hforce0 & _).
  unfold _select_rpms in Hs.
  rewrite (select_rpms_force_is _ _ _ _ package_name Hs). simpl.
  rewrite Hforce, (_collect_outliers_force_is _ _ _ _ _ package_name Hnodup Hc).
  rewrite Hforce0, Hev2, Hev3.
  assert (∀ e, retained_rpm (log INFO (QueryingRpmBuilds
                 (length (ref_releases_rpm_builds rt completed))) completed)
                 package_name e = None) as Hfree.
  { intros e. unfold retained_rpm. simpl. rewrite Hrpm. by rewrite lookup_empty. }
  split.
  - intros [[[]%not_elem_of_empty|?]|(e & b & _ & ? & ?)]; [by left|].
    right. by exists e, b.
  - intros [?|(e & b & ? & ?)]; [left; by right|]. right. exists e, b. by rewrite Hfree.
Qed.

Lemma pinned_iff_basis_event_mismatch_witness :
  ∃ st,
    run_state Scenario.two_arches (Scenario.two_arches_params false)
      Scenario.x86_64_first = Ok st ∧
    force_is st = {[ "bar-container"; "openshift" ]} ∧
    ("foo-container" ∈ force_is st ↔
       (∃ image_meta, image_meta ∈ image_metas Scenario.two_arches ∧
          image_mismatch Scenario.two_arches
            (component_image_builds (Scenario.fetched Scenario.two_arches false))
            (basis_event st) image_meta "foo-container") ∨
       (∃ el_ver b, retained_rpm st "foo-container" el_ver = Some b ∧
          rpm_mismatch Scenario.two_arches (basis_event st) "foo-container" el_ver b)).
Proof.
  eexists. split; [vm_compute; reflexivity|]. split; [vm_compute; reflexivity|].
  apply (pinned_iff_basis_event_mismatch Scenario.two_arches
           (Scenario.two_arches_params false) Scenario.x86_64_first).
  - apply (bool_decide_unpack _). vm_compute. exact I.
  - vm_compute. reflexivity.
  - vm_compute. reflexivity.
Defined.

(** C5.  A release-eligible image component, or a pair of RPM package and
    el target that the RPM pass comes to, for which the build system has no
    build before the basis event ends the pass it is in with an error, at
    that iteration; the run then produces no assembly definition. *)
Theorem no_build_before_basis_event_is_fatal rt params :
  (∀ st image_meta,
     release_eligible image_meta = true →
     image_latest_brew_build rt image_meta (basis_event st) = None →
     collect_outlier rt params st image_meta =
       Exit (NoImageFound (ImageMetadata.distgit_key image_meta) (basis_event st)) ∧
     (image_meta ∈ image_metas rt → is_Exit (_collect_outliers rt params st))) ∧
  (∀ st b package_name el_ver rpm_meta,
     rpm_target rt b = Some (package_name, el_ver) →
     package_rpm_meta rt !! package_name = Some rpm_meta →
     rpm_latest_brew_build rt rpm_meta el_ver (basis_event st) = None →
     (retained_rpm st package_name el_ver = None →
      select_rpm rt st b =
        Exit (NoRpmFound (RPMMetadata.distgit_key rpm_meta) (basis_event st))) ∧
     (component_rpm_builds st = ∅ → b ∈ ref_releases_rpm_builds rt st →
      is_Exit (_select_rpms rt st))) ∧
  (∀ completion_order fetched image_meta,
     _determine_basis_brew_event rt params completion_order initial_state = Ok fetched →
     image_meta ∈ image_metas rt →
     release_eligible image_meta = true →
     image_latest_brew_build rt image_meta (basis_event fetched) = None →
     definition_of (run rt params completion_order) = None) ∧
  (∀ completion_order collected completed b package_name el_ver rpm_meta,
     _select_images rt params completion_order initial_state = Ok collected →
     _get_rhcos_container rt params collected = Ok completed →
     b ∈ ref_releases_rpm_builds rt completed →
     rpm_target rt b = Some (package_name, el_ver) →
     package_rpm_meta rt !! package_name = Some rpm_meta →
     rpm_latest_brew_build rt rpm_meta el_ver (basis_event completed) = None →
     definition_of (run rt params completion_order) = None).
Proof.
  assert (∀ st, component_rpm_builds st = ∅ → ∀ event, retained_have_basis rt event st)
    as Hempty.
  { intros st Hst event p e kept m Hkept. unfold retained_rpm in Hkept.
    rewrite Hst, lookup_empty in Hkept. done. }
  assert (∀ st b package_name el_ver rpm_meta,
     rpm_target rt b = Some (package_name, el_ver) →
     package_rpm_meta rt !! package_name = Some rpm_meta →
     rpm_latest_brew_build rt rpm_meta el_ver (basis_event st) = None →
     component_rpm_builds st = ∅ → b ∈ ref_releases_rpm_builds rt st →
     is_Exit (_select_rpms rt st)) as Hrpms.
  { intros st b package_name el_ver rpm_meta Htarget Hmeta Hnone Hst Hin.
    unfold _select_rpms.
    eapply (select_rpms_exit_absent rt _ _ b); [|exact Hin|exact Htarget|exact Hmeta|exact Hnone].
    by apply Hempty. }
  split; [|split; [|split]].
  - intros st image_meta Hel Hnone. split.
    + unfold collect_outlier. unfold release_eligible in Hel. apply negb_true_iff in Hel.
      by rewrite Hel, Hnone.
    + intros Hin. by eapply _collect_outliers_exit.
  - intros st b package_name el_ver rpm_meta Htarget Hmeta Hnone. split.
    + intros Hfree. by eapply select_rpm_absent.
    + by eapply Hrpms.
  - intros completion_order fetched image_meta Hf Hin Hel Hnone.
    unfold run, run_state, _select_images. rewrite Hf. simpl.
    pose proof (_collect_outliers_exit rt params _ fetched image_meta Hin Hel Hnone) as Hexit.
    unfold _collect_outliers. by destruct (for_each _ _ _).
  - intros completion_order collected completed b package_name el_ver rpm_meta
      Hc Hr Hin Htarget Hmeta Hnone.
    unfold run, run_state. rewrite Hc. simpl. rewrite Hr. simpl.
    assert (component_rpm_builds completed = ∅) as Hst.
    { apply _get_rhcos_container_frame in Hr as (_ & -> & _).
      unfold _select_images in Hc. apply bind_Ok in Hc as (fetched & Hf & Hc).
      apply _collect_outliers_frame in Hc as (_ & _ & -> & _).
      by apply _determine_basis_brew_event_frame in Hf as (_ & ->). }
    pose proof (Hrpms _ _ _ _ _ Htarget Hmeta Hnone Hst Hin) as Hexit.
    by destruct (_select_rpms rt completed).
Qed.

Lemma no_build_before_basis_event_is_fatal_witness :
  run Scenario.two_arches_no_qux (Scenario.two_arches_params false) Scenario.x86_64_first =
    Exit (NoImageFound "qux" 20) ∧
  definition_of (run Scenario.two_arches_no_qux (Scenario.two_arches_params false)
                   Scenario.x86_64_first) = None ∧
  run Scenario.two_arches_no_el9 (Scenario.two_arches_params false) Scenario.x86_64_first =
    Exit (NoRpmFound "openshift" 20) ∧
  definition_of (run Scenario.two_arches_no_el9 (Scenario.two_arches_params false)
                   Scenario.x86_64_first) = None.
Proof.
  split; [vm_compute; reflexivity|]. split.
  - destruct (no_build_before_basis_event_is_fatal Scenario.two_arches_no_qux
                (Scenario.two_arches_params false)) as (_ & _ & Himage & _).
    apply (Himage Scenario.x86_64_first (Scenario.fetched Scenario.two_arches_no_qux false)
             Scenario.qux_meta).
    + vm_compute. reflexivity.
    + apply (bool_decide_unpack _). vm_compute. exact I.
    + reflexivity.
    + vm_compute. reflexivity.
  - split; [vm_compute; reflexivity|].
    destruct (no_build_before_basis_event_is_fatal Scenario.two_arches_no_el9
                (Scenario.two_arches_params false)) as (_ & _ & _ & Hrpm).
    apply (Hrpm Scenario.x86_64_first
             (Scenario.state_of (_select_images Scenario.two_arches_no_el9
                (Scenario.two_arches_params false) Scenario.x86_64_first initial_state))
             (Scenario.completed Scenario.two_arches_no_el9 false)
             Scenario.openshift_el9 "openshift" 9 Scenario.openshift_meta).
    + vm_compute. reflexivity.
    + vm_compute. reflexivity.
    + apply (bool_decide_unpack _). vm_compute. exact I.
    + vm_compute. reflexivity.
    + vm_compute. reflexivity.
    + vm_compute. reflexivity.
Defined.

(** C6.  During the RPM pass each pair of package and el target holds at
    most one build, the first build of the list that is filed under the
    pair: this holds after every prefix of the list, a retained build stays
    to the end, and a later build for a filled pair leaves the whole state,
    log included, as it is. *)
Theorem first_rpm_build_per_target_is_retained rt st st' :
  component_rpm_builds st = ∅ →
  _select_rpms rt st = Ok st' →
  (∀ package_name el_ver,
     retained_rpm st' package_name el_ver =
       first_observed rt (ref_releases_rpm_builds rt st) package_name el_ver) ∧
  (∀ done rest,
     ref_releases_rpm_builds rt st = done ++ rest →
     ∃ mid,
       for_each (select_rpm rt)
         (log INFO (QueryingRpmBuilds (length (ref_releases_rpm_builds rt st))) st) done =
         Ok mid ∧
       (∀ package_name el_ver,
          retained_rpm mid package_name el_ver = first_observed rt done package_name el_ver) ∧
       (∀ package_name el_ver kept,
          retained_rpm mid package_name el_ver = Some kept →
          retained_rpm st' package_name el_ver = Some kept)) ∧
  (∀ s b package_name el_ver kept,
     rpm_target rt b = Some (package_name, el_ver) →
     retained_rpm s package_name el_ver = Some kept →
     select_rpm rt s b = Ok s).
Proof.
  intros Hst Hrun. unfold _select_rpms in Hrun.
  set (st0 := log INFO (QueryingRpmBuilds (length (ref_releases_rpm_builds rt st))) st) in *.
  assert (∀ p e, retained_rpm st0 p e = None) as Hfree.
  { intros p e. unfold retained_rpm. simpl. by rewrite Hst, lookup_empty. }
  split; [|split].
  - intros p e. by rewrite (select_rpms_retained _ _ _ _ p e Hrun), Hfree.
  - intros done rest Hsplit. rewrite Hsplit, for_each_app in Hrun.
    apply bind_Ok in Hrun as (mid & Hdone & Hrest). exists mid. split; [done|]. split.
    + intros p e. by rewrite (select_rpms_retained _ _ _ _ p e Hdone), Hfree.
    + intros p e kept Hkept. by rewrite (select_rpms_retained _ _ _ _ p e Hrest), Hkept.
  - intros s b p e kept. apply select_rpm_duplicate.
Qed.

Lemma first_rpm_build_per_target_is_retained_witness :
  ∃ st',
    _select_rpms Scenario.two_arches (Scenario.completed Scenario.two_arches false) = Ok st' ∧
    retained_rpm st' "openshift" 8 = Some Scenario.openshift_el8 ∧
    retained_rpm st' "openshift" 9 = Some Scenario.openshift_el9 ∧
    retained_rpm st' "glibc" 9 = None.
Proof.
  eexists. split; [vm_compute; reflexivity|].
  destruct (first_rpm_build_per_target_is_retained Scenario.two_arches
              (Scenario.completed Scenario.two_arches false)
              (Scenario.state_of
                 (_select_rpms Scenario.two_arches
                    (Scenario.completed Scenario.two_arches false))))
    as (Hfirst & _); [vm_compute; reflexivity | vm_compute; reflexivity |].
  split; [|split].
  - etrans; [apply (Hfirst "openshift" 8) | vm_compute; reflexivity].
  - etrans; [apply (Hfirst "openshift" 9) | vm_compute; reflexivity].
  - etrans; [apply (Hfirst "glibc" 9) | vm_compute; reflexivity].
Defined.



(** C8.  An embedded build of a roster package whose release string yields
    no el version ends the RPM pass with an error, so the run produces no
    override list; an embedded build of a package outside the roster leaves
    the state as it is, whatever its release string. *)
Theorem unparsed_el_version_is_fatal rt :
  (∀ st b rpm_meta,
     package_rpm_meta rt !! RpmBuild.package_name b = Some rpm_meta →
     isolate_el_version_in_release rt (RpmBuild.release b) = None →
     select_rpm rt st b = Exit (UnableToIsolateEl (RpmBuild.nvr b)) ∧
     (b ∈ ref_releases_rpm_builds rt st → is_Exit (_select_rpms rt st))) ∧
  (∀ params completion_order collected completed b rpm_meta,
     _select_images rt params completion_order initial_state = Ok collected →
     _get_rhcos_container rt params collected = Ok completed →
     b ∈ ref_releases_rpm_builds rt completed →
     package_rpm_meta rt !! RpmBuild.package_name b = Some rpm_meta →
     isolate_el_version_in_release rt (RpmBuild.release b) = None →
     definition_of (run rt params completion_order) = None) ∧
  (∀ st b,
     package_rpm_meta rt !! RpmBuild.package_name b = None →
     select_rpm rt st b = Ok st).
Proof.
  assert (∀ st b rpm_meta,
     package_rpm_meta rt !! RpmBuild.package_name b = Some rpm_meta →
     isolate_el_version_in_release rt (RpmBuild.release b) = None →
     b ∈ ref_releases_rpm_builds rt st → is_Exit (_select_rpms rt st)) as Hpass.
  { intros st b rpm_meta Hmeta Hnone Hin. unfold _select_rpms.
    apply (select_rpms_exit_unparsed rt _ _ b); [done|by exists rpm_meta|].
    by rewrite Hnone. }
  split; [|split].
  - intros st b rpm_meta Hmeta Hnone. split; [|by eapply Hpass].
    apply (select_rpm_unparsed _ _ _ rpm_meta); [done|]. by rewrite Hnone.
  - intros params completion_order collected completed b rpm_meta Hc Hr Hin Hmeta Hnone.
    unfold run, run_state. rewrite Hc. simpl. rewrite Hr. simpl.
    pose proof (Hpass _ _ _ Hmeta Hnone Hin) as Hexit.
    by destruct (_select_rpms rt completed).
  - intros st b. apply select_rpm_outside.
Qed.

Lemma unparsed_el_version_is_fatal_witness :
  run Scenario.two_arches_noel (Scenario.two_arches_params false) Scenario.x86_64_first =
    Exit (UnableToIsolateEl "openshift-4.16.0-1") ∧
  definition_of (run Scenario.two_arches_noel (Scenario.two_arches_params false)
                   Scenario.x86_64_first) = None ∧
  select_rpm Scenario.two_arches_noel (Scenario.completed Scenario.two_arches_noel false)
    Scenario.glibc_el9 = Ok (Scenario.completed Scenario.two_arches_noel false).
Proof.
  destruct (unparsed_el_version_is_fatal Scenario.two_arches_noel)
    as (_ & Hrun & Houtside).
  split; [vm_compute; reflexivity|]. split.
  - apply (Hrun (Scenario.two_arches_params false) Scenario.x86_64_first
             (Scenario.state_of (_select_images Scenario.two_arches_noel
                (Scenario.two_arches_params false) Scenario.x86_64_first initial_state))
             (Scenario.completed Scenario.two_arches_noel false)
             Scenario.openshift_noel Scenario.openshift_meta).
    + vm_compute. reflexivity.
    + vm_compute. reflexivity.
    + apply (bool_decide_unpack _). vm_compute. exact I.
    + vm_compute. reflexivity.
    + vm_compute. reflexivity.
  - apply Houtside. vm_compute. reflexivity.
Defined.

(** ** The override lists *)

Global Instance el_key_inj : Inj (=) (=) el_key.
Proof.
  intros x y H. unfold el_key in H. simpl in H.
  injection H as H. by apply (inj pretty).
Qed.

Lemma member_override_spec rt st image_member_overrides rpm_member_overrides package_name :
  (is_Some (component_rpm_builds st !! package_name) →
   is_Some (package_rpm_meta rt !! package_name)) →
  member_override rt st (image_member_overrides, rpm_member_overrides) package_name =
    Ok (image_member_overrides ++ option_list (image_override_of st package_name),
        rpm_member_overrides ++ option_list (rpm_override_of rt st package_name)).
Proof.
  intros Hroster. unfold member_override, image_override_of, rpm_override_of.
  destruct (component_image_builds st !! package_name) as [build_inspector|]; simpl.
  { by rewrite app_nil_r. }
  destruct (component_rpm_builds st !! package_name) as [by_el|]; simpl.
  - destruct Hroster as [rpm_meta ->]; [done|]. simpl. by rewrite app_nil_r.
  - by rewrite !app_nil_r.
Qed.

Lemma member_overrides_spec rt st (package_names : list string)
    image_member_overrides rpm_member_overrides :
  dom (component_rpm_builds st) ⊆ dom (package_rpm_meta rt) →
  for_each (member_override rt st) (image_member_overrides, rpm_member_overrides)
    package_names =
    Ok (image_member_overrides ++ omap (image_override_of st) package_names,
        rpm_member_overrides ++ omap (rpm_override_of rt st) package_names).
Proof.
  intros Hdom. revert image_member_overrides rpm_member_overrides.
  induction package_names as [|p l IH]; intros imgs rpms.
  { simpl. by rewrite !app_nil_r. }
  rewrite for_each_cons, member_override_spec.
  2: { intros Hin%elem_of_dom. apply elem_of_dom. by apply Hdom. }
  cbn [mbind result_bind]. rewrite IH.
  rewrite <- !app_assoc. cbn [omap list_omap].
  by destruct (image_override_of st p), (rpm_override_of rt st p).
Qed.

Lemma size_kmap_el_key (m : gmap Z string) :
  size (kmap el_key m : gmap string string) = size m.
Proof.
  rewrite <- !length_map_to_list.
  rewrite (map_to_list_kmap el_key m). by rewrite length_fmap.
Qed.

(** C10.  For each name in [force_is] the output holds at most one entry:
    the image override with the NVR of the image build on record if the
    name is in the image builds, even when it is also in the RPM builds;
    otherwise the RPM override with one NVR per el target if the name is in
    the RPM builds; otherwise nothing.  The entries come in the order in
    which the set is gone through, which takes every name once. *)
Theorem one_override_per_pinned_package rt st :
  dom (component_rpm_builds st) ⊆ dom (package_rpm_meta rt) →
  _get_member_overrides rt st =
    Ok (omap (image_override_of st) (enumerate (force_is_order rt) (force_is st)),
        omap (rpm_override_of rt st) (enumerate (force_is_order rt) (force_is st))) ∧
  (∀ package_name,
     image_override_of st package_name = None ∨ rpm_override_of rt st package_name = None) ∧
  (∀ package_name build_inspector,
     component_image_builds st !! package_name = Some build_inspector →
     image_override_of st package_name =
       Some (ImageOverride.Build
               (ImageMetadata.distgit_key
                  (BrewBuildImageInspector.get_image_meta build_inspector))
               why_pinned (BrewBuildImageInspector.get_nvr build_inspector)) ∧
     rpm_override_of rt st package_name = None) ∧
  (∀ package_name by_el,
     component_image_builds st !! package_name = None →
     component_rpm_builds st !! package_name = Some by_el →
     image_override_of st package_name = None ∧
     ∃ rpm_meta override,
       package_rpm_meta rt !! package_name = Some rpm_meta ∧
       rpm_override_of rt st package_name = Some override ∧
       RpmOverride.distgit_key override = RPMMetadata.distgit_key rpm_meta ∧
       (∀ el_ver, RpmOverride.is_ override !! el_key el_ver = RpmBuild.nvr <$> by_el !! el_ver) ∧
       (∀ key nvr, RpmOverride.is_ override !! key = Some nvr →
                   ∃ el_ver b, key = el_key el_ver ∧ by_el !! el_ver = Some b ∧
                               nvr = RpmBuild.nvr b) ∧
       size (RpmOverride.is_ override) = size by_el) ∧
  (∀ package_name,
     component_image_builds st !! package_name = None →
     component_rpm_builds st !! package_name = None →
     image_override_of st package_name = None ∧ rpm_override_of rt st package_name = None) ∧
  (length (omap (image_override_of st) (enumerate (force_is_order rt) (force_is st))) +
   length (omap (rpm_override_of rt st) (enumerate (force_is_order rt) (force_is st))) ≤
   size (force_is st))%nat ∧
  enumerate (force_is_order rt) (force_is st) ≡ₚ elements (force_is st).
Proof.
  intros Hdom.
  assert (∀ package_name,
            image_override_of st package_name = None ∨
            rpm_override_of rt st package_name = None) as Hone.
  { intros p. unfold image_override_of, rpm_override_of.
    destruct (component_image_builds st !! p); [by right | by left]. }
  split; [|split; [exact Hone|split; [|split; [|split; [|split]]]]].
  - unfold _get_member_overrides. by rewrite member_overrides_spec.
  - intros p bi Hbi. unfold image_override_of, rpm_override_of. by rewrite Hbi.
  - intros p by_el Himg Hrpm. unfold image_override_of, rpm_override_of.
    rewrite Himg, Hrpm. simpl. split; [done|].
    assert (is_Some (package_rpm_meta rt !! p)) as [rpm_meta Hmeta].
    { apply elem_of_dom, Hdom, elem_of_dom. by exists by_el. }
    rewrite Hmeta. simpl. eexists _, _. split; [done|]. split; [done|]. simpl.
    split; [done|]. split; [|split].
    + intros e. rewrite lookup_kmap by apply el_key_inj. apply lookup_fmap.
    + intros key nvr (e & -> & Hnvr)%lookup_kmap_Some; [|apply el_key_inj].
      rewrite lookup_fmap in Hnvr.
      destruct (by_el !! e) as [b|] eqn:Hb; [|done]. injection Hnvr as <-.
      by exists e, b.
    + by rewrite size_kmap_el_key, map_size_fmap.
  - intros p Himg Hrpm. unfold image_override_of, rpm_override_of. by rewrite Himg, Hrpm.
  - unfold size, set_size. simpl.
    rewrite <- (Permutation_length (enumerate_content (force_is_order rt) (force_is st))).
    induction (enumerate (force_is_order rt) (force_is st)) as [|p l IH]; [done|].
    unfold omap in *. simpl.
    destruct (Hone p) as [-> | ->].
    + destruct (rpm_override_of rt st p); simpl; lia.
    + destruct (image_override_of st p); simpl; lia.
  - apply enumerate_content.
Qed.

Lemma one_override_per_pinned_package_witness :
  let st := Scenario.state_of
              (run_state Scenario.two_arches (Scenario.two_arches_params false)
                 Scenario.x86_64_first) in
  enumerate (force_is_order Scenario.two_arches) (force_is st) =
    ["openshift"; "bar-container"] ∧
  _get_member_overrides Scenario.two_arches st =
    Ok ([ImageOverride.Build "bar" why_pinned "bar-container-v4.16.0-1"],
        [RpmOverride.Build "openshift" why_pinned
           {[ "el8" := "openshift-4.16.0-1.el8"; "el9" := "openshift-4.16.0-1.el9" ]}]).
Proof.
  intros st. split; [vm_compute; reflexivity|].
  destruct (one_override_per_pinned_package Scenario.two_arches st) as (Hrun & _).
  - apply (run_state_roster _ (Scenario.two_arches_params false) Scenario.x86_64_first).
    vm_compute. reflexivity.
  - rewrite Hrun. vm_compute. reflexivity.
Defined.

(** ** The completion order of the fetches *)

Lemma elem_of_all_payload_tags rt params component_tag :
  component_tag ∈ all_payload_tags rt params ↔ payload_tag rt params component_tag.
Proof.
  unfold all_payload_tags, payload_tag. rewrite list_elem_of_bind. split.
  - intros (release & Htag & Hrelease). by exists release.
  - intros (release & Hrelease & Htag). by exists release.
Qed.

(** [payloads_agree] can be checked on the list of tags. *)
Lemma payloads_agree_check rt params :
  Forall (λ tag1, Forall (λ tag2,
    tag_name tag1 ∉ rhcos_get_container_names rt →
    tag_name tag2 ∉ rhcos_get_container_names rt →
    BrewBuildImageInspector.get_package_name (inspect_pullspec rt (tag_from_name tag1)) =
      BrewBuildImageInspector.get_package_name (inspect_pullspec rt (tag_from_name tag2)) →
    inspect_pullspec rt (tag_from_name tag1) = inspect_pullspec rt (tag_from_name tag2))
    (all_payload_tags rt params)) (all_payload_tags rt params) →
  payloads_agree rt params.
Proof.
  intros Hall t1 t2 H1%elem_of_all_payload_tags H2%elem_of_all_payload_tags.
  rewrite Forall_forall in Hall. specialize (Hall t1 H1).
  rewrite Forall_forall in Hall. by apply Hall.
Qed.




(** ** Further properties of the payload pass *)

(** ** More on the payload pass *)

Lemma rhcos_pullspec_insert st tag arch pullspec tag' arch' :
  rhcos_pullspec
    (set_rhcos_by_tag
       (<[tag := <[arch := pullspec]> (default ∅ (rhcos_by_tag st !! tag))]> (rhcos_by_tag st))
       st) tag' arch' =
  if bool_decide (tag' = tag ∧ arch' = arch) then Some pullspec
  else rhcos_pullspec st tag' arch'.
Proof.
  unfold rhcos_pullspec. simpl. destruct (decide (tag' = tag)) as [->|Htag].
  - rewrite lookup_insert_eq. simpl. destruct (decide (arch' = arch)) as [->|Harch].
    + rewrite lookup_insert_eq. by rewrite bool_decide_eq_true_2.
    + rewrite lookup_insert_ne by done.
      rewrite bool_decide_eq_false_2 by (by intros [_ ?]).
      destruct (rhcos_by_tag st !! tag); simpl; [done | apply lookup_empty].
  - rewrite lookup_insert_ne by done. by rewrite bool_decide_eq_false_2 by (by intros [? _]).
Qed.

Lemma process_component_tag_rhcos_pullspec
    rt brew_cpu_arch pullspec st component_tag st' name arch :
  process_component_tag rt brew_cpu_arch pullspec st component_tag = Ok st' →
  rhcos_pullspec st' name arch =
    if bool_decide (tag_name component_tag ∈ rhcos_get_container_names rt ∧
                    name = tag_name component_tag ∧ arch = brew_cpu_arch)
    then Some (tag_from_name component_tag)
    else rhcos_pullspec st name arch.
Proof.
  unfold process_component_tag. case_bool_decide as Hrhcos.
  - intros [= <-]. rewrite rhcos_pullspec_insert.
    case_bool_decide as H1; case_bool_decide as H2; try done.
    + destruct H1 as [-> ->]. by destruct H2.
    + destruct H2 as (_ & -> & ->). by destruct H1.
  - intros H. rewrite bool_decide_eq_false_2 by (by intros [? _]).
    repeat (case_match || case_bool_decide); by simplify_eq.
Qed.

Lemma tags_rhcos_pullspec rt brew_cpu_arch pullspec (tags : list ComponentTag) st st' name arch :
  for_each (process_component_tag rt brew_cpu_arch pullspec) st tags = Ok st' →
  rhcos_pullspec st' name arch =
    match (if bool_decide (name ∈ rhcos_get_container_names rt ∧ arch = brew_cpu_arch)
           then last_tag_from name tags else None) with
    | Some p => Some p
    | None => rhcos_pullspec st name arch
    end.
Proof.
  revert st. induction tags as [|t tags IH]; intros st Hrun.
  - injection Hrun as <-. simpl. by case_bool_decide.
  - rewrite for_each_cons in Hrun. apply bind_Ok in Hrun as (s1 & Hstep & Hrest).
    rewrite (IH _ Hrest). rewrite (process_component_tag_rhcos_pullspec _ _ _ _ _ _ name arch Hstep).
    simpl. case_bool_decide as Hn.
    + destruct Hn as [Hin ->]. destruct (last_tag_from name tags); [done|].
      destruct (decide (tag_name t = name)) as [<-|Ht].
      * by rewrite !bool_decide_eq_true_2.
      * rewrite (bool_decide_eq_false_2 (tag_name t = name)) by done.
        rewrite bool_decide_eq_false_2; [done|]. intros (_ & ? & _). by apply Ht.
    + rewrite bool_decide_eq_false_2; [done|]. intros (Hin & -> & ->). by apply Hn.
Qed.

(** X1.  After the payloads of distinct architectures have been processed,
    [rhcos_by_tag[name][arch]] for an RHCOS tag name and a processed
    architecture is the pullspec of the last tag of that name in that
    architecture's payload, or what it was when the payload has none,
    whatever the order of completion; an entry for a name that is not an
    RHCOS tag name, or for an architecture without a payload, is left as it
    was. *)
Theorem rhcos_by_tag_after_payload_pass rt (completion_order : list (string * string))
    st st' name arch :
  NoDup completion_order.*1 →
  for_each (_process_release rt) st completion_order = Ok st' →
  (∀ pullspec,
     (arch, pullspec) ∈ completion_order → name ∈ rhcos_get_container_names rt →
     rhcos_pullspec st' name arch =
       match last_tag_from name (references_spec_tags (release_info_of rt pullspec)) with
       | Some p => Some p
       | None => rhcos_pullspec st name arch
       end) ∧
  (name ∉ rhcos_get_container_names rt ∨ arch ∉ completion_order.*1 →
   rhcos_pullspec st' name arch = rhcos_pullspec st name arch).
Proof.
  revert st. induction completion_order as [|[a p] l IH]; intros st Hnodup Hrun.
  { injection Hrun as <-. split; [by intros ? []%elem_of_nil | done]. }
  rewrite for_each_cons in Hrun. apply bind_Ok in Hrun as (s1 & Hstep & Hrest).
  apply NoDup_cons in Hnodup as [Ha Hnodup].
  destruct (IH s1 Hnodup Hrest) as [IHin IHout].
  apply _process_release_Ok in Hstep as (_ & _ & Htags). simpl in Htags.
  pose proof (tags_rhcos_pullspec _ _ _ _ _ _ name arch Htags) as Hs1.
  assert (rhcos_pullspec
            (set_rhcos_version (machine_os_version (release_info_of rt p)) st) name arch =
          rhcos_pullspec st name arch) as Hv by done.
  rewrite Hv in Hs1. clear Hv. split.
  - intros pullspec [[= <- <-]|Hin]%elem_of_cons Hname.
    + rewrite IHout by (right; exact Ha). rewrite Hs1.
      by rewrite bool_decide_eq_true_2.
    + rewrite (IHin _ Hin Hname). rewrite Hs1.
      rewrite bool_decide_eq_false_2; [done|].
      intros [_ ->]. apply Ha. apply list_elem_of_fmap. by exists (a, pullspec).
  - intros Hout. rewrite IHout, Hs1.
    + rewrite bool_decide_eq_false_2; [done|]. intros [Hin ->].
      destruct Hout as [Hout|Hout]; [done|]. apply Hout. simpl. by left.
    + destruct Hout as [Hout|Hout]; [by left|]. right. intros Hin. apply Hout. simpl. by right.
Qed.

Lemma rhcos_by_tag_after_payload_pass_witness :
  ∃ st',
    for_each (_process_release Scenario.two_arches) initial_state Scenario.aarch64_first =
      Ok st' ∧
    rhcos_pullspec st' "machine-os-content" "x86_64" = Some "rhcos@x86_64" ∧
    rhcos_pullspec st' "foo" "x86_64" = None ∧
    rhcos_pullspec st' "machine-os-content" "s390x" = None.
Proof.
  eexists. split; [vm_compute; reflexivity|].
  match goal with |- rhcos_pullspec ?s _ _ = _ ∧ _ => set (st' := s) end.
  assert (NoDup Scenario.aarch64_first.*1) as Hnodup.
  { apply (bool_decide_unpack _). vm_compute. exact I. }
  assert (for_each (_process_release Scenario.two_arches) initial_state
            Scenario.aarch64_first = Ok st') as Hrun by (vm_compute; reflexivity).
  split; [|split].
  - destruct (rhcos_by_tag_after_payload_pass Scenario.two_arches Scenario.aarch64_first
                initial_state st' "machine-os-content" "x86_64" Hnodup Hrun) as [Hset _].
    rewrite (Hset "release:x86_64").
    + vm_compute. reflexivity.
    + apply (bool_decide_unpack _). vm_compute. exact I.
    + apply (bool_decide_unpack _). vm_compute. exact I.
  - destruct (rhcos_by_tag_after_payload_pass Scenario.two_arches Scenario.aarch64_first
                initial_state st' "foo" "x86_64" Hnodup Hrun) as [_ Hkept].
    rewrite Hkept; [vm_compute; reflexivity|].
    left. apply (bool_decide_unpack _). vm_compute. exact I.
  - destruct (rhcos_by_tag_after_payload_pass Scenario.two_arches Scenario.aarch64_first
                initial_state st' "machine-os-content" "s390x" Hnodup Hrun) as [_ Hkept].
    rewrite Hkept; [vm_compute; reflexivity|].
    right. apply (bool_decide_unpack _). vm_compute. exact I.
Defined.

Lemma process_component_tag_builds rt brew_cpu_arch pullspec st component_tag st' :
  process_component_tag rt brew_cpu_arch pullspec st component_tag = Ok st' →
  let b := inspect_pullspec rt (tag_from_name component_tag) in
  (∀ package_name,
     is_Some (component_image_builds st' !! package_name) ↔
     is_Some (component_image_builds st !! package_name) ∨
     ((tag_name component_tag ∉ rhcos_get_container_names rt) ∧
      BrewBuildImageInspector.get_package_name b = package_name)) ∧
  (∀ package_name b',
     component_image_builds st' !! package_name = Some b' →
     component_image_builds st !! package_name = Some b' ∨
     ((tag_name component_tag ∉ rhcos_get_container_names rt) ∧
      BrewBuildImageInspector.get_package_name b = package_name ∧ b' = b)).
Proof.
  intros H b. subst b. unfold process_component_tag in H.
  case_bool_decide as Hrhcos.
  { injection H as <-. simpl. split; [|by left].
    intros p. split; [by left | by intros [?|[? _]]]. }
  set (b := inspect_pullspec rt (tag_from_name component_tag)) in *.
  assert (∀ (m : gmap string BrewBuildImageInspector.t) p,
            is_Some (<[BrewBuildImageInspector.get_package_name b := b]> m !! p) ↔
            is_Some (m !! p) ∨ BrewBuildImageInspector.get_package_name b = p) as Hins.
  { intros m p. rewrite lookup_insert_is_Some. destruct (decide (BrewBuildImageInspector.get_package_name b = p)); tauto. }
  assert (∀ (m : gmap string BrewBuildImageInspector.t) p b',
            <[BrewBuildImageInspector.get_package_name b := b]> m !! p = Some b' →
            m !! p = Some b' ∨ (BrewBuildImageInspector.get_package_name b = p ∧ b' = b)) as Hval.
  { intros m p b' [[<- <-]|[_ ?]]%lookup_insert_Some; [by right | by left]. }
  destruct (component_image_builds st !! BrewBuildImageInspector.get_package_name b)
    as [existing|] eqn:Hexisting.
  - assert (∀ p, is_Some (component_image_builds st !! p) ↔
                 is_Some (component_image_builds st !! p) ∨
                 ((tag_name component_tag ∉ rhcos_get_container_names rt) ∧
                  BrewBuildImageInspector.get_package_name b = p)) as Hsame.
    { intros p. split; [by left|]. intros [?|[_ <-]]; [done | by rewrite Hexisting]. }
    repeat (case_match || case_bool_decide); simplify_eq; simpl.
    + split; [exact Hsame | by left].
    + split.
      * intros p. rewrite Hins. tauto.
      * intros p b' Hb'. apply Hval in Hb'. tauto.
    + split; [exact Hsame | by left].
  - injection H as <-. simpl. split.
    + intros p. rewrite Hins. tauto.
    + intros p b' Hb'. apply Hval in Hb'. tauto.
Qed.

Lemma tags_builds rt brew_cpu_arch pullspec (tags : list ComponentTag) st st' :
  for_each (process_component_tag rt brew_cpu_arch pullspec) st tags = Ok st' →
  (∀ package_name,
     is_Some (component_image_builds st' !! package_name) ↔
     is_Some (component_image_builds st !! package_name) ∨
     ∃ component_tag, component_tag ∈ tags ∧
       (tag_name component_tag ∉ rhcos_get_container_names rt) ∧
       BrewBuildImageInspector.get_package_name
         (inspect_pullspec rt (tag_from_name component_tag)) = package_name) ∧
  (∀ package_name b,
     component_image_builds st' !! package_name = Some b →
     component_image_builds st !! package_name = Some b ∨
     ∃ component_tag, component_tag ∈ tags ∧
       (tag_name component_tag ∉ rhcos_get_container_names rt) ∧
       BrewBuildImageInspector.get_package_name
         (inspect_pullspec rt (tag_from_name component_tag)) = package_name ∧
       b = inspect_pullspec rt (tag_from_name component_tag)).
Proof.
  revert st. induction tags as [|t tags IH]; intros st Hrun.
  { injection Hrun as <-. split.
    - intros p. split; [by left|]. by intros [?|(? & []%elem_of_nil & _)].
    - intros p b ?. by left. }
  rewrite for_each_cons in Hrun. apply bind_Ok in Hrun as (s1 & Hstep & Hrest).
  destruct (IH _ Hrest) as [IHdom IHval].
  destruct (process_component_tag_builds _ _ _ _ _ _ Hstep) as [Hdom Hval]. split.
  - intros p. rewrite IHdom, Hdom. split.
    + intros [[?|[? ?]]|(t' & ? & ? & ?)]; [by left| |].
      * right. exists t. split; [by left | done].
      * right. exists t'. split; [by right | done].
    + intros [?|(t' & [->|?]%elem_of_cons & ? & ?)]; [by left; left | by left; right |].
      right. by exists t'.
  - intros p b Hb. apply IHval in Hb as [Hb|(t' & ? & ? & ? & ?)].
    + apply Hval in Hb as [?|(? & ? & ?)]; [by left|].
      right. exists t. split; [by left | done].
    + right. exists t'. split; [by right | done].
Qed.

(** X2.  After the payload pass the image builds on record are keyed by
    exactly the packages of the component tags of the processed payloads,
    RHCOS tags aside, and every build on record for such a package is the
    build of one of its tags: no tag is lost and no other build is
    recorded. *)
Theorem component_image_builds_after_payload_pass rt (releases : list (string * string))
    st st' :
  for_each (_process_release rt) st releases = Ok st' →
  (∀ package_name,
     is_Some (component_image_builds st' !! package_name) ↔
     is_Some (component_image_builds st !! package_name) ∨
     ∃ component_tag, component_tag_of rt releases package_name component_tag) ∧
  (∀ package_name b,
     component_image_builds st' !! package_name = Some b →
     component_image_builds st !! package_name = Some b ∨
     ∃ component_tag, component_tag_of rt releases package_name component_tag ∧
                      b = inspect_pullspec rt (tag_from_name component_tag)).
Proof.
  unfold component_tag_of.
  revert st. induction releases as [|r releases IH]; intros st Hrun.
  { injection Hrun as <-. split.
    - intros p. split; [by left|]. by intros [?|(? & ? & []%elem_of_nil & _)].
    - intros p b ?. by left. }
  rewrite for_each_cons in Hrun. apply bind_Ok in Hrun as (s1 & Hstep & Hrest).
  destruct (IH _ Hrest) as [IHdom IHval].
  apply _process_release_Ok in Hstep as (_ & _ & Htags).
  destruct (tags_builds _ _ _ _ _ _ Htags) as [Hdom Hval]. simpl in Hdom, Hval. split.
  - intros p. rewrite IHdom, Hdom. split.
    + intros [[?|(t & ? & ? & ?)]|(t & r' & ? & ? & ? & ?)]; [by left| |].
      * right. exists t, r. split; [by left | done].
      * right. exists t, r'. split; [by right | done].
    + intros [?|(t & r' & [->|?]%elem_of_cons & ? & ? & ?)]; [by left; left | |].
      * left. right. by exists t.
      * right. by exists t, r'.
  - intros p b Hb. apply IHval in Hb as [Hb|(t & (r' & ? & ? & ? & ?) & ?)].
    + apply Hval in Hb as [?|(t & ? & ? & ? & ?)]; [by left|].
      right. exists t. split; [|done]. exists r. split; [by left | done].
    + right. exists t. split; [|done]. exists r'. split; [by right | done].
Qed.

Lemma component_image_builds_after_payload_pass_witness :
  ∃ st',
    for_each (_process_release Scenario.two_arches) initial_state Scenario.x86_64_first =
      Ok st' ∧
    component_image_builds st' !! "bar-container" = Some Scenario.bar_1 ∧
    ∀ package_name b,
      component_image_builds st' !! package_name = Some b →
      ∃ component_tag,
        component_tag_of Scenario.two_arches Scenario.x86_64_first package_name component_tag ∧
        b = inspect_pullspec Scenario.two_arches (tag_from_name component_tag).
Proof.
  eexists. split; [vm_compute; reflexivity|]. split; [vm_compute; reflexivity|].
  intros package_name b Hb.
  eapply (component_image_builds_after_payload_pass Scenario.two_arches Scenario.x86_64_first
            initial_state) in Hb as [Hold|Htag]; [| exact Htag | vm_compute; reflexivity].
  simpl in Hold. by rewrite lookup_empty in Hold.
Defined.

(** With payloads that agree, a tag moves the basis event instant only to
    the margin after a build that is on record. *)
Lemma absorb_tag_tight rt params brew_cpu_arch st component_tag :
  records_agree rt params st →
  payload_tag rt params component_tag →
  basis_event_ts_is_tight st ∧ 0 ≤ basis_event_ts st →
  basis_event_ts_is_tight (absorb_tag rt brew_cpu_arch st component_tag) ∧
  0 ≤ basis_event_ts (absorb_tag rt brew_cpu_arch st component_tag).
Proof.
  intros Hrec Htag [Htight Hpos]. unfold absorb_tag, basis_event_ts_is_tight.
  case_bool_decide as Hrhcos; simpl; [done|].
  set (b := inspect_pullspec rt (tag_from_name component_tag)).
  split; [|lia].
  destruct (Z.max_spec (basis_event_ts st) (BrewBuildImageInspector.completion_ts b + 60 * 5))
    as [[_ ->]|[_ ->]].
  - right. exists (BrewBuildImageInspector.get_package_name b), b.
    by rewrite lookup_insert_eq.
  - destruct Htight as [?|(p0 & b0 & Hb0 & Hts)]; [by left|].
    right. exists p0, b0. split; [|done].
    destruct (decide (BrewBuildImageInspector.get_package_name b = p0)) as [<-|Hne].
    + rewrite lookup_insert_eq. f_equal. symmetry. by apply (Hrec component_tag).
    + by rewrite lookup_insert_ne.
Qed.

Lemma payload_pass_tight rt params (releases : list (string * string)) st st' :
  payloads_agree rt params →
  Forall (λ release, release ∈ release_pullspecs params) releases →
  records_agree rt params st →
  basis_event_ts_is_tight st ∧ 0 ≤ basis_event_ts st →
  for_each (_process_release rt) st releases = Ok st' →
  basis_event_ts_is_tight st' ∧ 0 ≤ basis_event_ts st'.
Proof.
  intros Hagree Hin Hrec Htight Hrun.
  assert (records_agree rt params st' ∧
          (basis_event_ts_is_tight st' ∧ 0 ≤ basis_event_ts st')) as [_ ?]; [|done].
  revert Hrun.
  apply (for_each_invariant _ (λ s, records_agree rt params s ∧
           (basis_event_ts_is_tight s ∧ 0 ≤ basis_event_ts s))); [|done].
  intros s r s' Hr [Hs Ht] Hstep.
  rewrite Forall_forall in Hin. specialize (Hin r Hr).
  apply _process_release_Ok in Hstep as (_ & _ & Htags). revert Htags.
  apply (for_each_invariant _ (λ s, records_agree rt params s ∧
           (basis_event_ts_is_tight s ∧ 0 ≤ basis_event_ts s))); [|done].
  intros s1 t s2 Ht' [Hs1 Ht1] Hstep.
  assert (payload_tag rt params t) as Hpt by (by exists r).
  rewrite (process_component_tag_agree _ _ _ _ _ _ Hs1 Hpt) in Hstep. injection Hstep as <-.
  split; [by apply absorb_tag_records_agree | by apply (absorb_tag_tight rt params)].
Qed.

(** X3.  When the payloads agree on the build of every package, the basis
    event instant is exactly the latest completion time among the builds on
    record plus the margin, or 0 when that is negative. *)
Theorem basis_event_ts_is_exact rt params completion_order st m :
  payloads_agree rt params →
  Forall (λ release, release ∈ release_pullspecs params) completion_order →
  _determine_basis_brew_event rt params completion_order initial_state = Ok st →
  max_completion_ts (resolved_builds st) = Some m →
  basis_event_ts st = Z.max 0 (m + 60 * 5).
Proof.
  intros Hagree Hin Hrun Hmax.
  apply _determine_basis_brew_event_Ok in Hrun as (fetched & e & Hf & _ & ->).
  change (max_completion_ts (resolved_builds fetched) = Some m) in Hmax.
  change (basis_event_ts fetched = Z.max 0 (m + 60 * 5)).
  destruct (started_fields params initial_state) as (_ & Hb0 & _ & _ & Hts0 & _).
  assert (covers_resolved_builds fetched) as Hcov.
  { eapply releases_covers; [|done]. intros p b. rewrite Hb0. simpl. by rewrite lookup_empty. }
  destruct (payload_pass_tight rt params completion_order
              (started params initial_state) fetched Hagree Hin) as [Htight Hpos]; [| |done|].
  { intros t b _ _. rewrite Hb0. simpl. by rewrite lookup_empty. }
  { unfold basis_event_ts_is_tight. rewrite Hts0. simpl. split; [by left | done]. }
  pose proof (max_completion_ts_upper _ _ Hmax) as Hupper.
  apply max_completion_ts_elem in Hmax as (bm & Hbm & <-).
  apply elem_of_resolved_builds in Hbm as (pm & Hpm).
  specialize (Hcov _ _ Hpm).
  destruct Htight as [Hzero|(p & b & Hb & Hts)]; [lia|].
  assert (b ∈ resolved_builds fetched) as Hbin by (apply elem_of_resolved_builds; eauto).
  specialize (Hupper b Hbin). lia.
Qed.

Lemma basis_event_ts_is_exact_witness :
  ∃ st,
    _determine_basis_brew_event Scenario.two_arches (Scenario.two_arches_params false)
      Scenario.aarch64_first initial_state = Ok st ∧
    max_completion_ts (resolved_builds st) = Some 2000 ∧
    basis_event_ts st = Z.max 0 (2000 + 60 * 5).
Proof.
  eexists. split; [vm_compute; reflexivity|]. split; [vm_compute; reflexivity|].
  apply (basis_event_ts_is_exact Scenario.two_arches (Scenario.two_arches_params false)
           Scenario.aarch64_first).
  - apply payloads_agree_check. apply (bool_decide_unpack _). vm_compute. exact I.
  - apply (bool_decide_unpack _). vm_compute. exact I.
  - vm_compute. reflexivity.
  - vm_compute. reflexivity.
Defined.

(** ** Further properties of the RHCOS step *)

(** ** More on the RHCOS containers *)

Lemma rhcos_pullspec_primary st tag arch :
  is_Some (rhcos_pullspec st tag arch) ↔
  ∃ by_arch, rhcos_by_tag st !! tag = Some by_arch ∧ is_Some (by_arch !! arch).
Proof.
  unfold rhcos_pullspec. destruct (rhcos_by_tag st !! tag) as [by_arch|]; simpl.
  - split; [by exists by_arch | by intros (? & [= <-] & ?)].
  - split; [by intros [? ?] | by intros (? & ? & _)].
Qed.

Lemma rhcos_container_for_tag_pullspec arch rhcos_meta st tag st' :
  rhcos_container_for_tag arch rhcos_meta st tag = Ok st' →
  ∃ image digest,
    rhcos_meta !! build_metadata_key tag = Some (image, digest) ∧
    rhcos_version st' = rhcos_version st ∧
    ∀ name arch',
      rhcos_pullspec st' name arch' =
        if bool_decide (name = rhcos_name tag ∧ arch' = arch)
        then Some (image +:+ "@" +:+ digest) else rhcos_pullspec st name arch'.
Proof.
  unfold rhcos_container_for_tag.
  destruct (rhcos_meta !! build_metadata_key tag) as [[image digest]|]; [|done].
  destruct (rhcos_by_tag st !! rhcos_name tag) as [by_arch|] eqn:Hby; [|done].
  intros [= <-]. exists image, digest. split; [done|]. split; [done|].
  intros name arch'.
  replace by_arch with (default ∅ (rhcos_by_tag st !! rhcos_name tag)) by (by rewrite Hby).
  apply (rhcos_pullspec_insert st (rhcos_name tag) arch).
Qed.

(** What the inner loop over the container configs leaves behind. *)
Lemma rhcos_container_tags_pullspec arch rhcos_meta (configs : list RhcosContainerConfig)
    st st' :
  for_each (rhcos_container_for_tag arch rhcos_meta) st configs = Ok st' →
  rhcos_version st' = rhcos_version st ∧
  ∀ name arch',
    (rhcos_pullspec st' name arch' = rhcos_pullspec st name arch' ∧
     ¬ (arch' = arch ∧ name ∈ rhcos_name <$> configs)) ∨
    (arch' = arch ∧
     ∃ tag image digest,
       tag ∈ configs ∧ rhcos_name tag = name ∧
       rhcos_meta !! build_metadata_key tag = Some (image, digest) ∧
       rhcos_pullspec st' name arch' = Some (image +:+ "@" +:+ digest)).
Proof.
  revert st. induction configs as [|c configs IH]; intros st Hrun.
  { injection Hrun as <-. split; [done|]. intros name arch'. left. split; [done|].
    by intros [_ []%elem_of_nil]. }
  rewrite for_each_cons in Hrun. apply bind_Ok in Hrun as (s1 & Hstep & Hrest).
  destruct (IH _ Hrest) as [Hv IHp].
  apply rhcos_container_for_tag_pullspec in Hstep as (image & digest & Hmeta & Hv1 & Hs1).
  split; [congruence|]. intros name arch'.
  destruct (IHp name arch') as [[Heq Hnot]|(-> & t & i & d & Ht & Hname & Hm & Hval)].
  - rewrite Heq, Hs1. case_bool_decide as Hc.
    + destruct Hc as [-> ->]. right. split; [done|].
      exists c, image, digest. split; [by left | done].
    + left. split; [done|]. intros [-> [->|?]%elem_of_cons]; [by apply Hc | by apply Hnot].
  - right. split; [done|]. exists t, i, d. split; [by right | done].
Qed.

Lemma rhcos_container_for_arch_strict rt params st arch st' :
  custom params = false →
  rhcos_container_for_arch rt params st arch = Ok st' →
  rhcos_version st' = rhcos_version st ∧
  ((is_Some (rhcos_pullspec st (rhcos_get_primary_container_name rt) arch) ∧ st' = st) ∨
   (rhcos_pullspec st (rhcos_get_primary_container_name rt) arch = None ∧
    rhcos_version st ≠ "" ∧
    ∀ name arch',
      (rhcos_pullspec st' name arch' = rhcos_pullspec st name arch' ∧
       ¬ (arch' = arch ∧ name ∈ rhcos_name <$> rhcos_get_container_configs rt)) ∨
      (arch' = arch ∧
       ∃ tag image digest,
         tag ∈ rhcos_get_container_configs rt ∧ rhcos_name tag = name ∧
         rhcos_meta_json rt (rhcos_version st) arch !! build_metadata_key tag =
           Some (image, digest) ∧
         rhcos_pullspec st' name arch' = Some (image +:+ "@" +:+ digest)))).
Proof.
  intros Hcustom. unfold rhcos_container_for_arch. rewrite Hcustom.
  destruct (rhcos_by_tag st !! rhcos_get_primary_container_name rt) as [by_arch|] eqn:Hby;
    [|done].
  assert (rhcos_pullspec st (rhcos_get_primary_container_name rt) arch = by_arch !! arch)
    as Hp by (unfold rhcos_pullspec; by rewrite Hby).
  case_bool_decide as Hin.
  - intros [= <-]. split; [done|]. left. by rewrite Hp.
  - case_bool_decide as Hv; [done|]. intros Hrun.
    apply rhcos_container_tags_pullspec in Hrun as [Hv' Hrun]. split; [done|].
    right. split; [|done]. rewrite Hp. by destruct (by_arch !! arch); [destruct Hin|].
Qed.



Lemma rhcos_container_for_arch_custom rt params st arch by_arch :
  custom params = true →
  rhcos_by_tag st !! rhcos_get_primary_container_name rt = Some by_arch →
  rhcos_container_for_arch rt params st arch =
    Ok (if decide (by_arch !! arch = None)
        then log INFO (RhcosIgnoredForCustom (rhcos_get_primary_container_name rt) arch) st
        else st).
Proof.
  intros Hcustom Hby. unfold rhcos_container_for_arch. cbv zeta. rewrite Hby, Hcustom.
  case_bool_decide as Hin; case_decide as Hnone; try done.
  - rewrite Hnone in Hin. by destruct Hin.
  - destruct (by_arch !! arch); [by destruct Hin | done].
Qed.

(** X5.  With [custom], the RHCOS step changes nothing but the log, which
    gets one line per group architecture without a primary image.  It
    still needs the primary tag among the tags found in the payloads: with
    or without [custom], a group with an architecture and no primary tag on
    record ends the run with a [KeyError]. *)
Theorem rhcos_containers_custom rt params st :
  (∀ by_arch,
     custom params = true →
     rhcos_by_tag st !! rhcos_get_primary_container_name rt = Some by_arch →
     ∃ st',
       _get_rhcos_container rt params st = Ok st' ∧
       rhcos_by_tag st' = rhcos_by_tag st ∧
       component_image_builds st' = component_image_builds st ∧
       logger st' =
         reverse ((λ arch, (INFO, RhcosIgnoredForCustom (rhcos_get_primary_container_name rt) arch))
                    <$> filter (λ arch, by_arch !! arch = None) (group_arches rt))
         ++ logger st) ∧
  (group_arches rt ≠ [] →
   rhcos_by_tag st !! rhcos_get_primary_container_name rt = None →
   _get_rhcos_container rt params st = Exit (KeyError (rhcos_get_primary_container_name rt))).
Proof.
  split.
  - intros by_arch Hcustom Hby. unfold _get_rhcos_container.
    revert st Hby. induction (group_arches rt) as [|a arches IH]; intros st Hby.
    { exists st. done. }
    rewrite for_each_cons, (rhcos_container_for_arch_custom _ _ _ _ _ Hcustom Hby).
    rewrite filter_cons. case_decide as Hin.
    + simpl.
      destruct (IH (log INFO (RhcosIgnoredForCustom (rhcos_get_primary_container_name rt) a) st))
        as (st' & Hrun & Hr & Hb & Hl); [done|].
      exists st'. split; [done|]. split; [done|]. split; [done|].
      rewrite Hl. simpl. rewrite reverse_cons, <- app_assoc. done.
    + simpl. by apply IH.
  - intros Harches Hnone. unfold _get_rhcos_container.
    destruct (group_arches rt) as [|a arches]; [done|].
    rewrite for_each_cons. unfold rhcos_container_for_arch. cbv zeta. by rewrite Hnone.
Qed.

Lemma rhcos_containers_custom_witness :
  (∃ st',
     _get_rhcos_container Scenario.two_arches (Scenario.two_arches_params true)
       (Scenario.fetched Scenario.two_arches true) = Ok st' ∧
     rhcos_by_tag st' = rhcos_by_tag (Scenario.fetched Scenario.two_arches true) ∧
     logger st' =
       (INFO, RhcosIgnoredForCustom "machine-os-content" "s390x")
       :: logger (Scenario.fetched Scenario.two_arches true)) ∧
  _get_rhcos_container Scenario.two_arches (Scenario.two_arches_params false) initial_state =
    Exit (KeyError "machine-os-content").
Proof.
  split.
  - destruct (rhcos_containers_custom Scenario.two_arches (Scenario.two_arches_params true)
                (Scenario.fetched Scenario.two_arches true)) as [Hcustom _].
    destruct (Hcustom {[ "x86_64" := "rhcos@x86_64"; "aarch64" := "rhcos@aarch64" ]})
      as (st' & Hrun & Hrhcos & _ & Hlog);
      [reflexivity | vm_compute; reflexivity |].
    exists st'. split; [exact Hrun|]. split; [exact Hrhcos|].
    rewrite Hlog. vm_compute. reflexivity.
  - apply (rhcos_containers_custom Scenario.two_arches (Scenario.two_arches_params false)
             initial_state).
    + done.
    + vm_compute. reflexivity.
Defined.

Lemma rhcos_container_for_arch_exit rt params st arch :
  custom params = false →
  rhcos_pullspec st (rhcos_get_primary_container_name rt) arch = None →
  rhcos_version st = "" ∨
  (∃ tag, tag ∈ rhcos_get_container_configs rt ∧
          rhcos_meta_json rt (rhcos_version st) arch !! build_metadata_key tag = None) →
  is_Exit (rhcos_container_for_arch rt params st arch).
Proof.
  intros Hcustom Hnone Hwhy. unfold rhcos_container_for_arch, rhcos_pullspec in *.
  destruct (rhcos_by_tag st !! rhcos_get_primary_container_name rt) as [by_arch|]; [|done].
  simpl in Hnone. rewrite Hnone, Hcustom.
  rewrite bool_decide_eq_false_2 by (by intros [? ?]).
  case_bool_decide as Hversion; [done|].
  destruct Hwhy as [?|(tag & Htag & Hmeta)]; [done|].
  apply (for_each_exit _ (λ _, True) _ tag); [done|done| |done].
  intros s _. unfold rhcos_container_for_tag. by rewrite Hmeta.
Qed.

(** X26.  Without [custom], the RHCOS step ends the run when a group
    architecture has no primary RHCOS image from the payloads and either no
    RHCOS version is known or the build metadata for that version and
    architecture lacks the entry of one of the container configs. *)
Theorem strict_rhcos_step_needs_build_metadata rt params st arch :
  custom params = false →
  arch ∈ group_arches rt →
  rhcos_pullspec st (rhcos_get_primary_container_name rt) arch = None →
  rhcos_version st = "" ∨
  (∃ tag, tag ∈ rhcos_get_container_configs rt ∧
          rhcos_meta_json rt (rhcos_version st) arch !! build_metadata_key tag = None) →
  is_Exit (_get_rhcos_container rt params st).
Proof.
  intros Hcustom Harch Hnone Hwhy. unfold _get_rhcos_container.
  apply (for_each_exit _
           (λ s, rhcos_version s = rhcos_version st ∧
                 rhcos_pullspec s (rhcos_get_primary_container_name rt) arch = None)
           _ arch); [done| | |done].
  - intros s y s' _ [Hversion Hstill] Hstep.
    destruct (decide (y = arch)) as [->|Hne].
    { pose proof (rhcos_container_for_arch_exit rt params s arch Hcustom Hstill) as Hexit.
      rewrite Hstep in Hexit. destruct Hexit. by rewrite Hversion. }
    apply rhcos_container_for_arch_strict in Hstep as [Hv [[_ ->]|(_ & _ & Hchange)]];
      [by split| |done].
    split; [congruence|].
    destruct (Hchange (rhcos_get_primary_container_name rt) arch) as [[-> _]|[-> _]]; done.
  - intros s [Hversion Hstill]. apply rhcos_container_for_arch_exit; [done|done|].
    by rewrite Hversion.
Qed.

Lemma strict_rhcos_step_needs_build_metadata_witness :
  is_Exit (_get_rhcos_container Scenario.two_arches (Scenario.two_arches_params false)
             (set_rhcos_version "" (Scenario.fetched Scenario.two_arches false))) ∧
  is_Exit (_get_rhcos_container (Scenario.disparate ("foo", true))
             (Scenario.two_arches_params false)
             (set_rhcos_by_tag {[ "machine-os-content" := {[ "x86_64" := "rhcos@x86_64" ]} ]}
                (Scenario.after_x86_64 ("foo", true)))).
Proof.
  split.
  - apply (strict_rhcos_step_needs_build_metadata Scenario.two_arches
             (Scenario.two_arches_params false) _ "s390x").
    + reflexivity.
    + apply (bool_decide_unpack _). vm_compute. exact I.
    + vm_compute. reflexivity.
    + left. reflexivity.
  - apply (strict_rhcos_step_needs_build_metadata (Scenario.disparate ("foo", true))
             (Scenario.two_arches_params false) _ "aarch64").
    + reflexivity.
    + apply (bool_decide_unpack _). vm_compute. exact I.
    + vm_compute. reflexivity.
    + right. eexists. split; [by left|]. vm_compute. reflexivity.
Defined.

(** ** The command line side *)

(** ** The command line side *)

Lemma bind_Return {A B} (f : A → outcome B) (r : outcome A) (b : B) :
  r ≫= f = Return b ↔ ∃ a, r = Return a ∧ f a = Return b.
Proof.
  destruct r as [a|e]; simpl.
  - split; [eauto | by intros (? & [= ->] & ?)].
  - split; [done | by intros (? & ? & ?)].
Qed.

Lemma for_all_cons {S B} (body : S → B → outcome S) (st : S) (x : B) (l : list B) :
  for_all body st (x :: l) = body st x ≫= λ st', for_all body st' l.
Proof. done. Qed.

(** *** Strings *)

Lemma split_on_nonempty sep s : split_on sep s ≠ [].
Proof.
  destruct s as [|c s]; simpl; [done|].
  case_bool_decide; [done|]. by destruct (split_on sep s).
Qed.

(** A string splits into one part more than it has separators. *)
Lemma length_split_on sep s : length (split_on sep s) = S (count_char sep s).
Proof.
  unfold count_char. induction s as [|c s IH]; simpl; [done|].
  rewrite filter_cons. case_bool_decide as Hc.
  - rewrite decide_True by done. simpl. by rewrite IH.
  - rewrite decide_False by done.
    destruct (split_on sep s) eqn:Hs; [by apply split_on_nonempty in Hs|]. simpl in *. done.
Qed.

(** Joining the parts with the separator gives the string back. *)
Lemma concat_split_on sep s : String.concat (String sep "") (split_on sep s) = s.
Proof.
  induction s as [|c s IH]; simpl; [done|].
  destruct (split_on sep s) as [|p ps] eqn:Hs; [by apply split_on_nonempty in Hs|].
  case_bool_decide as Hc.
  - subst c. change (String sep (String.concat (String sep "") (p :: ps)) = String sep s).
    by rewrite IH.
  - rewrite <- IH. by destruct ps.
Qed.

Lemma append_assoc (s1 s2 s3 : string) : (s1 +:+ s2) +:+ s3 = s1 +:+ s2 +:+ s3.
Proof.
  induction s1 as [|c s1 IH]; [done|].
  change (String c ((s1 +:+ s2) +:+ s3) = String c (s1 +:+ s2 +:+ s3)). by f_equal.
Qed.

Lemma split_on_no_sep sep s :
  sep ∉ String.list_ascii_of_string s → split_on sep s = [s].
Proof.
  induction s as [|c s IH]; simpl; [done|]. intros Hnot.
  apply not_elem_of_cons in Hnot as [Hne Hnot].
  rewrite bool_decide_eq_false_2 by done. by rewrite IH.
Qed.

Lemma split_on_app sep s1 s2 :
  sep ∉ String.list_ascii_of_string s1 →
  split_on sep (s1 +:+ String sep s2) = s1 :: split_on sep s2.
Proof.
  induction s1 as [|c s1 IH]; simpl; intros Hnot.
  - by rewrite bool_decide_eq_true_2.
  - apply not_elem_of_cons in Hnot as [Hne Hnot].
    rewrite bool_decide_eq_false_2 by done. by rewrite IH.
Qed.

(** *** [_get_release_pullspecs] *)

Lemma dict_get_None key (items : list (string * string)) :
  dict_get key items = None ↔ key ∉ items.*1.
Proof.
  induction items as [|[k v] items IH]; simpl.
  - split; [intros _; apply not_elem_of_nil | done].
  - case_bool_decide as Hk.
    + split; [done|]. intros Hnot. destruct Hnot. subst. by left.
    + rewrite IH, not_elem_of_cons. split; [by intros ? | by intros [_ ?]].
Qed.

Lemma add_nightly_Return group acc nightly_name acc' :
  add_nightly group acc nightly_name = Return acc' →
  (isolate_nightly_name_components group nightly_name).1.1 = get_minor_version group ∧
  (nightly_arch group nightly_name ∉ (release_pullspecs acc).*1) ∧
  release_pullspecs acc' =
    release_pullspecs acc ++ [(nightly_arch group nightly_name, nightly_pullspec group nightly_name)] ∧
  reference_releases_by_arch acc' =
    <[nightly_arch group nightly_name := nightly_name]> (reference_releases_by_arch acc) ∧
  custom acc' = custom acc.
Proof.
  unfold add_nightly, nightly_arch, nightly_pullspec.
  destruct (isolate_nightly_name_components group nightly_name) as [[mm arch] priv]. simpl.
  case_bool_decide as Hmm; [done|].
  destruct (dict_get arch (release_pullspecs acc)) eqn:Hget; [done|].
  intros [= <-]. simpl. apply dict_get_None in Hget.
  split; [|done]. by destruct (decide (mm = get_minor_version group)).
Qed.

Lemma add_standard_Return group acc standard_release_name acc' :
  add_standard group acc standard_release_name = Return acc' →
  count_char "-" standard_release_name = 1%nat ∧
  (standard_arch standard_release_name ∉ (release_pullspecs acc).*1) ∧
  release_pullspecs acc' =
    release_pullspecs acc ++
      [(standard_arch standard_release_name, standard_pullspec standard_release_name)] ∧
  reference_releases_by_arch acc' = reference_releases_by_arch acc ∧
  custom acc' = custom acc.
Proof.
  unfold add_standard, standard_arch, standard_pullspec.
  pose proof (length_split_on "-" standard_release_name) as Hlen.
  destruct (split_on "-" standard_release_name) as [|version [|arch [|? ?]]]; try done.
  simpl in Hlen. case_bool_decide; [done|].
  destruct (dict_get arch (release_pullspecs acc)) eqn:Hget; [done|].
  intros [= <-]. simpl. apply dict_get_None in Hget. split; [lia | done].
Qed.

Lemma add_nightlies_Return group (names : list string) acc acc' :
  for_all (add_nightly group) acc names = Return acc' →
  release_pullspecs acc' =
    release_pullspecs acc ++ ((λ n, (nightly_arch group n, nightly_pullspec group n)) <$> names) ∧
  NoDup (nightly_arch group <$> names) ∧
  (∀ n, n ∈ names → nightly_arch group n ∉ (release_pullspecs acc).*1) ∧
  Forall (λ n, (isolate_nightly_name_components group n).1.1 = get_minor_version group) names ∧
  custom acc' = custom acc ∧
  ∀ arch name,
    reference_releases_by_arch acc' !! arch = Some name ↔
    (name ∈ names ∧ nightly_arch group name = arch) ∨
    (reference_releases_by_arch acc !! arch = Some name ∧ arch ∉ nightly_arch group <$> names).
Proof.
  revert acc. induction names as [|n names IH]; intros acc Hrun.
  { injection Hrun as <-. simpl. rewrite app_nil_r. split; [done|].
    split; [apply NoDup_nil_2|]. split; [by intros ? []%elem_of_nil|].
    split; [done|]. split; [done|]. intros arch name. split.
    - intros ?. right. split; [done | apply not_elem_of_nil].
    - by intros [[[]%elem_of_nil _]|[? _]]. }
  rewrite for_all_cons in Hrun. apply bind_Return in Hrun as (a1 & Hstep & Hrest).
  apply add_nightly_Return in Hstep as (Hmm & Hnew & Hp & Hr & Hc).
  destruct (IH _ Hrest) as (IHp & IHnodup & IHfresh & IHmm & IHc & IHr).
  assert (nightly_arch group n ∉ nightly_arch group <$> names) as Hn.
  { intros (n' & Heq & Hn')%list_elem_of_fmap. apply (IHfresh n' Hn').
    rewrite Hp, fmap_app, <- Heq. apply elem_of_app. right. by left. }
  split; [|split; [|split; [|split; [|split]]]].
  - rewrite IHp, Hp, <- app_assoc. done.
  - rewrite fmap_cons. by apply NoDup_cons.
  - intros n' [->|Hn']%elem_of_cons; [done|]. intros Hin. apply (IHfresh n' Hn').
    rewrite Hp, fmap_app. apply elem_of_app. by left.
  - by constructor.
  - congruence.
  - intros arch name. rewrite IHr, Hr. split.
    + intros [[Hin <-]|[Hlook Hnot]]; [left; split; [by right | done]|].
      apply lookup_insert_Some in Hlook as [[<- <-]|[Hne Hlook]].
      * left. split; [by left | done].
      * right. split; [done|]. rewrite fmap_cons, not_elem_of_cons. done.
    + intros [[[->|Hin]%elem_of_cons <-]|[Hlook Hnot]].
      * right. split; [|done]. by rewrite lookup_insert_eq.
      * by left.
      * rewrite fmap_cons, not_elem_of_cons in Hnot. destruct Hnot as [Hne Hnot].
        right. split; [|done]. by rewrite lookup_insert_ne.
Qed.

Lemma add_standards_Return group (names : list string) acc acc' :
  for_all (add_standard group) acc names = Return acc' →
  release_pullspecs acc' =
    release_pullspecs acc ++ ((λ n, (standard_arch n, standard_pullspec n)) <$> names) ∧
  NoDup (standard_arch <$> names) ∧
  (∀ n, n ∈ names → standard_arch n ∉ (release_pullspecs acc).*1) ∧
  Forall (λ n, count_char "-" n = 1%nat) names ∧
  reference_releases_by_arch acc' = reference_releases_by_arch acc ∧
  custom acc' = custom acc.
Proof.
  revert acc. induction names as [|n names IH]; intros acc Hrun.
  { injection Hrun as <-. simpl. rewrite app_nil_r. split; [done|].
    split; [apply NoDup_nil_2|]. split; [by intros ? []%elem_of_nil|]. done. }
  rewrite for_all_cons in Hrun. apply bind_Return in Hrun as (a1 & Hstep & Hrest).
  apply add_standard_Return in Hstep as (Hdash & Hnew & Hp & Hr & Hc).
  destruct (IH _ Hrest) as (IHp & IHnodup & IHfresh & IHdash & IHr & IHc).
  assert (standard_arch n ∉ standard_arch <$> names) as Hn.
  { intros (n' & Heq & Hn')%list_elem_of_fmap. apply (IHfresh n' Hn').
    rewrite Hp, fmap_app, <- Heq. apply elem_of_app. right. by left. }
  split; [|split; [|split; [|split]]].
  - rewrite IHp, Hp, <- app_assoc. done.
  - rewrite fmap_cons. by apply NoDup_cons.
  - intros n' [->|Hn']%elem_of_cons; [done|]. intros Hin. apply (IHfresh n' Hn').
    rewrite Hp, fmap_app. apply elem_of_app. by left.
  - by constructor.
  - split; congruence.
Qed.

(** X6.  When [_get_release_pullspecs] returns, [release_pullspecs] holds
    one entry per given release, nightlies first and in the order given,
    under pairwise different architectures: a second release for an
    architecture is never accepted.  [reference_releases_by_arch] maps the
    architectures of the nightlies to their names and holds nothing for a
    standard release. *)
Theorem release_pullspecs_one_per_release group args params :
  _get_release_pullspecs group args = Return params →
  custom params = Cli.custom args ∧
  release_pullspecs params =
    ((λ n, (nightly_arch group n, nightly_pullspec group n)) <$> Cli.nightlies args) ++
    ((λ n, (standard_arch n, standard_pullspec n)) <$> Cli.standards args) ∧
  NoDup (release_pullspecs params).*1 ∧
  length (release_pullspecs params) =
    (length (Cli.nightlies args) + length (Cli.standards args))%nat ∧
  (∀ arch name,
     reference_releases_by_arch params !! arch = Some name ↔
     name ∈ Cli.nightlies args ∧ nightly_arch group name = arch).
Proof.
  unfold _get_release_pullspecs. intros (acc & Hn & Hs)%bind_Return.
  apply add_nightlies_Return in Hn as (Hp1 & Hnodup1 & _ & _ & Hc1 & Hr1).
  apply add_standards_Return in Hs as (Hp2 & Hnodup2 & Hfresh2 & _ & Hr2 & Hc2).
  simpl in Hp1. rewrite Hp1 in Hp2, Hfresh2.
  split; [by rewrite Hc2, Hc1|]. split; [done|]. split; [|split].
  - rewrite Hp2, fmap_app, <- !list_fmap_compose. apply NoDup_app.
    split; [exact Hnodup1|]. split; [|exact Hnodup2].
    intros arch Hin (n & -> & Hn)%list_elem_of_fmap.
    apply (Hfresh2 n Hn). by rewrite <- list_fmap_compose.
  - by rewrite Hp2, length_app, !length_fmap.
  - intros arch name. rewrite Hr2, Hr1. split.
    + intros [?|[Hl _]]; [done|]. simpl in Hl. by rewrite lookup_empty in Hl.
    + intros ?. by left.
Qed.

Lemma release_pullspecs_one_per_release_witness :
  ∃ params,
    _get_release_pullspecs CliScenario.group (CliScenario.from_standards ["4.16.1-aarch64"]) =
      Return params ∧
    release_pullspecs params =
      [("x86_64", "registry.ci.openshift.org/ocp/release:4.16.0-0.nightly-2024-05-01-000000");
       ("aarch64", "quay.io/openshift-release-dev/ocp-release:4.16.1-aarch64")] ∧
    NoDup (release_pullspecs params).*1 ∧
    (∀ name, reference_releases_by_arch params !! "x86_64" = Some name ↔
             name ∈ [CliScenario.nightly_x86_64] ∧
             nightly_arch CliScenario.group name = "x86_64").
Proof.
  eexists. split; [vm_compute; reflexivity|].
  destruct (release_pullspecs_one_per_release CliScenario.group
              (CliScenario.from_standards ["4.16.1-aarch64"]) _ eq_refl)
    as (_ & Hpullspecs & Hnodup & _ & Hreference).
  split; [vm_compute; reflexivity|]. split; [exact Hnodup|].
  intros name. apply Hreference.
Defined.

(** X7.  A standard release name must hold exactly one dash: with none, or
    with more than one as in a release candidate version, the unpacking of
    [split('-')] raises before anything is looked at, and
    [_get_release_pullspecs] does not return. *)
Theorem standard_release_name_needs_one_dash group args standard_release_name :
  standard_release_name ∈ Cli.standards args →
  count_char "-" standard_release_name ≠ 1%nat →
  (∀ acc, add_standard group acc standard_release_name =
            Raise (ValueErrorUnpack standard_release_name)) ∧
  ∀ params, _get_release_pullspecs group args ≠ Return params.
Proof.
  intros Hin Hdash. split.
  - intros acc. unfold add_standard.
    pose proof (length_split_on "-" standard_release_name) as Hlen.
    destruct (split_on "-" standard_release_name) as [|version [|arch [|? ?]]]; try done.
    simpl in Hlen. lia.
  - intros params (acc & _ & Hs)%bind_Return.
    apply add_standards_Return in Hs as (_ & _ & _ & Hall & _).
    rewrite Forall_forall in Hall. by apply Hdash, Hall.
Qed.

Lemma standard_release_name_needs_one_dash_witness :
  add_standard CliScenario.group (no_releases false) "4.16.0-rc.3-x86_64" =
    Raise (ValueErrorUnpack "4.16.0-rc.3-x86_64") ∧
  ∀ params,
    _get_release_pullspecs CliScenario.group
      (CliScenario.from_standards ["4.16.1-aarch64"; "4.16.0-rc.3-x86_64"]) ≠ Return params.
Proof.
  destruct (standard_release_name_needs_one_dash CliScenario.group
              (CliScenario.from_standards ["4.16.1-aarch64"; "4.16.0-rc.3-x86_64"])
              "4.16.0-rc.3-x86_64") as [Hstep Hrun].
  - apply (bool_decide_unpack _). vm_compute. exact I.
  - vm_compute. lia.
  - split; [apply Hstep | exact Hrun].
Defined.

(** X8.  A standard release name [X.Y.rest-ARCH], with no dot in [X] and
    [Y] and no dash in [X], [Y], [rest] and [ARCH], is read as version
    [X.Y.rest] for architecture [ARCH]: it is refused when [X.Y] is not the
    minor version of the group, refused when the architecture already has a
    release, and otherwise entered under [ARCH] with the pullspec of the
    release in the official repository. *)
Theorem standard_release_name_is_parsed group acc major minor rest arch :
  let standard_release_name := major +:+ "." +:+ minor +:+ "." +:+ rest +:+ "-" +:+ arch in
  "."%char ∉ String.list_ascii_of_string major →
  "."%char ∉ String.list_ascii_of_string minor →
  "-"%char ∉ String.list_ascii_of_string (major +:+ "." +:+ minor +:+ "." +:+ rest) →
  "-"%char ∉ String.list_ascii_of_string arch →
  add_standard group acc standard_release_name =
    if bool_decide (major +:+ "." +:+ minor ≠ get_minor_version group) then
      Raise (ExitReleaseMajorMinor standard_release_name)
    else
      match dict_get arch (release_pullspecs acc) with
      | Some existing => Raise (ValueErrorAlreadyIncluded standard_release_name existing)
      | None =>
              Return {| custom := custom acc;
                    release_pullspecs :=
                      release_pullspecs acc ++
                        [(arch, "quay.io/openshift-release-dev/ocp-release:" +:+
                                standard_release_name)];
                    reference_releases_by_arch := reference_releases_by_arch acc |}
      end.
Proof.
  intros name Hmajor Hminor Hversion Harch. unfold add_standard.
  assert (split_on "-" name = [major +:+ "." +:+ minor +:+ "." +:+ rest; arch]) as ->.
  { unfold name.
    replace (major +:+ "." +:+ minor +:+ "." +:+ rest +:+ "-" +:+ arch)
      with ((major +:+ "." +:+ minor +:+ "." +:+ rest) +:+ String "-" arch).
    - rewrite split_on_app by done. by rewrite split_on_no_sep.
    - by rewrite !append_assoc. }
  assert (String.concat "." (take 2 (split_on "." (major +:+ "." +:+ minor +:+ "." +:+ rest))) =
          major +:+ "." +:+ minor) as ->.
  { change (major +:+ "." +:+ minor +:+ "." +:+ rest)
      with (major +:+ String "." (minor +:+ String "." rest)).
    rewrite split_on_app by done. rewrite split_on_app by done.
    destruct (split_on "." rest); done. }
  done.
Qed.

Lemma standard_release_name_is_parsed_witness :
  add_standard CliScenario.group (no_releases false) "4.16.1-aarch64" =
    Return {| custom := false;
              release_pullspecs :=
                [("aarch64", "quay.io/openshift-release-dev/ocp-release:4.16.1-aarch64")];
              reference_releases_by_arch := ∅ |} ∧
  add_standard CliScenario.group (no_releases false) "4.15.1-aarch64" =
    Raise (ExitReleaseMajorMinor "4.15.1-aarch64").
Proof.
  split.
  - apply (standard_release_name_is_parsed CliScenario.group (no_releases false)
             "4" "16" "1" "aarch64");
      apply (bool_decide_unpack _); vm_compute; exact I.
  - apply (standard_release_name_is_parsed CliScenario.group (no_releases false)
             "4" "15" "1" "aarch64");
      apply (bool_decide_unpack _); vm_compute; exact I.
Defined.

(** *** [_validate_params] and [_calculate_previous_list] *)

Lemma _validate_params_Return group args :
  _validate_params group args = Return () →
  Cli.runtime_assembly args = "stream" ∧
  ¬ (Cli.nightlies args = [] ∧ Cli.standards args = []) ∧
  (Cli.auto_previous args = true → Cli.previous_list args = []) ∧
  (assembly_type group args = CUSTOM →
   Cli.auto_previous args = false ∧ Cli.previous_list args = [] ∧
   truthy_str (Cli.in_flight args) = false) ∧
  (pre_ga_mode group args = "prerelease" →
   assembly_type group args = PREVIEW ∨ assembly_type group args = CANDIDATE) ∧
  (assembly_type group args = STANDARD → new_payload_versioning_scheme group = true →
   contains_char "-" (Cli.gen_assembly_name args) = true).
Proof.
  unfold _validate_params.
  case_bool_decide as Hstream; [done|].
  case_bool_decide as Hnone; [done|].
  destruct (Cli.auto_previous args && bool_decide (Cli.previous_list args ≠ [])) eqn:Hboth;
    [done|].
  destruct (bool_decide (assembly_type group args ∈ [CUSTOM]) && _) eqn:Hcustom; [done|].
  destruct (bool_decide (pre_ga_mode group args = "prerelease") && _) eqn:Hpre; [done|].
  destruct (bool_decide (assembly_type group args = STANDARD) && _ && _) eqn:Hname; [done|].
  intros _. split; [done|].
  split; [done|]. split; [|split; [|split]].
  - intros Hauto. rewrite Hauto in Hboth. simpl in Hboth.
    apply bool_decide_eq_false in Hboth.
    destruct (Cli.previous_list args); [done|]. by destruct Hboth.
  - intros Htype. rewrite bool_decide_eq_true_2 in Hcustom by (rewrite Htype; by left).
    simpl in Hcustom. apply orb_false_iff in Hcustom as [[Ha Hp]%orb_false_iff Hf].
    apply bool_decide_eq_false in Hp. split; [done|]. split; [|done].
    destruct (Cli.previous_list args); [done|]. by destruct Hp.
  - intros Hmode. rewrite bool_decide_eq_true_2 in Hpre by done. simpl in Hpre.
    apply bool_decide_eq_false in Hpre.
    destruct (assembly_type group args); try (by left); try (by right);
      exfalso; apply Hpre; rewrite !not_elem_of_cons; repeat split; try done;
      apply not_elem_of_nil.
  - intros Htype Hscheme. rewrite bool_decide_eq_true_2, Hscheme in Hname by done.
    simpl in Hname. by apply negb_false_iff in Hname.
Qed.

Section PreviousListProperties.
Context {VersionInfo : Type} `{EqDecision VersionInfo}.
Variable parse : string → option VersionInfo.
Variable version_lt : relation VersionInfo.
Context `{∀ x y, Decision (version_lt x y)}.

Lemma parse_versions_Return versions vs :
  parse_versions parse versions = Return vs →
  vs = omap parse versions ∧ Forall (λ version, is_Some (parse version)) versions.
Proof.
  revert vs. induction versions as [|version versions IH]; intros vs; simpl.
  { by intros [= <-]. }
  unfold parse_version. destruct (parse version) as [v|] eqn:Hv; [|done]. simpl.
  destruct (parse_versions parse versions) as [vs'|] eqn:Hvs; [|done]. simpl.
  intros [= <-]. destruct (IH _ eq_refl) as [-> Hall].
  split; [done|]. constructor; [by rewrite Hv | done].
Qed.

Lemma parse_versions_total versions :
  Forall (λ version, is_Some (parse version)) versions →
  parse_versions parse versions = Return (omap parse versions).
Proof.
  induction 1 as [|version versions [v Hv] _ IH]; simpl; [done|].
  unfold parse_version. rewrite Hv. simpl. by rewrite IH.
Qed.

Lemma calculate_loop_Return group args arches acc acc' :
  for_all (λ final_previous_list arch,
             vs ← parse_versions parse
                    (get_release_calc_previous group (auto_previous_version group args) arch);
             Return (final_previous_list ++ vs)) acc arches = Return acc' →
  acc' = acc ++ calculated parse group args arches ∧
  Forall (λ arch,
            Forall (λ version, is_Some (parse version))
              (get_release_calc_previous group (auto_previous_version group args) arch))
    arches.
Proof.
  revert acc. induction arches as [|arch arches IH]; intros acc; simpl.
  { intros [= <-]. by rewrite app_nil_r. }
  destruct (parse_versions parse _) as [vs|] eqn:Hvs; [|done]. simpl.
  intros Hrest. apply IH in Hrest as [-> Hall].
  apply parse_versions_Return in Hvs as [-> Hvs].
  split; [|by constructor]. unfold calculated. simpl. by rewrite <- app_assoc.
Qed.

Lemma calculate_loop_total group args arches acc :
  Forall (λ arch,
            Forall (λ version, is_Some (parse version))
              (get_release_calc_previous group (auto_previous_version group args) arch))
    arches →
  for_all (λ final_previous_list arch,
             vs ← parse_versions parse
                    (get_release_calc_previous group (auto_previous_version group args) arch);
             Return (final_previous_list ++ vs)) acc arches =
    Return (acc ++ calculated parse group args arches).
Proof.
  intros Hall. revert acc. induction Hall as [|arch arches Harch _ IH]; intros acc; simpl.
  { by rewrite app_nil_r. }
  rewrite (parse_versions_total _ Harch). simpl. rewrite IH.
  unfold calculated. simpl. by rewrite <- app_assoc.
Qed.

Lemma _calculate_previous_list_Return group args final_previous_list :
  _calculate_previous_list parse version_lt group args = Return final_previous_list →
  final_previous_list =
    merge_sort (precedes version_lt) (remove_dups (previous_versions parse group args)).
Proof.
  unfold _calculate_previous_list, previous_versions.
  intros (s0 & H0 & (s1 & H1 & [= <-])%bind_Return)%bind_Return.
  assert (s0 = if truthy_str (Cli.in_flight args)
               then omap parse [default "" (Cli.in_flight args)] else []) as Hs0.
  { destruct (truthy_str (Cli.in_flight args)); [|by injection H0].
    unfold parse_version in H0. simpl.
    destruct (parse _); [by injection H0 | done]. }
  rewrite <- Hs0. do 2 f_equal.
  case_bool_decide.
  - apply bind_Return in H1 as (vs & Hvs & [= <-]).
    by apply parse_versions_Return in Hvs as [-> _].
  - destruct (Cli.auto_previous args).
    + by apply calculate_loop_Return in H1 as [-> _].
    + injection H1 as <-. by rewrite app_nil_r.
Qed.

(** X9.  Once [_validate_params] has accepted the parameters of a custom
    assembly, [_calculate_previous_list] gives the empty list, whatever the
    upgrade graph holds: nothing is parsed and no architecture is asked
    about. *)
Theorem validated_custom_assembly_has_no_previous_list group args :
  _validate_params group args = Return () →
  assembly_type group args = CUSTOM →
  _calculate_previous_list parse version_lt group args = Return [].
Proof.
  intros Hvalid Htype.
  apply _validate_params_Return in Hvalid as (_ & _ & _ & Hcustom & _).
  destruct (Hcustom Htype) as (Hauto & Hprev & Hflight).
  unfold _calculate_previous_list. rewrite Hflight, Hauto, Hprev. done.
Qed.

Context `{!StrictOrder version_lt} `{!Trichotomy version_lt}.

Local Instance precedes_total : Total (precedes version_lt).
Proof.
  intros x y. unfold precedes. destruct (decide (version_lt y x)) as [Hyx|]; [|by left].
  right. intros Hxy. by apply (irreflexivity version_lt x); transitivity y.
Qed.

Local Instance precedes_transitive : Transitive (precedes version_lt).
Proof.
  intros x y z Hxy Hyz Hzx. unfold precedes in *.
  destruct (trichotomy version_lt y x) as [?|[->|Hlt]]; [done|done|].
  apply Hyz. by transitivity x.
Qed.

Local Instance precedes_antisym : AntiSymm (=) (precedes version_lt).
Proof.
  intros x y Hxy Hyx. unfold precedes in *.
  by destruct (trichotomy version_lt x y) as [?|[?|?]].
Qed.

Lemma StronglySorted_precedes_NoDup (l : list VersionInfo) :
  StronglySorted (precedes version_lt) l → NoDup l → StronglySorted version_lt l.
Proof.
  induction 1 as [|x l Hsorted IH Hall]; intros Hnodup; [constructor|].
  apply NoDup_cons in Hnodup as [Hx Hnodup]. constructor; [by apply IH|].
  rewrite Forall_forall in *. intros y Hy.
  destruct (trichotomy version_lt x y) as [?|[->|Hlt]]; [done|done|].
  by destruct (Hall y Hy).
Qed.

(** X10.  The previous list is strictly increasing, so it holds no version
    twice, and it holds exactly the in-flight version, the versions of
    [--previous], and, only when [--previous] gave none and
    [--auto-previous] is set, what the upgrade graph gives for the
    architectures of the group. *)
Theorem previous_list_is_the_sorted_set_of_its_sources group args final_previous_list :
  _calculate_previous_list parse version_lt group args = Return final_previous_list →
  StronglySorted version_lt final_previous_list ∧
  ∀ v, v ∈ final_previous_list ↔
    (∃ version, Cli.in_flight args = Some version ∧ version ≠ "" ∧ parse version = Some v) ∨
    (∃ version, version ∈ Cli.previous_list args ∧ parse version = Some v) ∨
    (Cli.previous_list args = [] ∧ Cli.auto_previous args = true ∧
     ∃ arch version,
       arch ∈ runtime_arches group ∧
       version ∈ get_release_calc_previous group (auto_previous_version group args) arch ∧
       parse version = Some v).
Proof.
  intros Hrun. apply _calculate_previous_list_Return in Hrun as ->. split.
  - apply StronglySorted_precedes_NoDup.
    + apply StronglySorted_merge_sort; apply _.
    + rewrite merge_sort_Permutation. apply NoDup_remove_dups.
  - intros v. rewrite merge_sort_Permutation, elem_of_remove_dups.
    unfold previous_versions. rewrite elem_of_app.
    match goal with
    | |- ?A ∨ ?B ↔ ?C ∨ ?D => cut ((A ↔ C) ∧ (B ↔ D)); [tauto | split]
    end.
    + unfold truthy_str. destruct (Cli.in_flight args) as [version|]; simpl.
      * case_bool_decide as Hne; simpl.
        -- destruct (parse version) as [v'|] eqn:Hv; simpl.
           ++ rewrite list_elem_of_singleton. split.
              ** intros ->. by exists version.
              ** intros (? & [= <-] & _ & ?). congruence.
           ++ split; [by intros ?%elem_of_nil|]. intros (? & [= <-] & _ & ?). congruence.
        -- split; [by intros ?%elem_of_nil|]. by intros (? & [= <-] & ? & _).
      * split; [by intros ?%elem_of_nil|]. by intros (? & ? & _).
    + case_bool_decide as Hprev.
      * rewrite list_elem_of_omap. split; [by left|].
        intros [?|(Hnil & _)]; [done|]. by destruct Hprev.
      * assert (Cli.previous_list args = []) as Hnil.
        { destruct (Cli.previous_list args); [done|]. by destruct Hprev. }
        rewrite Hnil. destruct (Cli.auto_previous args).
        -- unfold calculated. rewrite list_elem_of_bind. split.
           ++ intros (arch & (version & ? & ?)%list_elem_of_omap & ?).
              right. split; [done|]. split; [done|]. by exists arch, version.
           ++ intros [(? & []%elem_of_nil & _)|(_ & _ & arch & version & ? & ? & ?)].
              exists arch. split; [|done]. apply list_elem_of_omap. by exists version.
        -- split; [by intros ?%elem_of_nil|].
           by intros [(? & []%elem_of_nil & _)|(_ & ? & _)].
Qed.

(** X11.  The previous list does not depend on the order of the
    architectures of the group, or on an architecture being listed more
    than once. *)
Theorem previous_list_independent_of_arch_order group args arches final_previous_list :
  (∀ arch, arch ∈ arches ↔ arch ∈ runtime_arches group) →
  _calculate_previous_list parse version_lt group args = Return final_previous_list →
  _calculate_previous_list parse version_lt (with_arches group arches) args =
    Return final_previous_list.
Proof.
  intros Harches. unfold _calculate_previous_list.
  change (auto_previous_version (with_arches group arches) args)
    with (auto_previous_version group args).
  change (runtime_arches (with_arches group arches)) with arches.
  change (get_release_calc_previous (with_arches group arches))
    with (get_release_calc_previous group).
  intros (s0 & -> & (s1 & H1 & [= <-])%bind_Return)%bind_Return.
  cbn [mbind outcome_bind].
  case_bool_decide as Hprev; [by rewrite H1|].
  destruct (Cli.auto_previous args); [|by rewrite H1].
  apply calculate_loop_Return in H1 as [-> Hall].
  rewrite calculate_loop_total.
  - cbn [mbind outcome_bind]. f_equal.
    apply (Sorted_unique (precedes version_lt)).
    + apply Sorted_merge_sort. apply _.
    + apply Sorted_merge_sort. apply _.
    + rewrite !merge_sort_Permutation.
      apply NoDup_Permutation; [apply NoDup_remove_dups..|].
      intros v. rewrite !elem_of_remove_dups, !elem_of_app. unfold calculated.
      rewrite !list_elem_of_bind. by setoid_rewrite Harches.
  - rewrite Forall_forall in *. intros arch Harch. by apply Hall, Harches.
Qed.

End PreviousListProperties.

Lemma validated_custom_assembly_has_no_previous_list_witness :
  _validate_params CliScenario.group (CliScenario.args "test" true "" None false) = Return () ∧
  _calculate_previous_list CliScenario.parse N.lt CliScenario.group
    (CliScenario.args "test" true "" None false) = Return [].
Proof.
  split; [reflexivity|].
  apply validated_custom_assembly_has_no_previous_list; reflexivity.
Defined.

Lemma previous_list_is_the_sorted_set_of_its_sources_witness :
  let args := CliScenario.args "4.16.1" false "" (Some "4.16.0") true in
  _calculate_previous_list CliScenario.parse N.lt CliScenario.group args =
    Return [41502; 41503; 41504; 41600]%N ∧
  StronglySorted N.lt [41502; 41503; 41504; 41600]%N ∧
  ∀ v, v ∈ [41502; 41503; 41504; 41600]%N ↔
    (∃ version, Cli.in_flight args = Some version ∧ version ≠ "" ∧
                CliScenario.parse version = Some v) ∨
    (∃ version, version ∈ Cli.previous_list args ∧ CliScenario.parse version = Some v) ∨
    (Cli.previous_list args = [] ∧ Cli.auto_previous args = true ∧
     ∃ arch version,
       arch ∈ runtime_arches CliScenario.group ∧
       version ∈ get_release_calc_previous CliScenario.group
                   (auto_previous_version CliScenario.group args) arch ∧
       CliScenario.parse version = Some v).
Proof.
  intros args. split; [vm_compute; reflexivity|].
  assert (Trichotomy N.lt) as Htrichotomy by (intros x y; lia).
  apply (previous_list_is_the_sorted_set_of_its_sources CliScenario.parse N.lt
           CliScenario.group args).
  vm_compute. reflexivity.
Defined.

Lemma previous_list_independent_of_arch_order_witness :
  _calculate_previous_list CliScenario.parse N.lt
    (with_arches CliScenario.group ["aarch64"; "x86_64"; "aarch64"])
    (CliScenario.args "4.16.1" false "" (Some "4.16.0") true) =
  Return [41502; 41503; 41504; 41600]%N.
Proof.
  assert (Trichotomy N.lt) as Htrichotomy by (intros x y; lia).
  apply (previous_list_independent_of_arch_order CliScenario.parse N.lt CliScenario.group
           (CliScenario.args "4.16.1" false "" (Some "4.16.0") true)
           ["aarch64"; "x86_64"; "aarch64"] [41502; 41503; 41504; 41600]%N).
  - intros arch. change (runtime_arches CliScenario.group) with ["x86_64"; "aarch64"].
    rewrite !elem_of_cons. tauto.
  - vm_compute. reflexivity.
Defined.

(** *** [_get_advisories_release_jira] *)

Lemma is_nat_pretty_N_char (d : N) :
  (d < 10)%N → Ascii.is_nat (pretty_N_char d) = Some (N.to_nat d).
Proof.
  intros Hd.
  assert (d = 0 ∨ d = 1 ∨ d = 2 ∨ d = 3 ∨ d = 4 ∨ d = 5 ∨ d = 6 ∨ d = 7 ∨ d = 8 ∨ d = 9)%N
    as Hcases by lia.
  repeat destruct Hcases as [->|Hcases]; try done. by subst.
Qed.

Lemma is_digit_pretty_N_char (d : N) : is_digit (pretty_N_char d) = true.
Proof.
  unfold is_digit, pretty_N_char. apply bool_decide_eq_true.
  repeat case_match; by eexists.
Qed.

(** The digits of a number, read back, give the number. *)
Lemma int_of_digits_pretty_N_go (x : N) :
  ∃ k : N, ∀ acc s,
    int_of_digits acc (pretty_N_go x s) = int_of_digits (acc * 10 ^ k + x)%N s.
Proof.
  induction (N.lt_wf_0 x) as [x _ IH].
  destruct (decide (x = 0)%N) as [->|Hx].
  { exists 0%N. intros acc s. rewrite pretty_N_go_0. f_equal. lia. }
  destruct (IH (x `div` 10)%N) as [k Hk]; [apply N.div_lt; lia|].
  exists (k + 1)%N. intros acc s.
  rewrite pretty_N_go_step by lia. rewrite Hk. simpl.
  rewrite is_nat_pretty_N_char by (apply N.mod_lt; lia). simpl.
  f_equal. rewrite N2Nat.id, N.pow_add_r.
  pose proof (N.div_mod x 10). lia.
Qed.

Lemma int_of_digits_pretty (n : N) : int_of_digits 0 (pretty n) = n.
Proof.
  unfold pretty, pretty_N. case_decide as Hn; [by subst|].
  destruct (int_of_digits_pretty_N_go n) as [k Hk]. rewrite Hk. simpl. lia.
Qed.

Lemma span_digits_pretty_N_go (x : N) s :
  (span_digits s).2 = "" → (span_digits (pretty_N_go x s)).1 = pretty_N_go x s ∧
                           (span_digits (pretty_N_go x s)).2 = "".
Proof.
  revert s. induction (N.lt_wf_0 x) as [x _ IH]; intros s Hs.
  destruct (decide (x = 0)%N) as [->|Hx].
  { rewrite pretty_N_go_0. split; [|done]. clear IH.
    induction s as [|c s IHs]; [done|]. simpl in *.
    destruct (is_digit c); [|done].
    destruct (span_digits s) as [digits rest]. simpl in *. by rewrite IHs. }
  rewrite pretty_N_go_step by lia. apply IH; [apply N.div_lt; lia|].
  simpl. rewrite is_digit_pretty_N_char. by destruct (span_digits s).
Qed.

Lemma pretty_N_go_nonempty (x : N) s : s ≠ "" → pretty_N_go x s ≠ "".
Proof.
  revert s. induction (N.lt_wf_0 x) as [x _ IH]; intros s Hs.
  destruct (decide (x = 0)%N) as [->|Hx]; [by rewrite pretty_N_go_0|].
  rewrite pretty_N_go_step by lia. apply IH; [apply N.div_lt; lia | done].
Qed.

Lemma pretty_N_starts_with_digit (n : N) :
  ∃ c digits, pretty n = String c digits ∧ is_digit c = true ∧
              (span_digits (pretty n)).1 = pretty n.
Proof.
  assert ((span_digits (pretty n)).1 = pretty n) as Hspan.
  { unfold pretty, pretty_N. case_decide; [done|]. by apply span_digits_pretty_N_go. }
  assert (pretty n ≠ "") as Hne.
  { unfold pretty, pretty_N. case_decide; [done|].
    rewrite pretty_N_go_step by lia. by apply pretty_N_go_nonempty. }
  destruct (pretty n) as [|c digits]; [done|].
  exists c, digits. split; [done|]. split; [|done].
  simpl in Hspan. by destruct (is_digit c).
Qed.

(** [re.split] on a name made of a text without digits and a number. *)
Lemma re_split_digits_number prefix (n : N) :
  Forall (λ c, is_digit c = false) (String.list_ascii_of_string prefix) →
  re_split_digits (prefix +:+ pretty n) = (prefix, Some (pretty n)).
Proof.
  induction prefix as [|c prefix IH]; intros Hprefix.
  - change ("" +:+ pretty n) with (pretty n).
    destruct (pretty_N_starts_with_digit n) as (c & digits & Hn & Hc & Hspan).
    rewrite Hn in *. simpl. rewrite Hc. simpl in Hspan. rewrite Hc in Hspan.
    by rewrite Hspan.
  - apply Forall_cons in Hprefix as [Hc Hprefix].
    change (String c prefix +:+ pretty n) with (String c (prefix +:+ pretty n)).
    simpl. rewrite Hc, IH by done. done.
Qed.

Lemma re_split_digits_no_digit s :
  Forall (λ c, is_digit c = false) (String.list_ascii_of_string s) →
  (re_split_digits s).2 = None.
Proof.
  induction s as [|c s IH]; intros Hs; [done|].
  apply Forall_cons in Hs as [Hc Hs]. simpl. rewrite Hc.
  specialize (IH Hs). by destruct (re_split_digits s).
Qed.

Lemma pretty_Z_of_N (n : N) : pretty (Z.of_N n) = pretty n.
Proof. by destruct n. Qed.

Lemma placeholder_advisories_prerelease group args :
  placeholder_advisories group args !! "prerelease" =
    if bool_decide (pre_ga_mode group args = "prerelease") then Some (-1) else None.
Proof.
  unfold placeholder_advisories. destruct (get_major_minor_fields group) as [major minor].
  destruct (_ && _); case_bool_decide; done.
Qed.

Lemma placeholder_advisories_kinds group args kind :
  kind ∈ ["image"; "rpm"; "extras"; "metadata"] →
  placeholder_advisories group args !! kind = Some (-1).
Proof.
  intros Hkind. unfold placeholder_advisories.
  destruct (get_major_minor_fields group) as [major minor].
  repeat (apply elem_of_cons in Hkind as [->|Hkind]);
    [destruct (_ && _); case_bool_decide; done..|].
  by apply elem_of_nil in Hkind.
Qed.

(** X12.  For a preview or candidate assembly the [prerelease] advisory is
    never taken over from an earlier assembly: it is the placeholder -1 when
    the assembly is in prerelease mode and absent otherwise.  The [image],
    [rpm], [extras] and [metadata] advisories are always there. *)
Theorem prerelease_advisory_is_never_reused group args advisories release_jira :
  assembly_type group args ∈ [PREVIEW; CANDIDATE] →
  _get_advisories_release_jira group args = Return (advisories, release_jira) →
  advisories !! "prerelease" =
    (if bool_decide (pre_ga_mode group args = "prerelease") then Some (-1) else None) ∧
  ∀ kind, kind ∈ ["image"; "rpm"; "extras"; "metadata"] → is_Some (advisories !! kind).
Proof.
  intros Htype. unfold _get_advisories_release_jira.
  rewrite bool_decide_eq_false_2 by (by intros []).
  assert (∀ previous : gmap string Z,
            (delete "prerelease" previous ∪ placeholder_advisories group args) !! "prerelease" =
            placeholder_advisories group args !! "prerelease") as Hunion.
  { intros previous. apply lookup_union_r, lookup_delete_eq. }
  destruct (re_split_digits (Cli.gen_assembly_name args)).2 as [digits|]; [|done].
  destruct (_ && _).
  - intros [= <- <-]. split; [apply placeholder_advisories_prerelease|].
    intros kind Hkind. by rewrite placeholder_advisories_kinds.
  - destruct (_ ≫= _) as [previous_group|].
    + intros [= <- <-]. split; [by rewrite Hunion, placeholder_advisories_prerelease|].
      intros kind Hkind. apply lookup_union_is_Some. right.
      by rewrite placeholder_advisories_kinds.
    + intros [= <- <-]. split; [apply placeholder_advisories_prerelease|].
      intros kind Hkind. by rewrite placeholder_advisories_kinds.
Qed.

Lemma prerelease_advisory_is_never_reused_witness :
  ∃ advisories,
    _get_advisories_release_jira CliScenario.group
      (CliScenario.args "rc.3" false "" None false) = Return (advisories, "ART-1002") ∧
    advisories !! "image" = Some 1002 ∧
    advisories !! "prerelease" = None ∧
    ∀ kind, kind ∈ ["image"; "rpm"; "extras"; "metadata"] → is_Some (advisories !! kind).
Proof.
  eexists. split; [vm_compute; reflexivity|]. split; [vm_compute; reflexivity|].
  apply (prerelease_advisory_is_never_reused CliScenario.group
           (CliScenario.args "rc.3" false "" None false) _ "ART-1002").
  - apply (bool_decide_unpack _). vm_compute. exact I.
  - vm_compute. reflexivity.
Defined.

(** X13.  A preview or candidate assembly whose name is a text without
    digits followed by a number [n] above 0 is matched with the assembly of
    the same text and [n - 1]: when that one is defined, its advisories
    except [prerelease] take the place of the placeholders and its release
    ticket is reused; when it is not, the placeholders and [ART-0] are
    returned. *)
Theorem numbered_assembly_reuses_its_predecessor group args prefix (n : N) :
  assembly_type group args ∈ [PREVIEW; CANDIDATE] →
  Cli.gen_assembly_name args = prefix +:+ pretty n →
  Forall (λ c, is_digit c = false) (String.list_ascii_of_string prefix) →
  (0 < n)%N →
  _get_advisories_release_jira group args =
    match releases_config group !! (prefix +:+ pretty (n - 1)%N) with
    | Some previous_group =>
        Return (delete "prerelease" (group_advisories previous_group) ∪
                  placeholder_advisories group args,
                group_release_jira previous_group)
    | None => Return (placeholder_advisories group args, "ART-0")
    end.
Proof.
  intros Htype Hname Hprefix Hn. unfold _get_advisories_release_jira.
  rewrite bool_decide_eq_false_2 by (by intros []).
  rewrite Hname, re_split_digits_number by done. cbn [fst snd].
  rewrite int_of_digits_pretty.
  rewrite (bool_decide_eq_false_2 (Z.of_N n = 0)) by lia.
  rewrite andb_false_r. cbn [andb].
  replace (Z.of_N n - 1) with (Z.of_N (n - 1)) by lia. rewrite pretty_Z_of_N.
  destruct (releases_config group !! (prefix +:+ pretty (n - 1)%N)) as [previous_group|] eqn:Hprev.
  - rewrite bool_decide_eq_true_2 by done. simpl. by rewrite Hprev.
  - rewrite bool_decide_eq_false_2 by (by intros [? ?]). done.
Qed.

Lemma numbered_assembly_reuses_its_predecessor_witness :
  _get_advisories_release_jira CliScenario.group
    (CliScenario.args "rc.3" false "prerelease" None false) =
    Return (delete "prerelease" (list_to_map [("image", 1002); ("rpm", 1003);
                                              ("prerelease", 1004)]) ∪
              placeholder_advisories CliScenario.group
                (CliScenario.args "rc.3" false "prerelease" None false),
            "ART-1002") ∧
  _get_advisories_release_jira CliScenario.group
    (CliScenario.args "rc.2" false "prerelease" None false) =
    Return (placeholder_advisories CliScenario.group
              (CliScenario.args "rc.2" false "prerelease" None false), "ART-0").
Proof.
  split.
  - apply (numbered_assembly_reuses_its_predecessor CliScenario.group
             (CliScenario.args "rc.3" false "prerelease" None false) "rc." 3%N).
    + apply (bool_decide_unpack _). vm_compute. exact I.
    + reflexivity.
    + apply (bool_decide_unpack _). vm_compute. exact I.
    + lia.
  - apply (numbered_assembly_reuses_its_predecessor CliScenario.group
             (CliScenario.args "rc.2" false "prerelease" None false) "rc." 2%N).
    + apply (bool_decide_unpack _). vm_compute. exact I.
    + reflexivity.
    + apply (bool_decide_unpack _). vm_compute. exact I.
    + lia.
Defined.

(** X14.  A preview or candidate assembly whose name holds no digit is not
    given advisories: the lookup of the number in the split name raises
    [IndexError]. *)
Theorem assembly_name_without_number_raises group args :
  assembly_type group args ∈ [PREVIEW; CANDIDATE] →
  Forall (λ c, is_digit c = false) (String.list_ascii_of_string (Cli.gen_assembly_name args)) →
  _get_advisories_release_jira group args = Raise (IndexError (Cli.gen_assembly_name args)).
Proof.
  intros Htype Hname. unfold _get_advisories_release_jira.
  rewrite bool_decide_eq_false_2 by (by intros []).
  by rewrite re_split_digits_no_digit.
Qed.

Lemma assembly_name_without_number_raises_witness :
  _get_advisories_release_jira CliScenario.group
    (CliScenario.args "rc.x" false "" None false) = Raise (IndexError "rc.x").
Proof.
  apply (assembly_name_without_number_raises CliScenario.group
           (CliScenario.args "rc.x" false "" None false)).
  - apply (bool_decide_unpack _). vm_compute. exact I.
  - apply (bool_decide_unpack _). vm_compute. exact I.
Defined.

Lemma last_merge_sort_greatest (l : list string) (greatest : string) :
  greatest ∈ l →
  (∀ a, a ∈ l → String.le a greatest) →
  last (merge_sort String.le l) = Some greatest.
Proof.
  intros Hin Hmax.
  pose proof (StronglySorted_merge_sort String.le l) as Hsorted.
  pose proof (merge_sort_Permutation String.le l) as Hperm.
  destruct (merge_sort String.le l) as [|x sorted _] using rev_ind.
  { rewrite <- Hperm in Hin. by apply elem_of_nil in Hin. }
  rewrite last_snoc. f_equal. apply (anti_symm String.le).
  - apply Hmax. rewrite <- Hperm. apply elem_of_app. right. by left.
  - rewrite <- Hperm in Hin. apply elem_of_app in Hin as [Hin|Hin%list_elem_of_singleton].
    + eapply (StronglySorted_app_1_elem_of String.le); [done | done | by left].
    + by subst.
Qed.

(** X15.  The first candidate, numbered 0, is matched with the preview
    assembly whose name is the greatest in the order of strings among the
    defined assemblies that start with [ec.]: its advisories except
    [prerelease] and its release ticket are reused. *)
Theorem first_candidate_reuses_greatest_preview group args digits previous_assembly
    previous_group :
  assembly_type group args = CANDIDATE →
  (re_split_digits (Cli.gen_assembly_name args)).2 = Some digits →
  int_of_digits 0 digits = 0%N →
  releases_config group !! previous_assembly = Some previous_group →
  String.prefix "ec." previous_assembly = true →
  (∀ a, is_Some (releases_config group !! a) → String.prefix "ec." a = true →
        String.le a previous_assembly) →
  _get_advisories_release_jira group args =
    Return (delete "prerelease" (group_advisories previous_group) ∪
              placeholder_advisories group args,
            group_release_jira previous_group).
Proof.
  intros Htype Hsplit Hzero Hprev Hec Hmax. unfold _get_advisories_release_jira.
  rewrite bool_decide_eq_false_2 by (rewrite Htype; intros []; by right; left).
  rewrite Hsplit, Hzero, Htype.
  rewrite (bool_decide_eq_false_2 (CANDIDATE = PREVIEW)) by done.
  rewrite !bool_decide_eq_true_2 by done. cbn [andb].
  unfold ec_assemblies. rewrite (last_merge_sort_greatest _ previous_assembly).
  - simpl. by rewrite Hprev.
  - apply list_elem_of_filter. split; [done|].
    apply list_elem_of_fmap. exists (previous_assembly, previous_group).
    split; [done|]. by apply elem_of_map_to_list.
  - intros a [Ha ((a' & g) & -> & Hin%elem_of_map_to_list)%list_elem_of_fmap]%list_elem_of_filter.
    apply Hmax; [by eexists | done].
Qed.

Lemma first_candidate_reuses_greatest_preview_witness :
  _get_advisories_release_jira CliScenario.group
    (CliScenario.args "rc.0" false "" None false) =
    Return (delete "prerelease" (list_to_map [("image", 909); ("prerelease", 910)]) ∪
              placeholder_advisories CliScenario.group
                (CliScenario.args "rc.0" false "" None false),
            "ART-909").
Proof.
  apply (first_candidate_reuses_greatest_preview CliScenario.group
           (CliScenario.args "rc.0" false "" None false) "0" "ec.9"
           (CliScenario.defined [("image", 909); ("prerelease", 910)] "ART-909")).
  - reflexivity.
  - reflexivity.
  - reflexivity.
  - vm_compute. reflexivity.
  - reflexivity.
  - assert (map_Forall (λ a _, String.prefix "ec." a = true → String.le a "ec.9")
              (releases_config CliScenario.group)) as Hall.
    { apply (bool_decide_unpack _). vm_compute. exact I. }
    intros a [g Hg]. exact (Hall a g Hg).
Defined.

(** *** The [group] block *)

Section GroupInfoProperties.
Context {VersionInfo : Type} `{EqDecision VersionInfo}.
Variable parse : string → option VersionInfo.
Variable version_lt : relation VersionInfo.
Context `{∀ x y, Decision (version_lt x y)}.
Variable str : VersionInfo → string.

Lemma group_info_Return rt group args st (final_previous_list : list VersionInfo) info :
  group_info str rt group args st final_previous_list = Return info →
  operator_index_mode info =
    (if bool_decide (assembly_type group args ≠ CUSTOM) &&
        bool_decide (pre_ga_mode group args = "prerelease")
     then Some "pre-release" else None) ∧
  (assembly_type group args = CUSTOM → advisories info = None ∧ release_jira info = None) ∧
  (assembly_type group args ≠ CUSTOM →
   ∃ advisories' release_jira',
     _get_advisories_release_jira group args = Return (advisories', release_jira') ∧
     advisories info = Some advisories' ∧ release_jira info = Some release_jira') ∧
  upgrades info =
    (if bool_decide (final_previous_list ≠ [])
     then Some (String.concat "," (str <$> final_previous_list)) else None) ∧
  arches_override info =
    (if Cli.custom args
     then enumerate (rhcos_arches_order rt) <$>
          rhcos_by_tag st !! rhcos_get_primary_container_name rt
     else None).
Proof.
  unfold group_info. intros (arches & Harches & Hrest)%bind_Return.
  apply bind_Return in Hrest as ([[advisories' release_jira'] mode] & Hadv & [= <-]).
  cbn [operator_index_mode advisories release_jira upgrades arches_override].
  assert (arches = if Cli.custom args
                   then enumerate (rhcos_arches_order rt) <$>
                        rhcos_by_tag st !! rhcos_get_primary_container_name rt
                   else None) as <-.
  { destruct (Cli.custom args); [|by injection Harches].
    destruct (rhcos_by_tag st !! _); [by injection Harches | done]. }
  case_bool_decide as Htype.
  - apply bind_Return in Hadv as ([a j] & Hget & [= <- <- <-]).
    split; [done|]. split; [done|]. split; [|done]. intros _. by exists a, j.
  - injection Hadv as <- <- <-. split; [done|]. split; [done|]. split; [|done].
    intros Hne. by destruct Htype.
Qed.

(** X16.  In the group block of an assembly whose parameters
    [_validate_params] accepted, [operator_index_mode] is set, to
    [pre-release], exactly for a preview assembly and for a candidate
    assembly asked for in prerelease mode; and for a custom assembly none of
    [advisories], [release_jira], [operator_index_mode] and [upgrades] is
    set. *)
Theorem group_block_of_validated_assembly rt group args st final_previous_list info :
  _validate_params group args = Return () →
  _calculate_previous_list parse version_lt group args = Return final_previous_list →
  group_info str rt group args st final_previous_list = Return info →
  (operator_index_mode info = Some "pre-release" ↔
   assembly_type group args = PREVIEW ∨
   (assembly_type group args = CANDIDATE ∧ Cli.pre_ga_mode args = "prerelease")) ∧
  (assembly_type group args = CUSTOM →
   advisories info = None ∧ release_jira info = None ∧
   operator_index_mode info = None ∧ upgrades info = None).
Proof.
  intros Hvalid Hprevious Hinfo.
  apply group_info_Return in Hinfo as (Hmode & Hcustom & _ & Hupgrades & _).
  apply _validate_params_Return in Hvalid as (_ & _ & _ & Hnone & Hpre & _).
  split.
  - rewrite Hmode. split.
    + destruct (bool_decide (assembly_type group args ≠ CUSTOM)) eqn:Hne; [|intros [=]].
      cbn [andb].
      destruct (decide (pre_ga_mode group args = "prerelease")) as [Hprerelease|Hno];
        [|rewrite bool_decide_eq_false_2 by done; intros [=]].
      intros _.
      destruct (Hpre Hprerelease) as [?|Hcandidate]; [by left|]. right. split; [done|].
      unfold pre_ga_mode in Hprerelease.
      by rewrite Hcandidate, bool_decide_eq_false_2 in Hprerelease.
    + unfold pre_ga_mode. intros [Htype|[Htype Hgiven]]; rewrite Htype.
      * by rewrite !bool_decide_eq_true_2.
      * rewrite (bool_decide_eq_false_2 (CANDIDATE = PREVIEW)) by done.
        by rewrite !bool_decide_eq_true_2.
  - intros Htype. destruct (Hcustom Htype) as [-> ->].
    split; [done|]. split; [done|]. split.
    + rewrite Hmode, Htype. by rewrite bool_decide_eq_false_2 by (by intros []).
    + destruct (Hnone Htype) as (Hauto & Hprev & Hflight).
      unfold _calculate_previous_list in Hprevious.
      rewrite Hflight, Hauto, Hprev in Hprevious.
      injection Hprevious as <-. by rewrite Hupgrades.
Qed.

End GroupInfoProperties.

Lemma group_block_of_validated_assembly_witness :
  ∃ info,
    group_info CliScenario.str Scenario.two_arches CliScenario.group
      (CliScenario.args "ec.1" false "" (Some "4.16.0") true)
      (Scenario.completed Scenario.two_arches false) [41502; 41503; 41504; 41600]%N =
      Return info ∧
    upgrades info = Some "4.15.2,4.15.3,4.15.4,4.16.0" ∧
    (operator_index_mode info = Some "pre-release" ↔
     assembly_type CliScenario.group (CliScenario.args "ec.1" false "" (Some "4.16.0") true) =
       PREVIEW ∨
     (assembly_type CliScenario.group (CliScenario.args "ec.1" false "" (Some "4.16.0") true) =
        CANDIDATE ∧ "" = "prerelease")).
Proof.
  eexists. split; [vm_compute; reflexivity|]. split; [vm_compute; reflexivity|].
  eapply (group_block_of_validated_assembly CliScenario.parse N.lt CliScenario.str
            Scenario.two_arches CliScenario.group
            (CliScenario.args "ec.1" false "" (Some "4.16.0") true)
            (Scenario.completed Scenario.two_arches false) [41502; 41503; 41504; 41600]%N).
  - reflexivity.
  - vm_compute. reflexivity.
  - vm_compute. reflexivity.
Defined.

(** ** Further properties of the outlier passes and of a whole run *)

(** What one iteration of the image pass leaves on record for the component
    of its [image_meta]. *)
Lemma collect_outlier_builds rt params st image_meta st' :
  collect_outlier rt params st image_meta = Ok st' →
  release_eligible image_meta = true →
  ∃ latest,
    image_latest_brew_build rt image_meta (basis_event st) = Some latest ∧
    component_image_builds st' !! ImageMetadata.get_component_name image_meta =
      if ImageMetadata.is_payload image_meta
      then Some (default latest
                   (component_image_builds st !! ImageMetadata.get_component_name image_meta))
      else Some latest.
Proof.
  unfold release_eligible, collect_outlier. intros H Hel.
  apply negb_true_iff in Hel. rewrite Hel in H.
  destruct (image_latest_brew_build rt image_meta (basis_event st)) as [latest|]; [|done].
  exists latest. split; [done|].
  destruct (ImageMetadata.is_payload image_meta); simpl in H.
  - destruct (component_image_builds st !! ImageMetadata.get_component_name image_meta)
      as [b|] eqn:Hb.
    + case_bool_decide; injection H as <-; simpl; by rewrite Hb.
    + injection H as <-. destruct (custom params); simpl; by rewrite lookup_insert_eq.
  - injection H as <-. simpl. by rewrite lookup_insert_eq.
Qed.

Lemma collect_outlier_skipped rt params st image_meta :
  release_eligible image_meta = false → collect_outlier rt params st image_meta = Ok st.
Proof.
  unfold release_eligible, collect_outlier. intros Hel.
  apply negb_false_iff in Hel. by rewrite Hel.
Qed.

(** X17.  Over image components with distinct names, the image pass leaves
    a build on record for every component that is for release and not base
    only: for a payload component the build found in the payloads when there
    is one, and otherwise, and for every component that is not for the
    payload, the latest build at the basis event.  What is on record under
    any other name is left as it was. *)
Theorem image_builds_after_outlier_pass rt params st st' :
  NoDup (ImageMetadata.get_component_name <$> image_metas rt) →
  _collect_outliers rt params st = Ok st' →
  (∀ image_meta,
     image_meta ∈ image_metas rt → release_eligible image_meta = true →
     ∃ latest,
       image_latest_brew_build rt image_meta (basis_event st) = Some latest ∧
       component_image_builds st' !! ImageMetadata.get_component_name image_meta =
         if ImageMetadata.is_payload image_meta
         then Some (default latest
                      (component_image_builds st !! ImageMetadata.get_component_name image_meta))
         else Some latest) ∧
  (∀ package_name,
     (∀ image_meta, image_meta ∈ image_metas rt → release_eligible image_meta = true →
                    ImageMetadata.get_component_name image_meta ≠ package_name) →
     component_image_builds st' !! package_name = component_image_builds st !! package_name).
Proof.
  unfold _collect_outliers. generalize (image_metas rt). intros metas.
  revert st. induction metas as [|m metas IH]; intros st Hnodup Hrun.
  { injection Hrun as <-. split; [by intros ? ?%elem_of_nil | done]. }
  rewrite fmap_cons in Hnodup. apply NoDup_cons in Hnodup as [Hm Hnodup].
  rewrite for_each_cons in Hrun. apply bind_Ok in Hrun as (s1 & Hstep & Hrest).
  destruct (IH s1 Hnodup Hrest) as [IHin IHout].
  pose proof (collect_outlier_frame _ _ _ _ _ Hstep) as (Hevent & _).
  split.
  - intros image_meta [->|Hin]%elem_of_cons Hel.
    + destruct (collect_outlier_builds _ _ _ _ _ Hstep Hel) as (latest & Hlatest & Hrec).
      exists latest. split; [done|]. rewrite <- Hrec.
      by apply (_collect_outliers_builds_ne _ _ _ _ _ _ Hrest).
    + destruct (IHin image_meta Hin Hel) as (latest & Hlatest & Hrec).
      exists latest. rewrite <- Hevent. split; [done|]. rewrite Hrec.
      rewrite (collect_outlier_builds_ne _ _ _ _ _ _ Hstep); [done|].
      intros Heq. apply Hm. rewrite <- Heq. apply list_elem_of_fmap. by exists image_meta.
  - intros package_name Hother. rewrite IHout.
    + destruct (release_eligible m) eqn:Hel.
      * apply (collect_outlier_builds_ne _ _ _ _ _ _ Hstep).
        intros ->. by apply (Hother m); [left|..].
      * rewrite collect_outlier_skipped in Hstep by done. by injection Hstep as <-.
    + intros image_meta Hin. apply Hother. by right.
Qed.

Lemma image_builds_after_outlier_pass_witness :
  ∃ st',
    _collect_outliers Scenario.two_arches (Scenario.two_arches_params false)
      (Scenario.fetched Scenario.two_arches false) = Ok st' ∧
    component_image_builds st' !! "bar-container" = Some Scenario.bar_1 ∧
    component_image_builds st' !! "baz-container" = Some Scenario.baz_1 ∧
    component_image_builds st' !! "qux-container" = Some Scenario.qux_1 ∧
    component_image_builds st' !! "rhcos" =
      component_image_builds (Scenario.fetched Scenario.two_arches false) !! "rhcos".
Proof.
  eexists. split; [vm_compute; reflexivity|].
  split; [vm_compute; reflexivity|]. split; [vm_compute; reflexivity|].
  split; [vm_compute; reflexivity|].
  eapply (image_builds_after_outlier_pass Scenario.two_arches
            (Scenario.two_arches_params false) (Scenario.fetched Scenario.two_arches false)).
  - apply (bool_decide_unpack _). vm_compute. exact I.
  - vm_compute. reflexivity.
  - intros image_meta Hin _. revert image_meta Hin. apply Forall_forall.
    apply (bool_decide_unpack _). vm_compute. exact I.
Defined.


Lemma select_rpm_builds_grow rt st b st' package_name :
  select_rpm rt st b = Ok st' →
  is_Some (component_rpm_builds st !! package_name) →
  is_Some (component_rpm_builds st' !! package_name).
Proof.
  unfold select_rpm. intros H Hsome.
  repeat (case_match || case_bool_decide); simplify_eq; simpl in *;
    try done; apply lookup_insert_is_Some'; try (by right);
    right; apply lookup_insert_is_Some'; by right.
Qed.





(** X19.  The basis event of the assembly definition is the one estimated
    from the payloads: the image pass, the RHCOS step and the RPM pass never
    move it. *)
Theorem definition_carries_estimated_basis_event rt params completion_order fetched definition :
  _determine_basis_brew_event rt params completion_order initial_state = Ok fetched →
  run rt params completion_order = Ok definition →
  brew_event definition = basis_event fetched.
Proof.
  intros Hfetched. unfold run.
  intros (st & Hrun & Hdef)%bind_Ok.
  apply run_state_Ok in Hrun as (f & collected & completed & Hf & Hc & Hr & Hs).
  rewrite Hfetched in Hf. injection Hf as <-.
  destruct (run_state_passes _ _ _ _ _ _ _ Hfetched Hc Hr Hs) as (_ & _ & Hevent & _).
  unfold _generate_assembly_definition in Hdef.
  apply bind_Ok in Hdef as (overrides & _ & [= <-]). done.
Qed.

Lemma definition_carries_estimated_basis_event_witness :
  ∃ definition,
    run Scenario.two_arches (Scenario.two_arches_params false) Scenario.aarch64_first =
      Ok definition ∧
    brew_event definition = 20 ∧
    brew_event definition =
      basis_event (Scenario.state_of
                     (_determine_basis_brew_event Scenario.two_arches
                        (Scenario.two_arches_params false) Scenario.aarch64_first
                        initial_state)).
Proof.
  eexists. split; [vm_compute; reflexivity|]. split; [vm_compute; reflexivity|].
  apply (definition_carries_estimated_basis_event Scenario.two_arches
           (Scenario.two_arches_params false) Scenario.aarch64_first).
  - vm_compute. reflexivity.
  - vm_compute. reflexivity.
Defined.

(** X25.  A payload without a component tag, or without a machine-os
    version, ends the run whatever the other payloads hold and in whatever
    order the payloads complete: no assembly definition is produced. *)
Theorem ill_formed_payload_ends_the_run rt params completion_order release :
  release ∈ completion_order →
  ¬ well_formed_release rt release →
  is_Exit (run rt params completion_order) ∧
  definition_of (run rt params completion_order) = None.
Proof.
  intros Hin Hill.
  assert (is_Exit (for_each (_process_release rt) (started params initial_state)
                     completion_order)) as Hexit.
  { apply (for_each_exit _ (λ _, True) completion_order release); [done|done| |done].
    intros s _. unfold _process_release. destruct release as [brew_cpu_arch pullspec].
    unfold well_formed_release in Hill. simpl in Hill.
    case_bool_decide as Htags; [done|].
    case_bool_decide as Hversion; [done|]. by destruct Hill. }
  unfold run, run_state, _select_images, _determine_basis_brew_event.
  destruct (for_each (_process_release rt) (started params initial_state) completion_order);
    [done|]. done.
Qed.

Lemma ill_formed_payload_ends_the_run_witness :
  let rt := Scenario.two_arches in
  let order := [("x86_64", "release:x86_64"); ("s390x", "release:s390x")] in
  is_Exit (run rt (Scenario.two_arches_params false) order) ∧
  definition_of (run rt (Scenario.two_arches_params false) order) = None.
Proof.
  intros rt order.
  apply (ill_formed_payload_ends_the_run rt (Scenario.two_arches_params false) order
           ("s390x", "release:s390x")).
  - apply (bool_decide_unpack _). vm_compute. exact I.
  - intros [Htags _]. by apply Htags.
Defined.

(** ** Properties of [ocp_cd_tools/common.py] *)

Section RetryProperties.
Context {R : Type}.
Variable f : nat → R.
Variable check_f : R → bool.
Variable wait_f : bool.

Lemma retry_from_passing (n : Z) (k c fuel : nat) so_far :
  (c ≤ k)%nat → (k < c + fuel)%nat → Z.of_nat k < n →
  check_f (f k) = true →
  (∀ j, (c ≤ j)%nat → (j < k)%nat → check_f (f j) = false) →
  Common.retry_from f check_f wait_f n c fuel so_far =
    (Some (f k),
     so_far ++ (seq c (k - c) ≫= λ c, if wait_f then [Common.Called c; Common.Waited c]
                                      else [Common.Called c])
            ++ [Common.Called k]).
Proof.
  revert c so_far. induction fuel as [|fuel IH]; intros c so_far Hc Hk Hn Hpass Hfail; [lia|].
  simpl. destruct (decide (c = k)) as [->|Hne].
  - rewrite Hpass. by rewrite Nat.sub_diag.
  - rewrite (Hfail c) by lia. rewrite bool_decide_eq_true_2 by lia.
    rewrite IH by (try done; try lia; intros; apply Hfail; lia).
    replace (k - c)%nat with (S (k - S c)) by lia. f_equal.
    cbn [seq mbind list_bind]. destruct wait_f; simpl; by rewrite <- !app_assoc.
Qed.

Lemma retry_from_failing (n : Z) (c fuel : nat) so_far :
  Z.of_nat (c + fuel) = n →
  (∀ j, (c ≤ j)%nat → Z.of_nat j < n → check_f (f j) = false) →
  Common.retry_from f check_f wait_f n c fuel so_far =
    (None,
     so_far ++
       match fuel with
       | O => []
       | S fuel' =>
           (seq c fuel' ≫= λ c, if wait_f then [Common.Called c; Common.Waited c]
                                else [Common.Called c])
           ++ [Common.Called (c + fuel')]
       end).
Proof.
  revert c so_far. induction fuel as [|fuel IH]; intros c so_far Hn Hfail.
  { simpl. by rewrite app_nil_r. }
  simpl. rewrite (Hfail c) by lia.
  destruct fuel as [|fuel].
  - rewrite bool_decide_eq_false_2 by lia. simpl. by rewrite Nat.add_0_r.
  - rewrite bool_decide_eq_true_2 by lia.
    rewrite IH by (try done; try lia; intros; apply Hfail; lia).
    f_equal. cbn [seq mbind list_bind].
    replace (S c + fuel)%nat with (c + S fuel)%nat by lia.
    destruct wait_f; simpl; by rewrite <- !app_assoc.
Qed.

(** X20.  [retry] returns the value of the first call of [f] that passes
    [check_f], if there is one among the first [n], after calling [f] once
    per attempt and waiting after each failed one.  When none of [n]
    attempts passes it raises, having called [f] exactly [n] times and
    waited between the attempts but not after the last; for [n] at most 0
    it raises without calling [f]. *)
Theorem retry_stops_at_first_passing_attempt (n : Z) :
  (∀ k, Z.of_nat k < n → check_f (f k) = true →
        (∀ j, (j < k)%nat → check_f (f j) = false) →
        Common.retry f check_f wait_f n =
          (Some (f k), Common.failed_attempts wait_f k ++ [Common.Called k])) ∧
  ((∀ k, Z.of_nat k < n → check_f (f k) = false) →
   Common.retry f check_f wait_f n =
     (None,
      if bool_decide (n ≤ 0) then []
      else Common.failed_attempts wait_f (Z.to_nat n - 1) ++ [Common.Called (Z.to_nat n - 1)])).
Proof.
  unfold Common.retry, Common.failed_attempts. split.
  - intros k Hk Hpass Hfail.
    rewrite (retry_from_passing n k) by (try done; try lia; intros; apply Hfail; lia).
    by rewrite Nat.sub_0_r.
  - intros Hfail. case_bool_decide as Hn.
    + by replace (Z.to_nat n) with 0%nat by lia.
    + rewrite retry_from_failing by (try lia; intros; by apply Hfail).
      destruct (Z.to_nat n) as [|m] eqn:Hm; [lia|]. simpl. by rewrite Nat.sub_0_r.
Qed.

End RetryProperties.

Lemma retry_stops_at_first_passing_attempt_witness :
  let f (c : nat) : nat := c in
  let check_f (ret : nat) : bool := bool_decide (2 ≤ ret)%nat in
  Common.retry f check_f true 5 =
    (Some 2%nat,
     [Common.Called 0; Common.Waited 0; Common.Called 1; Common.Waited 1; Common.Called 2]) ∧
  Common.retry f check_f true 2 =
    (None, [Common.Called 0; Common.Waited 0; Common.Called 1]) ∧
  Common.retry f check_f true 0 = (None, []).
Proof.
  intros f check_f. split; [|split].
  - apply (retry_stops_at_first_passing_attempt f check_f true 5).
    + lia.
    + reflexivity.
    + intros j Hj. unfold check_f, f. apply bool_decide_eq_false. lia.
  - apply (retry_stops_at_first_passing_attempt f check_f true 2).
    intros k Hk. unfold check_f, f. apply bool_decide_eq_false. lia.
  - apply (retry_stops_at_first_passing_attempt f check_f true 0).
    intros k Hk. lia.
Defined.

Section AssertExecProperties.
Variable exec_cmd : nat → Z.

Lemma assert_exec_from_step (t fuel : nat) rc w :
  exec_cmd t ≠ 0 →
  Common.assert_exec_from exec_cmd t (S fuel) rc w =
    Common.assert_exec_from exec_cmd (S t) fuel (exec_cmd t)
      (Common.act (Common.ExecCmd t)
         (if bool_decide (0 < t)%nat
          then Common.act (Common.Sleep 60) (Common.act Common.LogRetrying w) else w)).
Proof. intros Hrc. simpl. by rewrite bool_decide_eq_false_2. Qed.

Lemma assert_exec_from_passing (k t fuel : nat) rc w :
  (t ≤ k)%nat → (k < t + fuel)%nat →
  exec_cmd k = 0 →
  (∀ j, (t ≤ j)%nat → (j < k)%nat → exec_cmd j ≠ 0) →
  Common.assert_exec_from exec_cmd t fuel rc w =
    (0,
     {| Common.remove_tmp_working_dir := Common.remove_tmp_working_dir w;
        Common.actions :=
          Common.actions w ++
          (if bool_decide (0 < t)%nat then [Common.LogRetrying; Common.Sleep 60] else []) ++
          (seq t (k - t) ≫= λ t, [Common.ExecCmd t; Common.LogRetrying; Common.Sleep 60]) ++
          [Common.ExecCmd k] |}).
Proof.
  revert t rc w. induction fuel as [|fuel IH]; intros t rc w Ht Hk Hpass Hfail; [lia|].
  simpl. destruct (decide (t = k)) as [->|Hne].
  - rewrite Hpass. simpl. rewrite Nat.sub_diag. unfold Common.act.
    case_bool_decide; simpl; by rewrite <- ?app_assoc.
  - rewrite (bool_decide_eq_false_2 (exec_cmd t = 0)) by (apply Hfail; lia).
    rewrite IH by (try done; try lia; intros; apply Hfail; lia).
    rewrite (bool_decide_eq_true_2 (0 < S t)%nat) by lia.
    replace (k - t)%nat with (S (k - S t)) by lia. f_equal.
    cbn [seq mbind list_bind]. unfold Common.act.
    case_bool_decide; simpl; f_equal; by rewrite <- ?app_assoc.
Qed.

Lemma assert_exec_from_failing (t fuel : nat) rc w :
  (∀ j, (t ≤ j)%nat → (j < t + S fuel)%nat → exec_cmd j ≠ 0) →
  Common.assert_exec_from exec_cmd t (S fuel) rc w =
    (exec_cmd (t + fuel),
     {| Common.remove_tmp_working_dir := Common.remove_tmp_working_dir w;
        Common.actions :=
          Common.actions w ++
          (if bool_decide (0 < t)%nat then [Common.LogRetrying; Common.Sleep 60] else []) ++
          (seq t fuel ≫= λ t, [Common.ExecCmd t; Common.LogRetrying; Common.Sleep 60]) ++
          [Common.ExecCmd (t + fuel)] |}).
Proof.
  revert t rc w. induction fuel as [|fuel IH]; intros t rc w Hfail.
  - simpl. rewrite (bool_decide_eq_false_2 (exec_cmd t = 0)) by (apply Hfail; lia).
    rewrite Nat.add_0_r. unfold Common.act.
    case_bool_decide; simpl; by rewrite <- ?app_assoc.
  - rewrite assert_exec_from_step by (apply Hfail; lia).
    rewrite IH by (intros; apply Hfail; lia).
    rewrite (bool_decide_eq_true_2 (0 < S t)%nat) by lia.
    replace (S t + fuel)%nat with (t + S fuel)%nat by lia. f_equal.
    cbn [seq mbind list_bind]. unfold Common.act.
    case_bool_decide; simpl; f_equal; by rewrite <- ?app_assoc.
Qed.

(** X21.  [assert_exec] runs the command until it exits with 0, at most
    [retries] times, logging and sleeping 60 seconds before every run but
    the first.  It raises only when [retries] is above 0 and every run
    failed, and then [remove_tmp_working_dir] is cleared; with [retries] at
    most 0 it runs nothing and raises nothing. *)
Theorem assert_exec_runs_until_success (retries : Z) (w : Common.World) :
  (retries ≤ 0 → Common.assert_exec exec_cmd retries w = (None, w)) ∧
  (∀ k, Z.of_nat k < retries → exec_cmd k = 0 →
        (∀ j, (j < k)%nat → exec_cmd j ≠ 0) →
        Common.assert_exec exec_cmd retries w =
          (None,
           {| Common.remove_tmp_working_dir := Common.remove_tmp_working_dir w;
              Common.actions :=
                Common.actions w ++ Common.failed_runs k ++ [Common.ExecCmd k] |})) ∧
  (0 < retries → (∀ k, Z.of_nat k < retries → exec_cmd k ≠ 0) →
   Common.assert_exec exec_cmd retries w =
     (Some Common.IOError,
      {| Common.remove_tmp_working_dir := false;
         Common.actions :=
           Common.actions w ++ Common.failed_runs (Z.to_nat retries - 1) ++
           [Common.ExecCmd (Z.to_nat retries - 1)] |})).
Proof.
  unfold Common.assert_exec, Common.failed_runs. split; [|split].
  - intros Hretries. replace (Z.to_nat retries) with 0%nat by lia. simpl.
    by destruct w.
  - intros k Hk Hpass Hfail.
    rewrite (assert_exec_from_passing k) by (try done; try lia; intros; apply Hfail; lia).
    unfold Common.assert_rc0. simpl. by rewrite Nat.sub_0_r.
  - intros Hretries Hfail.
    destruct (Z.to_nat retries) as [|m] eqn:Hm; [lia|].
    rewrite assert_exec_from_failing by (intros; apply Hfail; lia).
    unfold Common.assert_rc0. rewrite bool_decide_eq_true_2 by (apply Hfail; lia).
    simpl. by rewrite Nat.sub_0_r.
Qed.

End AssertExecProperties.

Lemma assert_exec_runs_until_success_witness :
  let exec_cmd (t : nat) : Z := if bool_decide (t < 2)%nat then 1 else 0 in
  let w := {| Common.remove_tmp_working_dir := true; Common.actions := [] |} in
  Common.assert_exec exec_cmd 0 w = (None, w) ∧
  Common.assert_exec exec_cmd 3 w =
    (None,
     {| Common.remove_tmp_working_dir := true;
        Common.actions :=
          [Common.ExecCmd 0; Common.LogRetrying; Common.Sleep 60;
           Common.ExecCmd 1; Common.LogRetrying; Common.Sleep 60; Common.ExecCmd 2] |}) ∧
  Common.assert_exec exec_cmd 2 w =
    (Some Common.IOError,
     {| Common.remove_tmp_working_dir := false;
        Common.actions :=
          [Common.ExecCmd 0; Common.LogRetrying; Common.Sleep 60; Common.ExecCmd 1] |}).
Proof.
  intros exec_cmd w. split; [|split].
  - apply (assert_exec_runs_until_success exec_cmd 0 w). lia.
  - apply (proj1 (proj2 (assert_exec_runs_until_success exec_cmd 3 w)) 2%nat).
    + lia.
    + reflexivity.
    + intros j Hj. unfold exec_cmd. rewrite bool_decide_eq_true_2 by lia. done.
  - apply (assert_exec_runs_until_success exec_cmd 2 w).
    + lia.
    + intros k Hk. unfold exec_cmd. rewrite bool_decide_eq_true_2 by lia. done.
Defined.

Lemma split_on_parts sep s :
  Forall (λ part, sep ∉ String.list_ascii_of_string part) (split_on sep s).
Proof.
  induction s as [|c s IH]; simpl.
  { constructor; [apply not_elem_of_nil | constructor]. }
  case_bool_decide as Hc.
  - constructor; [apply not_elem_of_nil | done].
  - destruct (split_on sep s) as [|part parts].
    + constructor; [|constructor]. simpl. rewrite not_elem_of_cons. split; [done|].
      apply not_elem_of_nil.
    + apply Forall_cons in IH as [Hpart Hparts]. constructor; [|done].
      simpl. rewrite not_elem_of_cons. split; [congruence | done].
Qed.

Lemma split_on_head_sep sep s : split_on sep (String sep s) = "" :: split_on sep s.
Proof. simpl. by rewrite bool_decide_eq_true_2. Qed.

(** X22.  The argument list that [exec_cmd] and [gather_exec] make of a
    command given as one string has one argument more than the command has
    spaces, none of the arguments holds a space, and joined with spaces they
    are the command again: two spaces in a row, or a space at either end,
    give an empty argument. *)
Theorem cmd_list_round_trip (cmd : string) :
  String.concat " " (Common.cmd_list cmd) = cmd ∧
  length (Common.cmd_list cmd) = S (count_char " " cmd) ∧
  Forall (λ arg, " "%char ∉ String.list_ascii_of_string arg) (Common.cmd_list cmd).
Proof.
  unfold Common.cmd_list. split; [apply concat_split_on|].
  split; [apply length_split_on | apply split_on_parts].
Qed.

(** X23.  The command that [recursive_overwrite] runs always has an empty
    third argument, after [rsync] and [-av]: the command line is split at
    every space, and there are two in a row before the first exclude option
    or, without one, before the source. *)
Theorem recursive_overwrite_passes_empty_argument (src dest : string) (ignore : list string) :
  ∃ args,
    Common.recursive_overwrite_cmd src dest ignore = "rsync" :: "-av" :: "" :: args.
Proof.
  unfold Common.recursive_overwrite_cmd.
  change ("rsync -av " +:+ ?s) with ("rsync" +:+ String " " ("-av" +:+ String " " s)).
  rewrite split_on_app by (apply (bool_decide_unpack _); vm_compute; exact I).
  rewrite split_on_app by (apply (bool_decide_unpack _); vm_compute; exact I).
  destruct ignore as [|i ignore]; cbn [Common.exclude_of].
  - change ("" +:+ " " +:+ ?s) with (String " " s).
    rewrite split_on_head_sep. by eexists.
  - change ((" --exclude=" +:+ ?a) +:+ ?b) with (String " " (("--exclude=" +:+ a) +:+ b)).
    rewrite split_on_head_sep. by eexists.
Qed.

(** X24.  [with Dir(...)] blocks, nested to any depth, run the body in the
    innermost directory and leave the process and the thread-local storage
    in the directory that was in effect before, whatever the body did to
    either. *)
Theorem with_Dirs_restores (dirs : list string) (dir : string) (body : Common.Cwd → Common.Cwd)
    (w : Common.Cwd) :
  let inside := {| Common.os_cwd := dir; Common.tl_cwd := Some dir |} in
  let before := (Common.getcwd w).1 in
  Common.with_Dirs (dirs ++ [dir]) body w =
    Common.with_Dirs (dirs ++ [dir]) (λ _, body inside) w ∧
  Common.with_Dirs (dirs ++ [dir]) body w =
    {| Common.os_cwd := before; Common.tl_cwd := Some before |}.
Proof.
  intros inside before. split.
  - clear before. revert w. induction dirs as [|d dirs IH]; intros w; simpl.
    + unfold Common.with_Dir, Common.enter. by destruct (Common.getcwd w).
    + unfold Common.with_Dir. destruct (Common.enter d w) as [previousDir w'].
      by rewrite IH.
  - subst before. destruct dirs as [|d dirs]; simpl;
      unfold Common.with_Dir, Common.enter; by destruct (Common.getcwd w).
Qed.

